(** * ZeroPoint: the dipole simulation worker (dipole-worker.js)

    A shallow embedding of the worker script and the verification of its
    pool, lifecycle and buffer hand-off properties.

    Numbers.  JavaScript numbers are modelled as real numbers ([R]):
    arithmetic is exact, [Math.sin], [Math.cos], [Math.sqrt] and [Math.PI]
    are the real functions and constant, and the rounding of doubles and of
    [Float32Array] storage, underflow and overflow are not modelled.  An [ArrayBuffer] together with
    its [Float32Array] view is a list of numbers (its byte length is four
    times the length of the list) tagged with the identity of its data
    block.

    Effects.  The worker's globals form the record [Worker]; the handlers
    run in a state monad with exceptions, in which a thrown error keeps
    the mutations made before it.  [Math.random()] and [performance.now()]
    are inputs of the events; [postMessage], the typed-array writes, the
    buffer allocations and the receipt of returned buffers are recorded in
    the [effects] trace (newest first). *)

From Stdlib Require Import Reals Lra Lia.
From stdpp Require Import base tactics option list.

Local Open Scope R_scope.

(** ** Math kernel *)

Record Vec3 := mkVec3 { vx : R; vy : R; vz : R }.
Record Quat := mkQuat { qx : R; qy : R; qz : R; qw : R }.

(** A 4x4 matrix is a flat column-major array of 16 numbers. *)
Definition Mat4 := list R.

Module Vec3.
Definition create : Vec3 := mkVec3 0 0 0.
Definition set (x y z : R) : Vec3 := mkVec3 x y z.

(** [normalize(out, a)]: [out] is overwritten only when the squared
    length [len] of [a] is positive; otherwise [out] keeps its previous
    contents.  The code computes [len] in doubles: this definition is the
    code's where [len] is 0 or within the range of the normal doubles, as
    it is for the vectors that [createDipole] draws (components in
    [-0.5, 0.5]).  A non-zero vector so short that [len] underflows to 0
    (which the code leaves unnormalised) or so long that [len] overflows
    (which the code sends to the zero vector) is outside the model. *)
Definition normalize (out a : Vec3) : Vec3 :=
  let len := vx a * vx a + vy a * vy a + vz a * vz a in
  if Rlt_dec 0 len then
    let len' := 1 / sqrt len in
    mkVec3 (vx a * len') (vy a * len') (vz a * len')
  else out.

Definition norm2 (a : Vec3) : R := vx a * vx a + vy a * vy a + vz a * vz a.
End Vec3.

Module Quat.
Definition create : Quat := mkQuat 0 0 0 1.

Definition setFromAxisAngle (axis : Vec3) (angle : R) : Quat :=
  let halfAngle := angle / 2 in
  let s := sin halfAngle in
  mkQuat (vx axis * s) (vy axis * s) (vz axis * s) (cos halfAngle).

Definition multiply (a b : Quat) : Quat :=
  let ax := qx a in let ay := qy a in let az := qz a in let aw := qw a in
  let bx := qx b in let by' := qy b in let bz := qz b in let bw := qw b in
  mkQuat (ax * bw + aw * bx + ay * bz - az * by')
         (ay * bw + aw * by' + az * bx - ax * bz)
         (az * bw + aw * bz + ax * by' - ay * bx)
         (aw * bw - ax * bx - ay * by' - az * bz).

Definition setFromEuler (euler : Vec3) : Quat :=
  let x := vx euler in let y := vy euler in let z := vz euler in
  let c1 := cos (x / 2) in
  let c2 := cos (y / 2) in
  let c3 := cos (z / 2) in
  let s1 := sin (x / 2) in
  let s2 := sin (y / 2) in
  let s3 := sin (z / 2) in
  mkQuat (s1 * c2 * c3 + c1 * s2 * s3)
         (c1 * s2 * c3 - s1 * c2 * s3)
         (c1 * c2 * s3 + s1 * s2 * c3)
         (c1 * c2 * c3 - s1 * s2 * s3).
End Quat.

Module Mat4.
Definition create : Mat4 := [1;0;0;0; 0;1;0;0; 0;0;1;0; 0;0;0;1].

(** [a[i]]; reading past the end of a typed array gives [undefined],
    which never happens on the 16-element matrices used here. *)
Definition at_ (a : Mat4) (i : nat) : R := nth i a 0.

Definition compose (position : Vec3) (quaternion : Quat) (scale : Vec3) : Mat4 :=
  let x := qx quaternion in let y := qy quaternion in
  let z := qz quaternion in let w := qw quaternion in
  let x2 := x + x in let y2 := y + y in let z2 := z + z in
  let xx := x * x2 in let xy := x * y2 in let xz := x * z2 in
  let yy := y * y2 in let yz := y * z2 in let zz := z * z2 in
  let wx := w * x2 in let wy := w * y2 in let wz := w * z2 in
  let sx := vx scale in let sy := vy scale in let sz := vz scale in
  [ (1 - (yy + zz)) * sx; (xy + wz) * sx; (xz - wy) * sx; 0;
    (xy - wz) * sy; (1 - (xx + zz)) * sy; (yz + wx) * sy; 0;
    (xz + wy) * sz; (yz - wx) * sz; (1 - (xx + yy)) * sz; 0;
    vx position; vy position; vz position; 1 ].

Definition multiply (a b : Mat4) : Mat4 :=
  let a00 := at_ a 0 in let a01 := at_ a 1 in let a02 := at_ a 2 in let a03 := at_ a 3 in
  let a10 := at_ a 4 in let a11 := at_ a 5 in let a12 := at_ a 6 in let a13 := at_ a 7 in
  let a20 := at_ a 8 in let a21 := at_ a 9 in let a22 := at_ a 10 in let a23 := at_ a 11 in
  let a30 := at_ a 12 in let a31 := at_ a 13 in let a32 := at_ a 14 in let a33 := at_ a 15 in
  let col (b0 b1 b2 b3 : R) : list R :=
    [ b0 * a00 + b1 * a10 + b2 * a20 + b3 * a30;
      b0 * a01 + b1 * a11 + b2 * a21 + b3 * a31;
      b0 * a02 + b1 * a12 + b2 * a22 + b3 * a32;
      b0 * a03 + b1 * a13 + b2 * a23 + b3 * a33 ] in
  col (at_ b 0) (at_ b 1) (at_ b 2) (at_ b 3) ++
  col (at_ b 4) (at_ b 5) (at_ b 6) (at_ b 7) ++
  col (at_ b 8) (at_ b 9) (at_ b 10) (at_ b 11) ++
  col (at_ b 12) (at_ b 13) (at_ b 14) (at_ b 15).

Definition makeTranslation (x y z : R) : Mat4 :=
  [1;0;0;0; 0;1;0;0; 0;0;1;0; x;y;z;1].
End Mat4.

(** ** Worker state *)

Record Dipole := mkDipole {
  life : R;
  maxLife : R;
  maxScale : R;
  axis : Vec3;
  instanceIndex : nat;
  position : Vec3;
  quaternion : Quat
}.

Record Params := mkParams {
  dipoleLifetime : R;
  speed : R;
  creationProbability : R;
  maxScaleBase : R;
  scaleVariance : R;
  spinSpeed : R
}.

(** The payload of [updateParams]: the fields present in the message. *)
Record ParamsUpdate := mkParamsUpdate {
  u_dipoleLifetime : option R;
  u_speed : option R;
  u_creationProbability : option R;
  u_maxScaleBase : option R;
  u_scaleVariance : option R;
  u_spinSpeed : option R
}.

(** [{ ...params, ...data.params }] *)
Definition merge_params (p : Params) (u : ParamsUpdate) : Params :=
  mkParams (default (dipoleLifetime p) (u_dipoleLifetime u))
           (default (speed p) (u_speed u))
           (default (creationProbability p) (u_creationProbability u))
           (default (maxScaleBase p) (u_maxScaleBase u))
           (default (scaleVariance p) (u_scaleVariance u))
           (default (spinSpeed p) (u_spinSpeed u)).

(** An [ArrayBuffer] with its [Float32Array] view: the identity of the data
    block and the floats it holds. *)
Record Buffer := mkBuffer { buf_id : nat; buf_data : list R }.

Definition byteLength (b : Buffer) : nat := (4 * length (buf_data b))%nat.

Inductive Effect :=
| Allocated (id : nat) (floats : nat)
| Wrote (id : nat) (offset : nat) (m : Mat4)
| Posted (red blue : Buffer)
| Returned (red blue : Buffer).

Record Worker := mkWorker {
  dipoles : list Dipole;
  instanceIndices : list nat;
  activeDipoleIndices : list nat;
  maxDipoles : nat;
  params : Params;
  lobeOffset : R;
  redMatricesBuffer : option Buffer;
  blueMatricesBuffer : option Buffer;
  matrixOffsetRed : Mat4;
  matrixOffsetBlue : Mat4;
  lastTimestamp : R;
  simulationRunning : bool;
  (** animation-frame callbacks requested and not yet run *)
  pendingFrames : nat;
  (** identity given to the next allocated data block *)
  nextBufferId : nat;
  effects : list Effect
}.

(** The twelve [Math.random()] values a tick can consume, in call order:
    the spawn trial, then the eleven draws of [createDipole]. *)
Record Draws := mkDraws {
  rSpawn : R; rLife : R; rScale : R;
  rAxisX : R; rAxisY : R; rAxisZ : R;
  rPosX : R; rPosY : R; rPosZ : R;
  rEulerX : R; rEulerY : R; rEulerZ : R
}.

(** ** The monad of the handlers *)

Inductive result (A : Type) :=
| Ok (a : A) (w : Worker)
| Throw (w : Worker).
Arguments Ok {A} a w.
Arguments Throw {A} w.

Definition M (A : Type) : Type := Worker → result A.

Definition state_of {A} (r : result A) : Worker :=
  match r with Ok _ w => w | Throw w => w end.

Definition threw {A} (r : result A) : bool :=
  match r with Ok _ _ => false | Throw _ => true end.

#[global] Instance M_ret : MRet M := λ A a w, Ok a w.
#[global] Instance M_bind : MBind M := λ A B f m w,
  match m w with
  | Ok a w' => f a w'
  | Throw w' => Throw w'
  end.

Definition get : M Worker := λ w, Ok w w.
Definition modify (f : Worker → Worker) : M unit := λ w, Ok tt (f w).
Definition throw {A} : M A := λ w, Throw w.

(** Field updates of the globals. *)
Definition set_pool (ds : list Dipole) (free active : list nat) (w : Worker) : Worker :=
  mkWorker ds free active (maxDipoles w) (params w) (lobeOffset w)
    (redMatricesBuffer w) (blueMatricesBuffer w) (matrixOffsetRed w) (matrixOffsetBlue w)
    (lastTimestamp w) (simulationRunning w) (pendingFrames w) (nextBufferId w) (effects w).

Definition set_dipoles (ds : list Dipole) (w : Worker) : Worker :=
  set_pool ds (instanceIndices w) (activeDipoleIndices w) w.

Definition set_config (n : nat) (p : Params) (off : R) (mr mb : Mat4) (w : Worker) : Worker :=
  mkWorker (dipoles w) (instanceIndices w) (activeDipoleIndices w) n p off
    (redMatricesBuffer w) (blueMatricesBuffer w) mr mb
    (lastTimestamp w) (simulationRunning w) (pendingFrames w) (nextBufferId w) (effects w).

Definition set_buffers (r b : option Buffer) (next : nat) (e : list Effect) (w : Worker) : Worker :=
  mkWorker (dipoles w) (instanceIndices w) (activeDipoleIndices w)
    (maxDipoles w) (params w) (lobeOffset w) r b
    (matrixOffsetRed w) (matrixOffsetBlue w)
    (lastTimestamp w) (simulationRunning w) (pendingFrames w) next e.

Definition set_clock (ts : R) (running : bool) (frames : nat) (w : Worker) : Worker :=
  mkWorker (dipoles w) (instanceIndices w) (activeDipoleIndices w)
    (maxDipoles w) (params w) (lobeOffset w)
    (redMatricesBuffer w) (blueMatricesBuffer w) (matrixOffsetRed w) (matrixOffsetBlue w)
    ts running frames (nextBufferId w) (effects w).

(** ** Arrays *)

(** [Array.prototype.pop]: the last element and the rest. *)
Fixpoint pop {A} (l : list A) : option (A * list A) :=
  match l with
  | [] => None
  | x :: l' =>
      match pop l' with
      | None => Some (x, [])
      | Some (y, r) => Some (y, x :: r)
      end
  end.

(** [target.set(source, offset)] on a typed array: a [RangeError] ([None])
    when the source does not fit. *)
Definition typed_set (target source : list R) (offset : nat) : option (list R) :=
  if decide (offset + length source ≤ length target)%nat
  then Some (take offset target ++ source ++ drop (offset + length source) target)
  else None.

(** [new ArrayBuffer(maxDipoles * 16 * 4)]: zero-filled. *)
Definition zeros (n : nat) : list R := replicate (n * 16) 0.

(** ** Simulation logic *)

Definition with_life (d : Dipole) (l : R) : Dipole :=
  mkDipole l (maxLife d) (maxScale d) (axis d) (instanceIndex d) (position d) (quaternion d).

Definition with_quaternion (d : Dipole) (q : Quat) : Dipole :=
  mkDipole (life d) (maxLife d) (maxScale d) (axis d) (instanceIndex d) (position d) q.

(** [dipoles[i]] is an object mutated in place; the model writes the
    mutated record back at once. *)
Definition store_dipole (i : nat) (d : Dipole) : M unit :=
  modify (λ w, set_dipoles (<[i:=d]> (dipoles w)) w).

(** [redMatrices.set(m, offset)] *)
Definition write_red (m : Mat4) (offset : nat) : M unit := λ w,
  match redMatricesBuffer w with
  | None => Throw w
  | Some rb =>
      match typed_set (buf_data rb) m offset with
      | None => Throw w
      | Some data =>
          Ok tt (set_buffers (Some (mkBuffer (buf_id rb) data)) (blueMatricesBuffer w)
                   (nextBufferId w) (Wrote (buf_id rb) offset m :: effects w) w)
      end
  end.

(** [blueMatrices.set(m, offset)] *)
Definition write_blue (m : Mat4) (offset : nat) : M unit := λ w,
  match blueMatricesBuffer w with
  | None => Throw w
  | Some bb =>
      match typed_set (buf_data bb) m offset with
      | None => Throw w
      | Some data =>
          Ok tt (set_buffers (redMatricesBuffer w) (Some (mkBuffer (buf_id bb) data))
                   (nextBufferId w) (Wrote (buf_id bb) offset m :: effects w) w)
      end
  end.

(** The matrix of one lobe: the base transform times the lobe's offset. *)
Definition lobeMatrix (d : Dipole) (scale : R) (offset : Mat4) : Mat4 :=
  let dummyScale := Vec3.set scale scale scale in
  let dummyMatrix := Mat4.compose (position d) (quaternion d) dummyScale in
  Mat4.multiply dummyMatrix offset.

Definition updateInstanceMatrix (dipole : Dipole) (scale : R) : M unit :=
  w ← get;
  let index := instanceIndex dipole in
  let matrixIndex := (index * 16)%nat in
  write_red (lobeMatrix dipole scale (matrixOffsetRed w)) matrixIndex;;
  write_blue (lobeMatrix dipole scale (matrixOffsetBlue w)) matrixIndex.

Definition createDipole (r : Draws) : M unit :=
  w ← get;
  match pop (instanceIndices w) with
  | None => mret tt
  | Some (instanceIndex, rest) =>
      modify (set_pool (dipoles w) rest (activeDipoleIndices w ++ [instanceIndex]));;
      match dipoles w !! instanceIndex with
      | None => throw
      | Some dipole =>
          let p := params w in
          let life := dipoleLifetime p * (8/10 + rLife r * (4/10)) in
          let maxScale := maxScaleBase p * (1 + (rScale r - 1/2) * 2 * scaleVariance p) in
          let axis := Vec3.normalize (axis dipole)
                        (Vec3.set (rAxisX r - 1/2) (rAxisY r - 1/2) (rAxisZ r - 1/2)) in
          let range := 4 in
          let position := Vec3.set ((rPosX r - 1/2) * range * 2)
                                   ((rPosY r - 1/2) * range * 2)
                                   ((rPosZ r - 1/2) * range * 2) in
          let quaternion := Quat.setFromEuler
                              (Vec3.set (rEulerX r * PI * 2) (rEulerY r * PI * 2)
                                        (rEulerZ r * PI * 2)) in
          let dipole' := mkDipole life life maxScale axis instanceIndex position quaternion in
          store_dipole instanceIndex dipole';;
          updateInstanceMatrix dipole' (1/1000)
      end
  end.

(** [lastTimestamp > 0 ? (timestamp - lastTimestamp) / 1000 : 0.016] *)
Definition deltaTime_of (w : Worker) (timestamp : R) : R :=
  if Rlt_dec 0 (lastTimestamp w) then (timestamp - lastTimestamp w) / 1000 else 16/1000.

(** The spawn decision of a tick. *)
Definition spawn (r : Draws) (deltaTime : R) : M unit :=
  w ← get;
  let createChance := creationProbability (params w) * deltaTime in
  if Rlt_dec (rSpawn r) createChance then
    if decide (0 < length (instanceIndices w))%nat then createDipole r else mret tt
  else mret tt.

(** The envelope: [Math.sin(progress * Math.PI) * maxScale]. *)
Definition progress_of (d : Dipole) : R := (maxLife d - life d) / maxLife d.
Definition scale_of (d : Dipole) : R := sin (progress_of d * PI) * maxScale d.

(** The body of the loop over the active list, at position [i]. *)
Definition step_dipole (deltaTime : R) (i : nat) : M unit :=
  w ← get;
  match activeDipoleIndices w !! i with
  | None => throw
  | Some actualIndex =>
      match dipoles w !! actualIndex with
      | None => throw
      | Some dipole0 =>
          let dipole := with_life dipole0 (life dipole0 - deltaTime * speed (params w)) in
          store_dipole actualIndex dipole;;
          if Rle_dec (life dipole) 0 then
            updateInstanceMatrix dipole 0;;
            modify (λ w, set_pool (dipoles w)
                           (instanceIndices w ++ [instanceIndex dipole])
                           (delete i (activeDipoleIndices w)) w);;
            store_dipole actualIndex (with_life dipole 0)
          else
            let scale := scale_of dipole in
            let rotationAmount := deltaTime * spinSpeed (params w) in
            let rotationDelta := Quat.setFromAxisAngle (axis dipole) rotationAmount in
            let dipole' := with_quaternion dipole
                             (Quat.multiply rotationDelta (quaternion dipole)) in
            store_dipole actualIndex dipole';;
            updateInstanceMatrix dipole' scale
      end
  end.

(** [for (let i = n - 1; i >= 0; i--)], counting the updated instances. *)
Fixpoint advance (deltaTime : R) (n : nat) (updatedInstances : nat) : M nat :=
  match n with
  | O => mret updatedInstances
  | S i => step_dipole deltaTime i;; advance deltaTime i (S updatedInstances)
  end.

(** [new ArrayBuffer(maxDipoles * 16 * 4)] twice, with fresh identities. *)
Definition allocate_pair : M unit :=
  modify (λ w,
    let id := nextBufferId w in
    set_buffers (Some (mkBuffer id (zeros (maxDipoles w))))
                (Some (mkBuffer (S id) (zeros (maxDipoles w))))
                (S (S id))
                (Allocated (S id) (maxDipoles w * 16) :: Allocated id (maxDipoles w * 16)
                   :: effects w) w).

(** [self.postMessage({type: 'matricesUpdate', ...}, [red, blue])]: the pair
    is transferred; transferring nothing, or one block twice, throws. *)
Definition post_matrices : M unit := λ w,
  match redMatricesBuffer w, blueMatricesBuffer w with
  | Some r, Some b =>
      if decide (buf_id r = buf_id b) then Throw w
      else Ok tt (set_buffers (redMatricesBuffer w) (blueMatricesBuffer w) (nextBufferId w)
                    (Posted r b :: effects w) w)
  | _, _ => Throw w
  end.

Definition publish : M unit := post_matrices;; allocate_pair.

Definition requestAnimationFrame : M unit :=
  modify (λ w, set_clock (lastTimestamp w) (simulationRunning w) (S (pendingFrames w)) w).

Definition updateSimulation (timestamp : R) (r : Draws) : M unit :=
  w ← get;
  if negb (simulationRunning w) then mret tt
  else
    let deltaTime := deltaTime_of w timestamp in
    modify (λ w, set_clock timestamp (simulationRunning w) (pendingFrames w) w);;
    spawn r deltaTime;;
    w1 ← get;
    updatedInstances ← advance deltaTime (length (activeDipoleIndices w1)) 0;
    (if decide (0 < updatedInstances)%nat then publish else mret tt);;
    requestAnimationFrame.

(** ** Message handling *)

(** The messages the page sends.  A [returnBuffers] message of the model
    carries two array buffers of whole floats, as the page sends back
    (the buffers it was posted).  A message whose [redMatrices] or
    [blueMatrices] is something else (a buffer whose byte length is not a
    multiple of 4, on which [new Float32Array] throws after the two buffer
    variables have been assigned, or a detached buffer) is outside the
    model. *)
Inductive Message :=
| Init (maxDipoles : nat) (params : Params) (lobeOffset : R)
| Start (now : R)
| Stop
| UpdateParams (u : ParamsUpdate)
| ReturnBuffers (red blue : Buffer)
| Unknown.

Definition fresh_dipole (i : nat) : Dipole :=
  mkDipole 0 0 0 Vec3.create i Vec3.create Quat.create.

Definition onmessage (data : Message) : M unit :=
  match data with
  | Init n p off =>
      modify (set_config n p off
                (Mat4.makeTranslation 0 off 0) (Mat4.makeTranslation 0 (- off) 0));;
      modify (set_pool (fresh_dipole <$> seq 0 n) (seq 0 n) []);;
      allocate_pair;;
      post_matrices;;
      allocate_pair
  | Start now =>
      w ← get;
      if negb (simulationRunning w) then
        modify (set_clock now true (pendingFrames w));;
        requestAnimationFrame
      else mret tt
  | Stop =>
      modify (λ w, set_clock (lastTimestamp w) false (pendingFrames w) w)
  | UpdateParams u =>
      modify (λ w, set_config (maxDipoles w) (merge_params (params w) u) (lobeOffset w)
                     (matrixOffsetRed w) (matrixOffsetBlue w) w)
  | ReturnBuffers red blue =>
      modify (λ w, set_buffers (Some red) (Some blue) (nextBufferId w)
                     (Returned red blue :: effects w) w)
  | Unknown => mret tt
  end.

(** ** Events *)

(** What happens to the worker: a message arrives, or the browser runs an
    animation-frame callback with its timestamp (and the random numbers the
    tick will draw). *)
Inductive Event :=
| Message_ (m : Message)
| Frame (timestamp : R) (r : Draws).

Definition handle (e : Event) : M unit :=
  match e with
  | Message_ m => onmessage m
  | Frame timestamp r => λ w,
      match pendingFrames w with
      | O => Ok tt w
      | S k =>
          updateSimulation timestamp r
            (set_clock (lastTimestamp w) (simulationRunning w) k w)
      end
  end.

(** A handler that throws leaves the globals as they were at the throw. *)
Definition step (e : Event) (w : Worker) : Worker := state_of (handle e w).

Definition run (evs : list Event) (w : Worker) : Worker := foldl (λ w e, step e w) w evs.

(** The globals when the script has been loaded. *)
Definition loaded : Worker :=
  mkWorker [] [] [] 0 (mkParams 0 0 0 0 0 0) 0 None None
    Mat4.create Mat4.create 0 false 0 0 [].

(** * Specification vocabulary *)

(** The contents of a typed array after a [set] that fits. *)
Definition put (data m : list R) (offset : nat) : list R :=
  take offset data ++ m ++ drop (offset + length m) data.

(** The globals after [updateInstanceMatrix] wrote both lobes. *)
Definition written (d : Dipole) (scale : R) (r b : Buffer) (w : Worker) : Worker :=
  let off := (instanceIndex d * 16)%nat in
  let mr := lobeMatrix d scale (matrixOffsetRed w) in
  let mb := lobeMatrix d scale (matrixOffsetBlue w) in
  set_buffers (Some (mkBuffer (buf_id r) (put (buf_data r) mr off)))
              (Some (mkBuffer (buf_id b) (put (buf_data b) mb off)))
              (nextBufferId w)
              (Wrote (buf_id b) off mb :: Wrote (buf_id r) off mr :: effects w) w.

(** The particle [createDipole] initialises in slot [i], whose record was [d0]. *)
Definition spawned (p : Params) (r : Draws) (i : nat) (d0 : Dipole) : Dipole :=
  let l := dipoleLifetime p * (8/10 + rLife r * (4/10)) in
  mkDipole l l
    (maxScaleBase p * (1 + (rScale r - 1/2) * 2 * scaleVariance p))
    (Vec3.normalize (axis d0) (Vec3.set (rAxisX r - 1/2) (rAxisY r - 1/2) (rAxisZ r - 1/2)))
    i
    (Vec3.set ((rPosX r - 1/2) * 4 * 2) ((rPosY r - 1/2) * 4 * 2) ((rPosZ r - 1/2) * 4 * 2))
    (Quat.setFromEuler (Vec3.set (rEulerX r * PI * 2) (rEulerY r * PI * 2) (rEulerZ r * PI * 2))).

(** A particle after the decrement of a tick. *)
Definition aged (dt : R) (p : Params) (d : Dipole) : Dipole :=
  with_life d (life d - dt * speed p).

(** A particle after its turn in the loop of a tick. *)
Definition advanced (dt : R) (p : Params) (d : Dipole) : Dipole :=
  let d1 := aged dt p d in
  if Rle_dec (life d1) 0 then with_life d1 0
  else with_quaternion d1
         (Quat.multiply (Quat.setFromAxisAngle (axis d1) (dt * spinSpeed p)) (quaternion d1)).

(** The scale a tick uses for the transforms of a particle. *)
Definition tick_scale (dt : R) (p : Params) (d : Dipole) : R :=
  let d1 := aged dt p d in
  if Rle_dec (life d1) 0 then 0 else scale_of d1.

(** The current write buffers are [r] and [b], distinct blocks with room
    for every slot. *)
Record bufs_fit (w : Worker) (r b : Buffer) : Prop := mk_bufs_fit {
  fit_red : redMatricesBuffer w = Some r;
  fit_blue : blueMatricesBuffer w = Some b;
  fit_red_len : (maxDipoles w * 16 ≤ length (buf_data r))%nat;
  fit_blue_len : (maxDipoles w * 16 ≤ length (buf_data b))%nat;
  fit_distinct : buf_id r ≠ buf_id b
}.

Definition fits (w : Worker) : Prop := ∃ r b, bufs_fit w r b.

(** The pool: one record per slot, each knowing its index; the free list
    and the active list together hold every slot once; free slots are dead. *)
Record pool_inv (w : Worker) : Prop := mk_pool_inv {
  pi_len : length (dipoles w) = maxDipoles w;
  pi_idx : ∀ i d, dipoles w !! i = Some d → instanceIndex d = i;
  pi_perm : instanceIndices w ++ activeDipoleIndices w ≡ₚ seq 0 (maxDipoles w);
  pi_free : ∀ i d, i ∈ instanceIndices w → dipoles w !! i = Some d → life d = 0
}.

(** Every active particle has life left. *)
Definition alive (w : Worker) : Prop :=
  ∀ i d, i ∈ activeDipoleIndices w → dipoles w !! i = Some d → 0 < life d.

(** The globals after [createDipole] took slot [i] from the free list
    [rest ++ [i]]. *)
Definition created (r : Draws) (i : nat) (rest : list nat) (d0 : Dipole)
    (rb bb : Buffer) (w : Worker) : Worker :=
  let d := spawned (params w) r i d0 in
  written d (1/1000) rb bb
    (set_pool (<[i:=d]> (dipoles w)) rest (activeDipoleIndices w ++ [i]) w).

(** The globals after the loop body ran at position [i] of the active
    list, which holds slot [x] with record [d0]. *)
Definition stepped (dt : R) (i x : nat) (d0 : Dipole) (rb bb : Buffer) (w : Worker) : Worker :=
  let p := params w in
  let d := advanced dt p d0 in
  let w1 := written d (tick_scale dt p d0) rb bb (set_dipoles (<[x:=d]> (dipoles w)) w) in
  if Rle_dec (life (aged dt p d0)) 0 then
    set_pool (dipoles w1) (instanceIndices w ++ [x]) (delete i (activeDipoleIndices w)) w1
  else w1.

(** Slot [k] of the pool [ds] runs out of life in a tick of length [dt]. *)
Definition dies (dt : R) (p : Params) (ds : list Dipole) (k : nat) : Prop :=
  match ds !! k with
  | Some d => life (aged dt p d) <= 0
  | None => False
  end.

#[global] Instance dies_dec dt p ds k : Decision (dies dt p ds k).
Proof. unfold dies. destruct (ds !! k); [apply Rle_dec | right; tauto]. Defined.

(** What the loop writes for slot [k]: into a typed array, and on the trace. *)
Definition paint (dt : R) (p : Params) (ds : list Dipole) (offset : Mat4)
    (k : nat) (data : list R) : list R :=
  match ds !! k with
  | Some d => put data (lobeMatrix (advanced dt p d) (tick_scale dt p d) offset) (k * 16)
  | None => data
  end.

Definition writes_of (dt : R) (p : Params) (ds : list Dipole) (offR offB : Mat4)
    (rid bid : nat) (k : nat) : list Effect :=
  match ds !! k with
  | Some d =>
      [ Wrote bid (k * 16) (lobeMatrix (advanced dt p d) (tick_scale dt p d) offB);
        Wrote rid (k * 16) (lobeMatrix (advanced dt p d) (tick_scale dt p d) offR) ]
  | None => []
  end.

(** The globals [w'] after the loop processed the positions holding [pre]
    (last first) of an active list [pre ++ suf], from globals [w] whose
    records of the slots in [pre] are those of [ds0] and whose write
    buffers are [rb] and [bb]. *)
Record loop_post (dt : R) (ds0 : list Dipole) (pre suf : list nat) (rb bb : Buffer)
    (w w' : Worker) : Prop := mk_loop_post {
  lp_max : maxDipoles w' = maxDipoles w;
  lp_params : params w' = params w;
  lp_lobe : lobeOffset w' = lobeOffset w;
  lp_offr : matrixOffsetRed w' = matrixOffsetRed w;
  lp_offb : matrixOffsetBlue w' = matrixOffsetBlue w;
  lp_ts : lastTimestamp w' = lastTimestamp w;
  lp_run : simulationRunning w' = simulationRunning w;
  lp_frames : pendingFrames w' = pendingFrames w;
  lp_next : nextBufferId w' = nextBufferId w;
  lp_len : length (dipoles w') = length (dipoles w);
  lp_in : ∀ k d, k ∈ pre → ds0 !! k = Some d →
            dipoles w' !! k = Some (advanced dt (params w) d);
  lp_out : ∀ k, k ∉ pre → dipoles w' !! k = dipoles w !! k;
  lp_active : activeDipoleIndices w'
              = filter (λ k, ¬ dies dt (params w) ds0 k) pre ++ suf;
  lp_free : instanceIndices w'
            = instanceIndices w ++ reverse (filter (dies dt (params w) ds0) pre);
  lp_red : redMatricesBuffer w'
           = Some (mkBuffer (buf_id rb)
                     (foldr (paint dt (params w) ds0 (matrixOffsetRed w)) (buf_data rb) pre));
  lp_blue : blueMatricesBuffer w'
            = Some (mkBuffer (buf_id bb)
                      (foldr (paint dt (params w) ds0 (matrixOffsetBlue w)) (buf_data bb) pre));
  lp_effects : effects w'
               = (pre ≫= writes_of dt (params w) ds0 (matrixOffsetRed w) (matrixOffsetBlue w)
                           (buf_id rb) (buf_id bb))
                 ++ effects w
}.

(** The globals after a publish of the pair [r], [b]: the pair is posted
    and a fresh zero-filled pair takes its place. *)
Definition published (r b : Buffer) (w : Worker) : Worker :=
  let id := nextBufferId w in
  set_buffers (Some (mkBuffer id (zeros (maxDipoles w))))
              (Some (mkBuffer (S id) (zeros (maxDipoles w))))
              (S (S id))
              (Allocated (S id) (maxDipoles w * 16) :: Allocated id (maxDipoles w * 16)
                 :: Posted r b :: effects w) w.

(** The globals after [requestAnimationFrame(updateSimulation)]. *)
Definition scheduled (w : Worker) : Worker :=
  set_clock (lastTimestamp w) (simulationRunning w) (S (pendingFrames w)) w.

(** The globals at the start of a tick, once the clock has been read. *)
Definition clocked (timestamp : R) (w : Worker) : Worker :=
  set_clock timestamp (simulationRunning w) (pendingFrames w) w.

(** The globals after an [init] message. *)
Definition initialised (n : nat) (p : Params) (off : R) (w : Worker) : Worker :=
  let id := nextBufferId w in
  mkWorker (fresh_dipole <$> seq 0 n) (seq 0 n) [] n p off
    (Some (mkBuffer (S (S id)) (zeros n))) (Some (mkBuffer (S (S (S id))) (zeros n)))
    (Mat4.makeTranslation 0 off 0) (Mat4.makeTranslation 0 (- off) 0)
    (lastTimestamp w) (simulationRunning w) (pendingFrames w) (S (S (S (S id))))
    (Allocated (S (S (S id))) (n * 16) :: Allocated (S (S id)) (n * 16)
       :: Posted (mkBuffer id (zeros n)) (mkBuffer (S id) (zeros n))
       :: Allocated (S id) (n * 16) :: Allocated id (n * 16) :: effects w).

(** What the consumer may do for the simulation to run with capacity [N]:
    it sends no further [init], and the pairs it returns are two distinct
    blocks with room for [N] matrices each (as the pairs the worker
    allocates are). *)
Definition admissible (N : nat) (e : Event) : Prop :=
  match e with
  | Message_ (Init _ _ _) => False
  | Message_ (ReturnBuffers r b) =>
      (N * 16 ≤ length (buf_data r))%nat ∧ (N * 16 ≤ length (buf_data b))%nat ∧
      buf_id r ≠ buf_id b
  | _ => True
  end.

(** The invariant of the simulation between events. *)
Record sim_inv (N : nat) (w : Worker) : Prop := mk_sim_inv {
  si_cap : maxDipoles w = N;
  si_pool : pool_inv w;
  si_alive : alive w;
  si_fits : fits w
}.

(** The configuration the page sends with [init] (index.html). *)
Definition page_params : Params := mkParams 4 1 400 (1/2) (8/10) (1/2).
Definition page_lobeOffset : R := 15/100 * (6/10).

(** Twelve draws, all equal to [x]. *)
Definition draws_all (x : R) : Draws := mkDraws x x x x x x x x x x x x.

(** A tick of a running simulation from [w], whose write buffers are [rb]
    and [bb]: [wS] are the globals after the spawn decision, [w'] at the
    end of the tick. *)
Record tick_post (ts : R) (r : Draws) (rb bb : Buffer) (w wS w' : Worker) : Prop :=
  mk_tick_post {
  tp_spawn : spawn r (deltaTime_of w ts) (clocked ts w) = Ok tt wS;
  tp_run : updateSimulation ts r w = Ok tt w';
  tp_poolS : pool_inv wS;
  tp_paramsS : params wS = params w;
  tp_effectsS : ∃ new, effects wS = new ++ effects w;
  tp_keep : ∀ k, k ∈ activeDipoleIndices w →
              k ∈ activeDipoleIndices wS ∧ dipoles wS !! k = dipoles w !! k;
  tp_in : ∀ i d, i ∈ activeDipoleIndices wS → dipoles wS !! i = Some d →
            dipoles w' !! i = Some (advanced (deltaTime_of w ts) (params w) d);
  tp_out : ∀ i, i ∉ activeDipoleIndices wS → dipoles w' !! i = dipoles wS !! i;
  tp_active : activeDipoleIndices w'
              = filter (λ k, ¬ dies (deltaTime_of w ts) (params w) (dipoles wS) k)
                  (activeDipoleIndices wS);
  tp_free : instanceIndices w'
            = instanceIndices wS
              ++ reverse (filter (dies (deltaTime_of w ts) (params w) (dipoles wS))
                            (activeDipoleIndices wS));
  tp_effects : ∃ pub new,
      effects w' = pub ++ new ++ effects wS ∧
      (∀ e, e ∈ pub → ∀ id off m, e ≠ Wrote id off m) ∧
      new = activeDipoleIndices wS
            ≫= writes_of (deltaTime_of w ts) (params w) (dipoles wS)
                  (matrixOffsetRed w) (matrixOffsetBlue w) (buf_id rb) (buf_id bb)
}.

(** How often [i] occurs in a list of slots. *)
Definition occurrences (i : nat) (l : list nat) : nat := length (filter (λ j, j = i) l).

(** The [matricesUpdate] messages on a trace. *)
Definition is_post (e : Effect) : bool :=
  match e with Posted _ _ => true | _ => false end.

Definition posts_in (l : list Effect) : nat := length (filter (λ e, is_post e = true) l).

(** A worker that has been initialised with capacity 2 and started. *)
Definition started_worker : Worker :=
  step (Message_ (Start 1000))
    (step (Message_ (Init 2 page_params page_lobeOffset)) loaded).

(** [Math.random()] returns a number in [0, 1). *)
Definition unit_draw (x : R) : Prop := 0 <= x < 1.

Record valid_draws (r : Draws) : Prop := mk_valid_draws {
  vd_spawn : unit_draw (rSpawn r);
  vd_life : unit_draw (rLife r);
  vd_scale : unit_draw (rScale r);
  vd_ax : unit_draw (rAxisX r);
  vd_ay : unit_draw (rAxisY r);
  vd_az : unit_draw (rAxisZ r);
  vd_px : unit_draw (rPosX r);
  vd_py : unit_draw (rPosY r);
  vd_pz : unit_draw (rPosZ r);
  vd_ex : unit_draw (rEulerX r);
  vd_ey : unit_draw (rEulerY r);
  vd_ez : unit_draw (rEulerZ r)
}.

(** The three axis draws all equal one half: the vector given to
    [Vec3.normalize] is the zero vector. *)
Definition axis_draws_centred (r : Draws) : Prop :=
  rAxisX r = 1/2 ∧ rAxisY r = 1/2 ∧ rAxisZ r = 1/2.

(** No active particle has more life left than it was given. *)
Definition aging_inv (w : Worker) : Prop :=
  ∀ i d, i ∈ activeDipoleIndices w → dipoles w !! i = Some d → life d <= maxLife d.

(** The globals when the browser runs a pending animation-frame callback. *)
Definition dequeued (w : Worker) : Worker :=
  set_clock (lastTimestamp w) (simulationRunning w) (pred (pendingFrames w)) w.

(** ** Ownership of the data blocks, read off the trace *)

(** The blocks the consumer holds: posted and not returned since. *)
Fixpoint outstanding (log : list Effect) : list nat :=
  match log with
  | [] => []
  | Posted r b :: older => buf_id r :: buf_id b :: outstanding older
  | Returned r b :: older =>
      filter (λ id, id ≠ buf_id r ∧ id ≠ buf_id b) (outstanding older)
  | _ :: older => outstanding older
  end.

(** The blocks that have ever been posted. *)
Fixpoint transferred (log : list Effect) : list nat :=
  match log with
  | [] => []
  | Posted r b :: older => buf_id r :: buf_id b :: transferred older
  | _ :: older => transferred older
  end.

(** Every block named on the trace. *)
Fixpoint mentioned (log : list Effect) : list nat :=
  match log with
  | [] => []
  | Allocated id _ :: older => id :: mentioned older
  | Wrote id _ _ :: older => id :: mentioned older
  | Posted r b :: older => buf_id r :: buf_id b :: mentioned older
  | Returned r b :: older => buf_id r :: buf_id b :: mentioned older
  end.

(** No write went to a block the consumer held at that time. *)
Fixpoint writes_owned (log : list Effect) : Prop :=
  match log with
  | [] => True
  | Wrote id _ _ :: older => (id ∉ outstanding older) ∧ writes_owned older
  | _ :: older => writes_owned older
  end.

(** No write went to a block that had been posted before. *)
Fixpoint no_write_after_transfer (log : list Effect) : Prop :=
  match log with
  | [] => True
  | Wrote id _ _ :: older => (id ∉ transferred older) ∧ no_write_after_transfer older
  | _ :: older => no_write_after_transfer older
  end.

(** Every post is followed at once by the allocation of two blocks with
    consecutive identities that the trace has not named before. *)
Fixpoint post_then_alloc (log : list Effect) : Prop :=
  match log with
  | [] => True
  | Allocated id2 n2 :: Allocated id1 n1 :: Posted r b :: older =>
      id2 = S id1 ∧ n2 = n1 ∧
      (id1 ∉ mentioned (Posted r b :: older)) ∧ (id2 ∉ mentioned (Posted r b :: older)) ∧
      post_then_alloc older
  | Posted _ _ :: _ => False
  | _ :: older => post_then_alloc older
  end.

(** The consumer returns only blocks it holds. *)
Definition returns_held (w : Worker) (e : Event) : Prop :=
  match e with
  | Message_ (ReturnBuffers r b) =>
      buf_id r ∈ outstanding (effects w) ∧ buf_id b ∈ outstanding (effects w)
  | _ => True
  end.

(** A run of a consumer that sends no further [init] and returns only
    pairs it holds, of two distinct blocks with room for [N] matrices. *)
Fixpoint consumer_ok (N : nat) (w : Worker) (evs : list Event) : Prop :=
  match evs with
  | [] => True
  | e :: evs' => admissible N e ∧ returns_held w e ∧ consumer_ok N (step e w) evs'
  end.

(** The trace [l] consists of writes to the blocks [ids]. *)
Definition writes_to (ids : list nat) (l : list Effect) : Prop :=
  Forall (λ e, ∃ id off m, e = Wrote id off m ∧ id ∈ ids) l.

(** The ownership invariant between events. *)
Record own_inv (N : nat) (w : Worker) : Prop := mk_own_inv {
  oi_bound : ∀ id, id ∈ mentioned (effects w) → (id < nextBufferId w)%nat;
  oi_current : ∀ r b, redMatricesBuffer w = Some r → blueMatricesBuffer w = Some b →
                 (buf_id r ∉ outstanding (effects w)) ∧
                 (buf_id b ∉ outstanding (effects w)) ∧
                 (buf_id r < nextBufferId w)%nat ∧ (buf_id b < nextBufferId w)%nat;
  oi_writes : writes_owned (effects w);
  oi_posts : post_then_alloc (effects w);
  oi_fresh : ∀ id2 n2 rest, effects w = Allocated id2 n2 :: rest →
               ∃ id1 r b older,
                 id2 = S id1 ∧ n2 = (N * 16)%nat ∧
                 rest = Allocated id1 (N * 16) :: Posted r b :: older ∧
                 redMatricesBuffer w = Some (mkBuffer id1 (zeros N)) ∧
                 blueMatricesBuffer w = Some (mkBuffer id2 (zeros N))
}.


(** ** The hidden transform *)

(** The matrix whose three rotation columns are zero and whose last column
    is the position: every vertex of the lobe is mapped to the position. *)
Definition collapsed (position : Vec3) : Mat4 :=
  [ 0; 0; 0; 0;  0; 0; 0; 0;  0; 0; 0; 0;
    vx position; vy position; vz position; 1 ].

(** The offset matrices are the translations that [init] computes from
    [lobeOffset]. *)
Definition offsets_set (w : Worker) : Prop :=
  matrixOffsetRed w = Mat4.makeTranslation 0 (lobeOffset w) 0 ∧
  matrixOffsetBlue w = Mat4.makeTranslation 0 (- lobeOffset w) 0.
(** * Vocabulary for the math kernel *)

(** The numbers of the program are doubles.  The smallest positive normal
    double, and a bound below which a sum of three squares cannot
    overflow. *)
Definition min_normal : R := / 2 ^ 1022.
Definition max_square : R := 2 ^ 1023.

(** The squared length of the vector is a double that has neither
    underflowed nor overflowed: there the test [len > 0] and the square
    root of [Vec3.normalize] are those of the real numbers, up to
    rounding. *)
Definition in_double_range (a : Vec3) : Prop :=
  min_normal <= Vec3.norm2 a <= max_square.

(** The squared length of a quaternion. *)
Definition qnorm2 (q : Quat) : R :=
  qx q * qx q + qy q * qy q + qz q * qz q + qw q * qw q.

Definition dot3 (a b : Vec3) : R := vx a * vx b + vy a * vy b + vz a * vz b.

(** Column [j] of a matrix, without its bottom entry. *)
Definition column (m : Mat4) (j : nat) : Vec3 :=
  mkVec3 (Mat4.at_ m (4 * j)) (Mat4.at_ m (4 * j + 1)) (Mat4.at_ m (4 * j + 2)).

(** The bottom row of a matrix. *)
Definition bottom_row (m : Mat4) : list R :=
  [Mat4.at_ m 3; Mat4.at_ m 7; Mat4.at_ m 11; Mat4.at_ m 15].

(** * Vocabulary for the control messages *)

Definition is_frame (e : Event) : Prop :=
  match e with Frame _ _ => True | Message_ _ => False end.

(** The messages that control the loop and the configuration. *)
Definition is_control (m : Message) : Prop :=
  match m with
  | Start _ | Stop | UpdateParams _ | Unknown => True
  | Init _ _ _ | ReturnBuffers _ _ => False
  end.

(** An update that carries every field, as the page sends it. *)
Definition full_update (p : Params) : ParamsUpdate :=
  mkParamsUpdate (Some (dipoleLifetime p)) (Some (speed p)) (Some (creationProbability p))
    (Some (maxScaleBase p)) (Some (scaleVariance p)) (Some (spinSpeed p)).

Definition empty_update : ParamsUpdate := mkParamsUpdate None None None None None None.

(** The update that has the same effect as [u] followed by [v]: the fields
    of [v], and those of [u] where [v] has none. *)
Definition later_wins {A} (a b : option A) : option A :=
  match b with Some _ => b | None => a end.

Definition compose_updates (u v : ParamsUpdate) : ParamsUpdate :=
  mkParamsUpdate (later_wins (u_dipoleLifetime u) (u_dipoleLifetime v))
                 (later_wins (u_speed u) (u_speed v))
                 (later_wins (u_creationProbability u) (u_creationProbability v))
                 (later_wins (u_maxScaleBase u) (u_maxScaleBase v))
                 (later_wins (u_scaleVariance u) (u_scaleVariance v))
                 (later_wins (u_spinSpeed u) (u_spinSpeed v)).


(** * Vocabulary for runs of frames *)

(** An animation-frame callback with a positive timestamp. *)
Definition timed_frame (e : Event) : Prop :=
  match e with Frame ts _ => 0 < ts | Message_ _ => False end.

(** The timestamp of the last callback of a run that starts at [t0]. *)
Definition last_time (t0 : R) (evs : list Event) : R :=
  foldl (λ t e, match e with Frame ts _ => ts | Message_ _ => t end) t0 evs.

(** * The page (index.html) *)

(** The sliders of the GUI, one per field of [params]. *)
Inductive Field :=
| Lifetime | Speed | CreationRate | BaseMaxSize | SizeVariance | SpinSpeed.

(** A slider stores its value in the page's [params] object. *)
Definition gui_set (f : Field) (x : R) (p : Params) : Params :=
  match f with
  | Lifetime =>
      mkParams x (speed p) (creationProbability p) (maxScaleBase p) (scaleVariance p)
        (spinSpeed p)
  | Speed =>
      mkParams (dipoleLifetime p) x (creationProbability p) (maxScaleBase p)
        (scaleVariance p) (spinSpeed p)
  | CreationRate =>
      mkParams (dipoleLifetime p) (speed p) x (maxScaleBase p) (scaleVariance p)
        (spinSpeed p)
  | BaseMaxSize =>
      mkParams (dipoleLifetime p) (speed p) (creationProbability p) x (scaleVariance p)
        (spinSpeed p)
  | SizeVariance =>
      mkParams (dipoleLifetime p) (speed p) (creationProbability p) (maxScaleBase p) x
        (spinSpeed p)
  | SpinSpeed =>
      mkParams (dipoleLifetime p) (speed p) (creationProbability p) (maxScaleBase p)
        (scaleVariance p) x
  end.

(** The sliders registered with [.onChange(updateWorkerParams)]. *)
Definition notifies (f : Field) : bool :=
  match f with
  | BaseMaxSize | SizeVariance | SpinSpeed => true
  | Lifetime | Speed | CreationRate => false
  end.

(** The messages the page posts to the worker.  [postMessage] clones the
    [params] object, so a message carries its value at the time of the
    post; the buffers of [returnBuffers] are transferred. *)
Inductive Request :=
| ReqInit (maxDipoles : nat) (params : Params) (lobeOffset : R)
| ReqStart
| ReqUpdateParams (params : Params)
| ReqReturnBuffers (red blue : Buffer).

(** The part of the page's state the exchange with the worker touches:
    the [params] object and the instance-matrix arrays of the two meshes
    with their [needsUpdate] flags. *)
Record Page := mkPage {
  gui_params : Params;
  redMesh : list R;
  blueMesh : list R;
  redNeedsUpdate : bool;
  blueNeedsUpdate : bool
}.

Inductive PageResult :=
| PageOk (pg : Page) (reply : Request)
| PageThrow (pg : Page).

(** [dipoleWorker.onmessage] for a [matricesUpdate] message: both arrays
    are copied into the meshes with [set], the meshes are marked, and the
    two buffers go back to the worker. *)
Definition page_onmessage (red blue : Buffer) (pg : Page) : PageResult :=
  match typed_set (redMesh pg) (buf_data red) 0 with
  | None => PageThrow pg
  | Some red_array =>
      let pg1 := mkPage (gui_params pg) red_array (blueMesh pg)
                   (redNeedsUpdate pg) (blueNeedsUpdate pg) in
      match typed_set (blueMesh pg) (buf_data blue) 0 with
      | None => PageThrow pg1
      | Some blue_array =>
          PageOk (mkPage (gui_params pg) red_array blue_array true true)
                 (ReqReturnBuffers red blue)
      end
  end.

(** A slider moved: the value is stored and, for the sliders that have
    it, [updateWorkerParams] posts the whole [params] object. *)
Definition gui_change (f : Field) (x : R) (pg : Page) : Page * list Request :=
  let p := gui_set f x (gui_params pg) in
  (mkPage p (redMesh pg) (blueMesh pg) (redNeedsUpdate pg) (blueNeedsUpdate pg),
   if notifies f then [ReqUpdateParams p] else []).

(** * The page and the worker together *)

(** A request as the worker's handler sees it; [now] is the time a
    [start] reads with [performance.now()]. *)
Definition deliver (q : Request) (now : R) : Message :=
  match q with
  | ReqInit n p off => Init n p off
  | ReqStart => Start now
  | ReqUpdateParams p => UpdateParams (full_update p)
  | ReqReturnBuffers r b => ReturnBuffers r b
  end.

(** The two threads and the messages under way between them, oldest
    first, with the number of handler runs that ended in an exception. *)
Record System := mkSystem {
  sys_worker : Worker;
  sys_page : Page;
  to_worker : list Request;
  to_page : list (Buffer * Buffer);
  sys_errors : nat
}.

Definition posted_pair (e : Effect) : option (Buffer * Buffer) :=
  match e with Posted r b => Some (r, b) | _ => None end.

(** The [matricesUpdate] messages posted since the trace had [n] entries,
    oldest first. *)
Definition posted_since (n : nat) (log : list Effect) : list (Buffer * Buffer) :=
  omap posted_pair (reverse (take (length log - n) log)).

(** The worker runs a handler; what it posts joins the page's queue. *)
Definition worker_runs (e : Event) (s : System) : System :=
  let res := handle e (sys_worker s) in
  mkSystem (state_of res) (sys_page s) (to_worker s)
    (to_page s ++ posted_since (length (effects (sys_worker s))) (effects (state_of res)))
    (if threw res then S (sys_errors s) else sys_errors s).

(** What can happen next: the worker runs an animation-frame callback or
    takes the oldest message of its queue, the page takes the oldest
    message of its queue, or the user moves a slider. *)
Inductive Action :=
| WorkerFrame (timestamp : R) (r : Draws)
| WorkerReceives (now : R)
| PageReceives
| GuiChange (f : Field) (x : R).

Definition sys_step (a : Action) (s : System) : System :=
  match a with
  | WorkerFrame ts r => worker_runs (Frame ts r) s
  | WorkerReceives now =>
      match to_worker s with
      | [] => s
      | q :: rest =>
          worker_runs (Message_ (deliver q now))
            (mkSystem (sys_worker s) (sys_page s) rest (to_page s) (sys_errors s))
      end
  | PageReceives =>
      match to_page s with
      | [] => s
      | (r, b) :: rest =>
          match page_onmessage r b (sys_page s) with
          | PageOk pg q =>
              mkSystem (sys_worker s) pg (to_worker s ++ [q]) rest (sys_errors s)
          | PageThrow pg =>
              mkSystem (sys_worker s) pg (to_worker s) rest (S (sys_errors s))
          end
      end
  | GuiChange f x =>
      let '(pg, qs) := gui_change f x (sys_page s) in
      mkSystem (sys_worker s) pg (to_worker s ++ qs) (to_page s) (sys_errors s)
  end.

Definition sys_run (acts : list Action) (s : System) : System :=
  foldl (λ s a, sys_step a s) s acts.

(** The system when the page's [init()] has run: the worker's script is
    loaded, and [init] and [start] are on their way to it.  The meshes
    have been created with the arrays [red_array] and [blue_array]. *)
Definition booted (n : nat) (p : Params) (off : R) (red_array blue_array : list R) : System :=
  mkSystem loaded (mkPage p red_array blue_array false false)
    [ReqInit n p off; ReqStart] [] 0.

(** The configuration the worker has once it has taken every message of
    its queue. *)
Definition request_params (p : Params) (q : Request) : Params :=
  match q with
  | ReqInit _ p' _ | ReqUpdateParams p' => p'
  | _ => p
  end.

Definition settled_params (s : System) : Params :=
  foldl request_params (params (sys_worker s)) (to_worker s).

(** The page's [params] after a run, and their value at the last post to
    the worker. *)
Definition gui_track (acts : list Action) (p : Params) : Params * Params :=
  foldl (λ '(gui, sent) a,
           match a with
           | GuiChange f x =>
               let gui' := gui_set f x gui in
               (gui', if notifies f then gui' else sent)
           | _ => (gui, sent)
           end) (p, p) acts.

(** A pair of distinct blocks of exactly [n] matrices each. *)
Definition exact_pair (n : nat) (rb : Buffer * Buffer) : Prop :=
  length (buf_data rb.1) = (n * 16)%nat ∧ length (buf_data rb.2) = (n * 16)%nat ∧
  buf_id rb.1 ≠ buf_id rb.2.

Definition exact_request (n : nat) (q : Request) : Prop :=
  match q with
  | ReqInit _ _ _ => False
  | ReqReturnBuffers r b => exact_pair n (r, b)
  | _ => True
  end.

(** The worker holds a pair of exactly [n] matrices per block. *)
Definition holds_exact (n : nat) (w : Worker) : Prop :=
  ∃ r b, bufs_fit w r b ∧ exact_pair n (r, b).

(** The invariant of the exchange for an [init] with capacity [n]: before
    the worker has taken [init] it is as loaded and [init] heads its queue;
    afterwards it satisfies the invariant of the simulation, with buffers of
    exactly [n] matrices.  Every pair under way has exactly [n] matrices
    per block. *)
Record flow_inv (n : nat) (s : System) : Prop := mk_flow_inv {
  fi_to_page : Forall (exact_pair n) (to_page s);
  fi_worker :
    (sys_worker s = loaded ∧ to_page s = [] ∧
     ∃ p off rest, to_worker s = ReqInit n p off :: rest ∧ Forall (exact_request n) rest) ∨
    (sim_inv n (sys_worker s) ∧ holds_exact n (sys_worker s) ∧
     Forall (exact_request n) (to_worker s))
}.

(** The invariant of the two threads for a page whose meshes hold [n]
    instances: no handler has thrown, and the mesh arrays have [n]
    matrices. *)
Record sys_inv (n : nat) (s : System) : Prop := mk_sys_inv {
  yi_flow : flow_inv n s;
  yi_errors : sys_errors s = 0%nat;
  yi_red : length (redMesh (sys_page s)) = (n * 16)%nat;
  yi_blue : length (blueMesh (sys_page s)) = (n * 16)%nat
}.

(** A run in which no slider that notifies the worker moves. *)
Definition silent (a : Action) : Prop :=
  match a with GuiChange f _ => notifies f = false | _ => True end.

(** * Vocabulary for a worker that has not been initialised *)

(** The events considered before [init]: the messages [start], [stop],
    [updateParams] and those of unknown type, and the animation-frame
    callbacks.  ([returnBuffers] is left out: what it does depends on the
    objects that the message carries.) *)
Definition before_init (e : Event) : Prop :=
  match e with
  | Message_ (Init _ _ _) => False
  | Message_ (ReturnBuffers _ _) => False
  | _ => True
  end.

(** The pool is empty, there are no buffers, and nothing has been
    allocated, written, posted or received. *)
Record idle (w : Worker) : Prop := mk_idle {
  idle_dipoles : dipoles w = [];
  idle_free : instanceIndices w = [];
  idle_active : activeDipoleIndices w = [];
  idle_cap : maxDipoles w = 0%nat;
  idle_next : nextBufferId w = 0%nat;
  idle_red : redMatricesBuffer w = None;
  idle_blue : blueMatricesBuffer w = None;
  idle_effects : effects w = []
}.

(** * Vocabulary for the rotations of the particles *)



(** * Where the data blocks are *)

Definition pair_ids (rb : Buffer * Buffer) : list nat := [buf_id rb.1; buf_id rb.2].

Definition request_ids (q : Request) : list nat :=
  match q with ReqReturnBuffers r b => [buf_id r; buf_id b] | _ => [] end.

Definition buffer_ids (o : option Buffer) : list nat :=
  match o with Some b => [buf_id b] | None => [] end.

(** The blocks the worker writes into. *)
Definition worker_ids (w : Worker) : list nat :=
  buffer_ids (redMatricesBuffer w) ++ buffer_ids (blueMatricesBuffer w).

(** The blocks under way: posted by the worker and not yet taken by the
    page, or sent back by the page and not yet taken by the worker. *)
Definition away (s : System) : list nat :=
  (to_page s ≫= pair_ids) ++ (to_worker s ≫= request_ids).

(** Every block is in one place: the worker's pair and the pairs under
    way have distinct identities, all handed out by the worker's
    allocator; the blocks that are posted and not returned on the
    worker's trace are those under way; and no write went to a block
    that was posted and not returned at that time. *)
Record own_sys (s : System) : Prop := mk_own_sys {
  os_nodup : NoDup (worker_ids (sys_worker s) ++ away s);
  os_bound : ∀ id, id ∈ worker_ids (sys_worker s) ++ away s →
                   (id < nextBufferId (sys_worker s))%nat;
  os_out : outstanding (effects (sys_worker s)) ≡ₚ away s;
  os_writes : writes_owned (effects (sys_worker s))
}.
(** * Verification *)

#[local] Arguments IZR : simpl never.

(** ** Arrays *)

Lemma pop_None {A} (l : list A) : pop l = None ↔ l = [].
Proof.
  destruct l as [|x l]; simpl; [done|].
  destruct (pop l) as [[y r]|]; split; intros; discriminate.
Qed.

Lemma pop_Some {A} (l : list A) x r : pop l = Some (x, r) ↔ l = r ++ [x].
Proof.
  revert x r. induction l as [|a l IH]; intros x r; simpl.
  - split; [discriminate|]. intros H. by destruct r.
  - destruct (pop l) as [[y r']|] eqn:E.
    + pose proof (proj1 (IH y r') eq_refl) as ->. split.
      * intros [= <- <-]. done.
      * destruct r as [|b r]; simpl.
        { intros [= -> H]. by destruct r'. }
        intros [= -> H]. apply app_inj_tail in H. destruct H as [-> ->]. done.
    + apply pop_None in E as ->. split.
      * intros [= <- <-]. done.
      * destruct r as [|b r]; simpl.
        { by intros [= ->]. }
        intros [= -> H]. by destruct r.
Qed.

Lemma typed_set_Some target source offset :
  (offset + length source ≤ length target)%nat →
  typed_set target source offset
  = Some (take offset target ++ source ++ drop (offset + length source) target).
Proof. intros H. unfold typed_set. by rewrite decide_True. Qed.

Lemma typed_set_length target source offset data :
  typed_set target source offset = Some data → length data = length target.
Proof.
  unfold typed_set. case_decide; [|done]. intros [= <-].
  rewrite !length_app, length_take, length_drop. lia.
Qed.

Lemma multiply_length a b : length (Mat4.multiply a b) = 16%nat.
Proof. reflexivity. Qed.

Lemma lobeMatrix_length d s off : length (lobeMatrix d s off) = 16%nat.
Proof. reflexivity. Qed.

(** ** Writing the transforms *)

Lemma write_red_eq m off w r :
  redMatricesBuffer w = Some r →
  (off + length m ≤ length (buf_data r))%nat →
  write_red m off w
  = Ok tt (set_buffers (Some (mkBuffer (buf_id r) (put (buf_data r) m off)))
             (blueMatricesBuffer w) (nextBufferId w)
             (Wrote (buf_id r) off m :: effects w) w).
Proof. intros Hr Hl. unfold write_red. by rewrite Hr, typed_set_Some. Qed.

Lemma write_blue_eq m off w b :
  blueMatricesBuffer w = Some b →
  (off + length m ≤ length (buf_data b))%nat →
  write_blue m off w
  = Ok tt (set_buffers (redMatricesBuffer w)
             (Some (mkBuffer (buf_id b) (put (buf_data b) m off))) (nextBufferId w)
             (Wrote (buf_id b) off m :: effects w) w).
Proof. intros Hb Hl. unfold write_blue. by rewrite Hb, typed_set_Some. Qed.

Lemma updateInstanceMatrix_eq d scale w r b :
  bufs_fit w r b →
  (instanceIndex d < maxDipoles w)%nat →
  updateInstanceMatrix d scale w = Ok tt (written d scale r b w).
Proof.
  intros [Hr Hb Hrl Hbl _] Hi.
  unfold updateInstanceMatrix, mbind, M_bind, get.
  rewrite (write_red_eq _ _ _ r) by (rewrite ?lobeMatrix_length; lia || done).
  rewrite (write_blue_eq _ _ _ b) by (simpl; rewrite ?lobeMatrix_length; lia || done).
  reflexivity.
Qed.

Lemma put_length data m off :
  (off + length m ≤ length data)%nat → length (put data m off) = length data.
Proof. intros. unfold put. rewrite !length_app, length_take, length_drop. lia. Qed.

Lemma written_fit d scale r b w :
  bufs_fit w r b → (instanceIndex d < maxDipoles w)%nat →
  bufs_fit (written d scale r b w)
    (mkBuffer (buf_id r) (put (buf_data r) (lobeMatrix d scale (matrixOffsetRed w))
                            (instanceIndex d * 16)))
    (mkBuffer (buf_id b) (put (buf_data b) (lobeMatrix d scale (matrixOffsetBlue w))
                            (instanceIndex d * 16))).
Proof.
  intros [Hr Hb Hrl Hbl Hd] Hi.
  split; simpl; try done; rewrite put_length; rewrite ?lobeMatrix_length; lia.
Qed.

(** ** [createDipole] and the loop body in closed form *)

Lemma createDipole_eq r w i rest d0 rb bb :
  instanceIndices w = rest ++ [i] →
  dipoles w !! i = Some d0 →
  bufs_fit w rb bb →
  (i < maxDipoles w)%nat →
  createDipole r w = Ok tt (created r i rest d0 rb bb w).
Proof.
  intros Hfree Hd Hfit Hi.
  unfold createDipole, mbind, M_bind, get.
  apply pop_Some in Hfree. rewrite Hfree. simpl. rewrite Hd.
  unfold store_dipole, modify. simpl.
  erewrite updateInstanceMatrix_eq; [reflexivity| |simpl; exact Hi].
  destruct Hfit. by split.
Qed.

Lemma createDipole_empty r w :
  instanceIndices w = [] → createDipole r w = Ok tt w.
Proof.
  intros H. unfold createDipole, mbind, M_bind, get.
  apply pop_None in H. by rewrite H.
Qed.

Lemma step_dipole_eq dt i x d0 rb bb w :
  activeDipoleIndices w !! i = Some x →
  dipoles w !! x = Some d0 →
  instanceIndex d0 = x →
  bufs_fit w rb bb →
  (x < maxDipoles w)%nat →
  step_dipole dt i w = Ok tt (stepped dt i x d0 rb bb w).
Proof.
  intros Ha Hd Hx Hfit Hi.
  unfold step_dipole, stepped, advanced, tick_scale, mbind, M_bind, get.
  rewrite Ha, Hd. unfold store_dipole, modify. simpl.
  destruct (Rle_dec (life d0 - dt * speed (params w)) 0) as [Hle|Hgt].
  - erewrite updateInstanceMatrix_eq; [|destruct Hfit; by split|simpl; lia].
    simpl. unfold written. simpl. rewrite !list_insert_insert_eq, Hx. reflexivity.
  - erewrite updateInstanceMatrix_eq; [|destruct Hfit; by split|simpl; lia].
    simpl. unfold written. simpl. rewrite !list_insert_insert_eq. reflexivity.
Qed.

Lemma advanced_index dt p d : instanceIndex (advanced dt p d) = instanceIndex d.
Proof. unfold advanced. by destruct (Rle_dec _ _). Qed.

Section stepped.
Context (dt : R) (i x : nat) (d0 : Dipole) (rb bb : Buffer) (w : Worker).
Context (Hx : instanceIndex d0 = x).
Let w1 := stepped dt i x d0 rb bb w.

Lemma stepped_config :
  maxDipoles w1 = maxDipoles w ∧ params w1 = params w ∧ lobeOffset w1 = lobeOffset w ∧
  matrixOffsetRed w1 = matrixOffsetRed w ∧ matrixOffsetBlue w1 = matrixOffsetBlue w ∧
  lastTimestamp w1 = lastTimestamp w ∧ simulationRunning w1 = simulationRunning w ∧
  pendingFrames w1 = pendingFrames w ∧ nextBufferId w1 = nextBufferId w.
Proof. unfold w1, stepped. by destruct (Rle_dec _ _). Qed.

Lemma stepped_dipoles :
  dipoles w1 = <[x:=advanced dt (params w) d0]> (dipoles w).
Proof. unfold w1, stepped. by destruct (Rle_dec _ _). Qed.

Lemma stepped_active_dies :
  life (aged dt (params w) d0) <= 0 →
  activeDipoleIndices w1 = delete i (activeDipoleIndices w) ∧
  instanceIndices w1 = instanceIndices w ++ [x].
Proof. unfold w1, stepped. intros H. by destruct (Rle_dec _ _). Qed.

Lemma stepped_active_survives :
  ¬ life (aged dt (params w) d0) <= 0 →
  activeDipoleIndices w1 = activeDipoleIndices w ∧
  instanceIndices w1 = instanceIndices w.
Proof. unfold w1, stepped. intros H. by destruct (Rle_dec _ _). Qed.

Lemma stepped_red :
  redMatricesBuffer w1
  = Some (mkBuffer (buf_id rb)
            (put (buf_data rb)
               (lobeMatrix (advanced dt (params w) d0) (tick_scale dt (params w) d0)
                  (matrixOffsetRed w)) (x * 16))).
Proof.
  unfold w1, stepped. destruct (Rle_dec _ _); simpl; by rewrite advanced_index, Hx.
Qed.

Lemma stepped_blue :
  blueMatricesBuffer w1
  = Some (mkBuffer (buf_id bb)
            (put (buf_data bb)
               (lobeMatrix (advanced dt (params w) d0) (tick_scale dt (params w) d0)
                  (matrixOffsetBlue w)) (x * 16))).
Proof.
  unfold w1, stepped. destruct (Rle_dec _ _); simpl; by rewrite advanced_index, Hx.
Qed.

Lemma stepped_effects :
  effects w1
  = Wrote (buf_id bb) (x * 16)
      (lobeMatrix (advanced dt (params w) d0) (tick_scale dt (params w) d0)
         (matrixOffsetBlue w))
    :: Wrote (buf_id rb) (x * 16)
         (lobeMatrix (advanced dt (params w) d0) (tick_scale dt (params w) d0)
            (matrixOffsetRed w))
    :: effects w.
Proof.
  unfold w1, stepped. destruct (Rle_dec _ _); simpl; by rewrite advanced_index, Hx.
Qed.
End stepped.

Lemma stepped_fit dt i x d0 rb bb w :
  instanceIndex d0 = x → bufs_fit w rb bb → (x < maxDipoles w)%nat →
  bufs_fit (stepped dt i x d0 rb bb w)
    (mkBuffer (buf_id rb)
       (put (buf_data rb)
          (lobeMatrix (advanced dt (params w) d0) (tick_scale dt (params w) d0)
             (matrixOffsetRed w)) (x * 16)))
    (mkBuffer (buf_id bb)
       (put (buf_data bb)
          (lobeMatrix (advanced dt (params w) d0) (tick_scale dt (params w) d0)
             (matrixOffsetBlue w)) (x * 16))).
Proof.
  intros Hx [Hr Hb Hrl Hbl Hd] Hi.
  destruct (stepped_config dt i x d0 rb bb w) as (Hm & _).
  split; rewrite ?Hm; simpl.
  - by apply stepped_red.
  - by apply stepped_blue.
  - rewrite put_length; rewrite ?lobeMatrix_length; lia.
  - rewrite put_length; rewrite ?lobeMatrix_length; lia.
  - done.
Qed.

(** ** The loop over the active list *)

Lemma advance_spec dt ds0 pre : ∀ suf w u rb bb,
  activeDipoleIndices w = pre ++ suf →
  NoDup pre →
  (∀ k, k ∈ pre → dipoles w !! k = ds0 !! k) →
  (∀ k, k ∈ pre → ∃ d, ds0 !! k = Some d ∧ instanceIndex d = k ∧ (k < maxDipoles w)%nat) →
  bufs_fit w rb bb →
  ∃ w', advance dt (length pre) u w = Ok (u + length pre)%nat w' ∧
        loop_post dt ds0 pre suf rb bb w w'.
Proof.
  induction pre as [|x pre' IH] using rev_ind; intros suf w u rb bb Hact Hnd Hagree Hvalid Hfit.
  - exists w. split.
    { simpl. by rewrite Nat.add_0_r. }
    destruct Hfit as [Hr Hb _ _ _]. destruct rb, bb.
    split; simpl; try done.
    + intros k d Hk. by apply elem_of_nil in Hk.
    + by rewrite app_nil_r.
  - rewrite length_app. simpl.
    replace (length pre' + 1)%nat with (S (length pre')) by lia.
    replace (u + S (length pre'))%nat with (S u + length pre')%nat by lia.
    simpl.
    destruct (Hvalid x) as (d0 & Hd0 & Hidx & Hlt).
    { apply elem_of_app. right. apply list_elem_of_singleton. done. }
    assert (activeDipoleIndices w !! length pre' = Some x) as Hlook.
    { rewrite Hact, <- app_assoc. by apply list_lookup_middle. }
    assert (dipoles w !! x = Some d0) as Hdx.
    { rewrite Hagree; [done|]. apply elem_of_app. right. by apply list_elem_of_singleton. }
    unfold mbind, M_bind.
    rewrite (step_dipole_eq dt _ x d0 rb bb) by done.
    pose proof (stepped_fit dt (length pre') x d0 rb bb w Hidx Hfit Hlt) as Hfit1.
    pose proof (stepped_dipoles dt (length pre') x d0 rb bb w) as Hds1.
    pose proof (stepped_effects dt (length pre') x d0 rb bb w Hidx) as Heff1.
    destruct (stepped_config dt (length pre') x d0 rb bb w)
      as (Hm & Hp & Hlo & Hor & Hob & Hts & Hrun & Hpf & Hnx).
    simpl in Hds1, Heff1.
    apply NoDup_app in Hnd as (Hnd' & Hnin & _).
    assert (x ∉ pre') as Hxpre.
    { intros Hin. apply (Hnin x Hin). by apply list_elem_of_singleton. }
    assert (∀ k, k ∈ pre' → dipoles (stepped dt (length pre') x d0 rb bb w) !! k = ds0 !! k)
      as Hagree1.
    { intros k Hk. rewrite Hds1, list_lookup_insert_ne by (intros ->; done).
      apply Hagree. apply elem_of_app. by left. }
    assert (∀ k, k ∈ pre' → ∃ d, ds0 !! k = Some d ∧ instanceIndex d = k ∧
              (k < maxDipoles (stepped dt (length pre') x d0 rb bb w))%nat) as Hvalid1.
    { intros k Hk. rewrite Hm. apply Hvalid. apply elem_of_app. by left. }
    destruct (Rle_dec (life (aged dt (params w) d0)) 0) as [Hdies|Hsurv].
    + destruct (stepped_active_dies dt (length pre') x d0 rb bb w Hdies) as [Ha1 Hf1].
      simpl in Ha1, Hf1.
      assert (activeDipoleIndices (stepped dt (length pre') x d0 rb bb w) = pre' ++ suf)
        as Hact1.
      { rewrite Ha1, Hact, <- app_assoc. simpl. apply delete_middle. }
      destruct (IH _ _ (S u) _ _ Hact1 Hnd' Hagree1 Hvalid1 Hfit1) as (w' & Hgo & Hpost).
      exists w'. split; [exact Hgo|].
      destruct Hpost. rewrite ?Hp, ?Hor, ?Hob in *. simpl in *.
      split; try congruence.
      * rewrite lp_len0, Hds1. by rewrite length_insert.
      * intros k d Hk Hkd. apply elem_of_app in Hk as [Hk|Hk].
        { by apply lp_in0. }
        apply list_elem_of_singleton in Hk as ->.
        rewrite lp_out0 by done. rewrite Hds1.
        rewrite list_lookup_insert_eq by (by apply lookup_lt_Some in Hdx).
        congruence.
      * intros k Hk. rewrite lp_out0 by (intros ?; apply Hk, elem_of_app; by left).
        rewrite Hds1. apply list_lookup_insert_ne. intros ->. apply Hk, elem_of_app.
        right. by apply list_elem_of_singleton.
      * rewrite lp_active0, filter_app.
        rewrite (filter_cons_False _ x []); [by rewrite filter_nil, app_nil_r|].
        unfold dies. rewrite Hd0. tauto.
      * rewrite lp_free0, Hf1, filter_app, reverse_app.
        rewrite (filter_cons_True _ x []) by (unfold dies; by rewrite Hd0).
        rewrite filter_nil. simpl. by rewrite <- app_assoc.
      * rewrite lp_red0, foldr_app. simpl. unfold paint at 3. by rewrite Hd0.
      * rewrite lp_blue0, foldr_app. simpl. unfold paint at 3. by rewrite Hd0.
      * rewrite lp_effects0, Heff1, bind_app. simpl. rewrite app_nil_r.
        unfold writes_of at 3. rewrite Hd0. by rewrite <- app_assoc.
    + destruct (stepped_active_survives dt (length pre') x d0 rb bb w Hsurv) as [Ha1 Hf1].
      simpl in Ha1, Hf1.
      assert (activeDipoleIndices (stepped dt (length pre') x d0 rb bb w)
              = pre' ++ x :: suf) as Hact1.
      { rewrite Ha1, Hact, <- app_assoc. done. }
      destruct (IH _ _ (S u) _ _ Hact1 Hnd' Hagree1 Hvalid1 Hfit1) as (w' & Hgo & Hpost).
      exists w'. split; [exact Hgo|].
      destruct Hpost. rewrite ?Hp, ?Hor, ?Hob in *. simpl in *.
      split; try congruence.
      * rewrite lp_len0, Hds1. by rewrite length_insert.
      * intros k d Hk Hkd. apply elem_of_app in Hk as [Hk|Hk].
        { by apply lp_in0. }
        apply list_elem_of_singleton in Hk as ->.
        rewrite lp_out0 by done. rewrite Hds1.
        rewrite list_lookup_insert_eq by (by apply lookup_lt_Some in Hdx).
        congruence.
      * intros k Hk. rewrite lp_out0 by (intros ?; apply Hk, elem_of_app; by left).
        rewrite Hds1. apply list_lookup_insert_ne. intros ->. apply Hk, elem_of_app.
        right. by apply list_elem_of_singleton.
      * rewrite lp_active0, filter_app.
        rewrite (filter_cons_True _ x []) by (unfold dies; by rewrite Hd0).
        rewrite filter_nil. by rewrite <- app_assoc.
      * rewrite lp_free0, Hf1, filter_app.
        rewrite (filter_cons_False _ x []) by (unfold dies; by rewrite Hd0).
        by rewrite filter_nil, app_nil_r.
      * rewrite lp_red0, foldr_app. simpl. unfold paint at 3. by rewrite Hd0.
      * rewrite lp_blue0, foldr_app. simpl. unfold paint at 3. by rewrite Hd0.
      * rewrite lp_effects0, Heff1, bind_app. simpl. rewrite app_nil_r.
        unfold writes_of at 3. rewrite Hd0. by rewrite <- app_assoc.
Qed.

(** ** The pool invariant *)

Lemma pool_inv_ext w w' :
  dipoles w' = dipoles w → instanceIndices w' = instanceIndices w →
  activeDipoleIndices w' = activeDipoleIndices w → maxDipoles w' = maxDipoles w →
  pool_inv w → pool_inv w'.
Proof.
  intros Hd Hf Ha Hm [H1 H2 H3 H4].
  split; rewrite ?Hd, ?Hf, ?Ha, ?Hm; done.
Qed.

Lemma pool_inv_NoDup w :
  pool_inv w → NoDup (instanceIndices w ++ activeDipoleIndices w).
Proof. intros [_ _ Hp _]. rewrite Hp. apply NoDup_seq. Qed.

Lemma pool_inv_bound w k :
  pool_inv w → k ∈ instanceIndices w ++ activeDipoleIndices w → (k < maxDipoles w)%nat.
Proof.
  intros [_ _ Hp _] Hk. rewrite Hp in Hk. apply elem_of_seq in Hk. lia.
Qed.

Lemma pool_inv_lookup w k :
  pool_inv w → (k < maxDipoles w)%nat →
  ∃ d, dipoles w !! k = Some d ∧ instanceIndex d = k.
Proof.
  intros Hinv Hk. destruct (lookup_lt_is_Some_2 (dipoles w) k) as [d Hd].
  { by rewrite (pi_len _ Hinv). }
  exists d. split; [done|]. by eapply pi_idx.
Qed.

Lemma created_pool_inv r i rest d0 rb bb w :
  pool_inv w → instanceIndices w = rest ++ [i] →
  pool_inv (created r i rest d0 rb bb w).
Proof.
  intros Hinv Hfree. pose proof (pool_inv_NoDup _ Hinv) as Hnd.
  destruct Hinv as [Hlen Hidx Hperm Hfr].
  rewrite Hfree in Hnd, Hperm.
  split; simpl.
  - by rewrite length_insert.
  - intros k d Hk. destruct (decide (k = i)) as [->|Hne].
    + apply list_lookup_insert_Some in Hk as [(_ & <- & _)|(? & _)]; done.
    + rewrite list_lookup_insert_ne in Hk by done. by eapply Hidx.
  - rewrite <- Hperm. rewrite <- !app_assoc. apply Permutation_app_head.
    apply Permutation_app_comm.
  - intros k d Hk Hd.
    assert (k ≠ i) as Hne.
    { intros ->. rewrite <- app_assoc in Hnd. apply NoDup_app in Hnd as (_ & Hnin & _).
      apply (Hnin i Hk). apply elem_of_app. left. by apply list_elem_of_singleton. }
    rewrite list_lookup_insert_ne in Hd by done.
    apply (Hfr k d); [|done]. rewrite Hfree. apply elem_of_app. by left.
Qed.

Lemma created_fit r i rest d0 rb bb w :
  bufs_fit w rb bb → (i < maxDipoles w)%nat →
  ∃ rb' bb', bufs_fit (created r i rest d0 rb bb w) rb' bb' ∧
             buf_id rb' = buf_id rb ∧ buf_id bb' = buf_id bb.
Proof.
  intros Hfit Hi.
  set (d := spawned (params w) r i d0).
  assert (bufs_fit (set_pool (<[i:=d]> (dipoles w)) rest (activeDipoleIndices w ++ [i]) w)
            rb bb) as Hfit'.
  { destruct Hfit. by split. }
  eexists _, _. split; [apply (written_fit d (1/1000) rb bb _ Hfit'); exact Hi|].
  split; reflexivity.
Qed.

(** ** The spawn decision *)

Lemma spawn_skip r dt w :
  ¬ rSpawn r < creationProbability (params w) * dt ∨ instanceIndices w = [] →
  spawn r dt w = Ok tt w.
Proof.
  intros H. unfold spawn, mbind, M_bind, get.
  destruct (Rlt_dec _ _) as [Hlt|]; [|done].
  destruct H as [H|H]; [done|]. rewrite H. case_decide; [simpl in *; lia|done].
Qed.

Lemma spawn_create r dt w i rest d0 rb bb :
  rSpawn r < creationProbability (params w) * dt →
  instanceIndices w = rest ++ [i] →
  dipoles w !! i = Some d0 →
  bufs_fit w rb bb →
  (i < maxDipoles w)%nat →
  spawn r dt w = Ok tt (created r i rest d0 rb bb w).
Proof.
  intros Hlt Hfree Hd Hfit Hi. unfold spawn, mbind, M_bind, get.
  destruct (Rlt_dec _ _); [|done].
  rewrite decide_True by (rewrite Hfree, length_app; simpl; lia).
  by apply createDipole_eq.
Qed.

(** The two outcomes of the spawn decision on a well-formed pool. *)
Lemma spawn_cases r dt w rb bb :
  pool_inv w → bufs_fit w rb bb →
  (spawn r dt w = Ok tt w ∧
   (¬ rSpawn r < creationProbability (params w) * dt ∨ instanceIndices w = [])) ∨
  (∃ i rest d0,
     rSpawn r < creationProbability (params w) * dt ∧
     instanceIndices w = rest ++ [i] ∧ dipoles w !! i = Some d0 ∧
     instanceIndex d0 = i ∧ (i < maxDipoles w)%nat ∧
     spawn r dt w = Ok tt (created r i rest d0 rb bb w)).
Proof.
  intros Hinv Hfit.
  destruct (Rlt_dec (rSpawn r) (creationProbability (params w) * dt)) as [Hlt|Hge].
  - destruct (instanceIndices w) as [|a l] eqn:Hfree using rev_ind.
    + left. split; [|by right]. apply spawn_skip. by right.
    + clear IHl. right.
      assert (a < maxDipoles w)%nat as Hi.
      { apply (pool_inv_bound w a Hinv). rewrite Hfree.
        apply elem_of_app. left. apply elem_of_app. right. by apply list_elem_of_singleton. }
      destruct (pool_inv_lookup w a Hinv Hi) as (d0 & Hd0 & Hx).
      exists a, l, d0. repeat split; try done.
      by apply spawn_create.
  - left. split; [|by left]. apply spawn_skip. by left.
Qed.

(** ** A whole tick *)

Lemma advanced_life_dies dt p d :
  life (aged dt p d) <= 0 → life (advanced dt p d) = 0.
Proof. intros H. unfold advanced. by destruct (Rle_dec _ _). Qed.

Lemma advanced_life_survives dt p d :
  ¬ life (aged dt p d) <= 0 → life (advanced dt p d) = life d - dt * speed p.
Proof. intros H. unfold advanced. by destruct (Rle_dec _ _). Qed.

Lemma loop_pool_inv dt rb bb w w' :
  pool_inv w →
  loop_post dt (dipoles w) (activeDipoleIndices w) [] rb bb w w' →
  pool_inv w' ∧ alive w'.
Proof.
  intros Hinv Hpost. pose proof (pool_inv_NoDup _ Hinv) as Hnd.
  destruct Hpost. rewrite app_nil_r in lp_active0.
  assert (∀ k d', dipoles w' !! k = Some d' →
            (k ∈ activeDipoleIndices w ∧
             (∃ d, dipoles w !! k = Some d ∧ d' = advanced dt (params w) d)) ∨
            ((k ∉ activeDipoleIndices w) ∧ dipoles w !! k = Some d')) as Hcase.
  { intros k d' Hk. destruct (decide (k ∈ activeDipoleIndices w)) as [Hin|Hout].
    - left. split; [done|].
      destruct (pool_inv_lookup w k Hinv) as (d & Hd & _).
      { apply (pool_inv_bound w k Hinv), elem_of_app. by right. }
      exists d. split; [done|]. rewrite (lp_in0 k d Hin Hd) in Hk. congruence.
    - right. split; [done|]. by rewrite <- lp_out0. }
  split; [split|].
  - rewrite lp_len0, lp_max0. apply Hinv.
  - intros k d' Hk. destruct (Hcase k d' Hk) as [(_ & d & Hd & ->)|(_ & Hd)].
    + rewrite advanced_index. by eapply pi_idx.
    + by eapply pi_idx.
  - rewrite lp_free0, lp_active0, lp_max0, <- (pi_perm _ Hinv), <- app_assoc.
    apply Permutation_app_head. rewrite reverse_Permutation.
    apply filter_app_complement.
  - intros k d' Hk Hd'. rewrite lp_free0 in Hk.
    apply elem_of_app in Hk as [Hk|Hk].
    + destruct (Hcase k d' Hd') as [(Hin & _)|(_ & Hd)].
      * apply NoDup_app in Hnd as (_ & Hnin & _). by destruct (Hnin k Hk).
      * by eapply pi_free.
    + apply elem_of_reverse, list_elem_of_filter in Hk as [Hdies Hin].
      destruct (Hcase k d' Hd') as [(_ & d & Hd & ->)|(Hout & _)]; [|done].
      unfold dies in Hdies. rewrite Hd in Hdies. by apply advanced_life_dies.
  - intros k d' Hk Hd'. rewrite lp_active0 in Hk.
    apply list_elem_of_filter in Hk as [Hsurv Hin].
    destruct (Hcase k d' Hd') as [(_ & d & Hd & ->)|(Hout & _)]; [|done].
    unfold dies in Hsurv. rewrite Hd in Hsurv.
    rewrite advanced_life_survives by done. simpl in Hsurv. lra.
Qed.

Lemma post_matrices_eq w r b :
  redMatricesBuffer w = Some r → blueMatricesBuffer w = Some b → buf_id r ≠ buf_id b →
  post_matrices w
  = Ok tt (set_buffers (Some r) (Some b) (nextBufferId w) (Posted r b :: effects w) w).
Proof.
  intros Hr Hb Hne. unfold post_matrices. rewrite Hr, Hb. by rewrite decide_False.
Qed.

Lemma publish_eq w r b :
  redMatricesBuffer w = Some r → blueMatricesBuffer w = Some b → buf_id r ≠ buf_id b →
  publish w = Ok tt (published r b w).
Proof.
  intros Hr Hb Hne. unfold publish, mbind, M_bind.
  by rewrite (post_matrices_eq w r b).
Qed.

Lemma clocked_pool_inv ts w : pool_inv w → pool_inv (clocked ts w).
Proof. by apply pool_inv_ext. Qed.

Lemma clocked_fit ts w rb bb : bufs_fit w rb bb → bufs_fit (clocked ts w) rb bb.
Proof. intros []. by split. Qed.

(** A tick of a running simulation, decomposed: the spawn decision gives
    [wS], the loop gives [wL], and a publish happens when the active list
    of [wS] is not empty. *)
Lemma updateSimulation_spec ts r w rb bb :
  simulationRunning w = true → pool_inv w → bufs_fit w rb bb →
  ∃ wS wL rbS bbS rL bL,
    spawn r (deltaTime_of w ts) (clocked ts w) = Ok tt wS ∧
    pool_inv wS ∧ bufs_fit wS rbS bbS ∧
    buf_id rbS = buf_id rb ∧ buf_id bbS = buf_id bb ∧
    loop_post (deltaTime_of w ts) (dipoles wS) (activeDipoleIndices wS) []
      rbS bbS wS wL ∧
    redMatricesBuffer wL = Some rL ∧ blueMatricesBuffer wL = Some bL ∧
    buf_id rL = buf_id rb ∧ buf_id bL = buf_id bb ∧
    updateSimulation ts r w
    = Ok tt (scheduled (if decide (activeDipoleIndices wS = []) then wL
                        else published rL bL wL)).
Proof.
  intros Hrun Hinv Hfit.
  pose proof (clocked_pool_inv ts w Hinv) as Hinv0.
  pose proof (clocked_fit ts w rb bb Hfit) as Hfit0.
  assert (∃ wS rbS bbS,
            spawn r (deltaTime_of w ts) (clocked ts w) = Ok tt wS ∧ pool_inv wS ∧
            bufs_fit wS rbS bbS ∧ buf_id rbS = buf_id rb ∧ buf_id bbS = buf_id bb)
    as (wS & rbS & bbS & Hspawn & HinvS & HfitS & Hidr & Hidb).
  { destruct (spawn_cases r (deltaTime_of w ts) (clocked ts w) rb bb Hinv0 Hfit0)
      as [[Heq _]|(i & rest & d0 & _ & Hfree & Hd0 & _ & Hi & Heq)].
    - by exists (clocked ts w), rb, bb.
    - destruct (created_fit r i rest d0 rb bb (clocked ts w) Hfit0 Hi)
        as (rb' & bb' & Hfit' & ? & ?).
      exists (created r i rest d0 rb bb (clocked ts w)), rb', bb'.
      split; [done|]. split; [by apply created_pool_inv|]. done. }
  pose proof (pool_inv_NoDup _ HinvS) as Hnd.
  apply NoDup_app in Hnd as (_ & _ & Hnd).
  destruct (advance_spec (deltaTime_of w ts) (dipoles wS) (activeDipoleIndices wS)
              [] wS 0%nat rbS bbS) as (wL & Hloop & Hpost); try done.
  { by rewrite app_nil_r. }
  { intros k Hk.
    assert (k < maxDipoles wS)%nat as Hlt.
    { apply (pool_inv_bound wS k HinvS), elem_of_app. by right. }
    destruct (pool_inv_lookup wS k HinvS Hlt) as (d & Hd & Hx). by exists d. }
  exists wS, wL, rbS, bbS. eexists _, _.
  split; [exact Hspawn|]. do 5 (split; [done|]).
  split; [apply (lp_red _ _ _ _ _ _ _ _ Hpost)|].
  split; [apply (lp_blue _ _ _ _ _ _ _ _ Hpost)|].
  split; [done|]. split; [done|].
  unfold updateSimulation, mbind, M_bind, get. rewrite Hrun. simpl.
  unfold modify. fold (clocked ts w). rewrite Hspawn. rewrite Hloop. simpl.
  destruct (activeDipoleIndices wS) as [|a l] eqn:Hact.
  - simpl. done.
  - rewrite decide_True by (simpl; lia). rewrite decide_False by done.
    unfold mbind, M_bind.
    erewrite publish_eq;
      [ | apply (lp_red _ _ _ _ _ _ _ _ Hpost) | apply (lp_blue _ _ _ _ _ _ _ _ Hpost)
        | simpl; rewrite Hidr, Hidb; apply Hfit ].
    reflexivity.
Qed.

(** ** Messages *)

Lemma init_eq n p off w :
  onmessage (Init n p off) w = Ok tt (initialised n p off w).
Proof.
  unfold onmessage, mbind, M_bind, modify, allocate_pair, post_matrices. simpl.
  rewrite decide_False by lia. reflexivity.
Qed.

Lemma zeros_length n : length (zeros n) = (n * 16)%nat.
Proof. unfold zeros. by rewrite length_replicate. Qed.

Lemma initialised_inv n p off w : sim_inv n (initialised n p off w).
Proof.
  split; [done|split|..].
  - simpl. by rewrite length_fmap, length_seq.
  - simpl. intros i d Hd. rewrite list_lookup_fmap in Hd.
    destruct (seq 0 n !! i) as [j|] eqn:Hj; [|done].
    apply lookup_seq in Hj as [-> _]. simpl in Hd. by injection Hd as <-.
  - simpl. by rewrite app_nil_r.
  - simpl. intros i d _ Hd. rewrite list_lookup_fmap in Hd.
    destruct (seq 0 n !! i) as [j|]; [|done]. simpl in Hd. by injection Hd as <-.
  - intros i d Hi. simpl in Hi. by apply elem_of_nil in Hi.
  - exists (mkBuffer (S (S (nextBufferId w))) (zeros n)),
           (mkBuffer (S (S (S (nextBufferId w)))) (zeros n)).
    split; simpl; rewrite ?zeros_length; (done || lia).
Qed.

(** ** Events preserve the invariant *)

Lemma sim_inv_ext N w w' :
  dipoles w' = dipoles w → instanceIndices w' = instanceIndices w →
  activeDipoleIndices w' = activeDipoleIndices w → maxDipoles w' = maxDipoles w →
  redMatricesBuffer w' = redMatricesBuffer w →
  blueMatricesBuffer w' = blueMatricesBuffer w →
  sim_inv N w → sim_inv N w'.
Proof.
  intros Hd Hf Ha Hm Hr Hb [Hc Hp Hal (r & b & Hfit)]. split.
  - by rewrite Hm.
  - by apply (pool_inv_ext w).
  - unfold alive. by rewrite Ha, Hd.
  - exists r, b. destruct Hfit. split; rewrite ?Hr, ?Hb, ?Hm; done.
Qed.

Lemma published_inv N r b w :
  pool_inv w → alive w → maxDipoles w = N → sim_inv N (published r b w).
Proof.
  intros Hp Hal Hm. split; [done|by apply (pool_inv_ext w)|done|].
  exists (mkBuffer (nextBufferId w) (zeros (maxDipoles w))),
         (mkBuffer (S (nextBufferId w)) (zeros (maxDipoles w))).
  split; simpl; rewrite ?zeros_length; (done || lia).
Qed.

Lemma tick_inv N ts r w :
  simulationRunning w = true → sim_inv N w →
  ∃ w', updateSimulation ts r w = Ok tt w' ∧ sim_inv N w'.
Proof.
  intros Hrun [Hc Hp Hal (rb & bb & Hfit)].
  destruct (updateSimulation_spec ts r w rb bb Hrun Hp Hfit)
    as (wS & wL & rbS & bbS & rL & bL & Hspawn & HinvS & HfitS & Hidr & Hidb
        & Hpost & HrL & HbL & _ & _ & Heq).
  eexists. split; [exact Heq|].
  destruct (loop_pool_inv _ _ _ _ _ HinvS Hpost) as [HpL HalL].
  assert (maxDipoles wL = N) as HmL.
  { rewrite (lp_max _ _ _ _ _ _ _ _ Hpost).
    destruct (spawn_cases r (deltaTime_of w ts) (clocked ts w) rb bb)
      as [[Heq' _]|(i & rest & d0 & _ & _ & _ & _ & _ & Heq')];
      [by apply clocked_pool_inv|by apply clocked_fit|..];
      rewrite Heq' in Hspawn; injection Hspawn as <-; done. }
  assert (sim_inv N (if decide (activeDipoleIndices wS = []) then wL
                     else published rL bL wL)) as Hinv.
  { case_decide.
    - split; try done. exists rL, bL.
      pose proof (lp_max _ _ _ _ _ _ _ _ Hpost) as Hmax.
      destruct HfitS as [_ _ Hl1 Hl2 Hne].
      pose proof (lp_red _ _ _ _ _ _ _ _ Hpost) as Hr'.
      pose proof (lp_blue _ _ _ _ _ _ _ _ Hpost) as Hb'.
      rewrite H in Hr', Hb'. simpl in Hr', Hb'.
      rewrite HrL in Hr'. rewrite HbL in Hb'.
      injection Hr' as ->. injection Hb' as ->.
      split; simpl; rewrite ?Hmax; done.
    - by apply published_inv. }
  revert Hinv. by apply sim_inv_ext.
Qed.

Lemma step_inv N e w :
  sim_inv N w → admissible N e → sim_inv N (step e w).
Proof.
  intros Hinv Hadm. unfold step.
  destruct e as [[n p off|now| |u|r b|]|ts r]; simpl in *.
  - done.
  - unfold mbind, M_bind, get. destruct (simulationRunning w); simpl; [done|].
    revert Hinv. by apply sim_inv_ext.
  - revert Hinv. by apply sim_inv_ext.
  - revert Hinv. by apply sim_inv_ext.
  - destruct Hinv as [Hc Hp Hal _]. destruct Hadm as (Hl1 & Hl2 & Hne).
    split; [done|by apply (pool_inv_ext w)|done|].
    exists r, b. split; simpl; try done; by rewrite Hc.
  - done.
  - destruct (pendingFrames w) as [|k] eqn:Hk; [done|].
    set (w1 := set_clock (lastTimestamp w) (simulationRunning w) k w).
    assert (sim_inv N w1) as Hinv1 by (revert Hinv; by apply sim_inv_ext).
    destruct (simulationRunning w) eqn:Hrun.
    + destruct (tick_inv N ts r w1) as (w' & Heq & Hinv'); [done|done|].
      by rewrite Heq.
    + unfold updateSimulation, mbind, M_bind, get. simpl. exact Hinv1.
Qed.

Lemma run_inv N evs : ∀ w,
  sim_inv N w → Forall (admissible N) evs → sim_inv N (run evs w).
Proof.
  induction evs as [|e evs IH]; intros w Hinv Hall; [done|].
  apply Forall_cons in Hall as [He Hall]. simpl. apply IH; [|done].
  by apply step_inv.
Qed.

Lemma spawn_frame r dt w wS rb bb :
  pool_inv w → bufs_fit w rb bb → spawn r dt w = Ok tt wS →
  params wS = params w ∧ maxDipoles wS = maxDipoles w ∧
  matrixOffsetRed wS = matrixOffsetRed w ∧ matrixOffsetBlue wS = matrixOffsetBlue w ∧
  (∃ new, effects wS = new ++ effects w) ∧
  (∀ k, k ∈ activeDipoleIndices w →
        k ∈ activeDipoleIndices wS ∧ dipoles wS !! k = dipoles w !! k).
Proof.
  intros Hinv Hfit Hspawn.
  destruct (spawn_cases r dt w rb bb Hinv Hfit)
    as [[Heq _]|(i & rest & d0 & _ & Hfree & _ & _ & _ & Heq)];
    rewrite Heq in Hspawn; injection Hspawn as <-.
  - repeat split; try done. by exists [].
  - repeat split; try done.
    + by eexists [_; _].
    + simpl. apply elem_of_app. by left.
    + simpl. apply list_lookup_insert_ne. intros ->.
      pose proof (pool_inv_NoDup _ Hinv) as Hnd. rewrite Hfree in Hnd.
      apply NoDup_app in Hnd as (_ & Hnin & _). apply (Hnin k); [|done].
      apply elem_of_app. right. by apply list_elem_of_singleton.
Qed.

Lemma tick_spec N ts r w rb bb :
  sim_inv N w → simulationRunning w = true → bufs_fit w rb bb →
  ∃ wS w', tick_post ts r rb bb w wS w' ∧ sim_inv N w'.
Proof.
  intros Hinv Hrun Hfit.
  destruct (tick_inv N ts r w Hrun Hinv) as (w'' & Heq'' & Hinv'').
  destruct Hinv as [Hc Hp Hal _].
  destruct (updateSimulation_spec ts r w rb bb Hrun Hp Hfit)
    as (wS & wL & rbS & bbS & rL & bL & Hspawn & HinvS & HfitS & Hidr & Hidb
        & Hpost & HrL & HbL & _ & _ & Heq).
  destruct (spawn_frame r _ _ wS rb bb (clocked_pool_inv ts w Hp)
              (clocked_fit ts w rb bb Hfit) Hspawn)
    as (HpS & HmS & HorS & HobS & HeS & HactS).
  simpl in HpS, HmS, HorS, HobS, HeS.
  exists wS, w''. split; [|done].
  rewrite Heq in Heq''. injection Heq'' as <-.
  destruct Hpost. rewrite app_nil_r in lp_active0.
  rewrite HpS, ?HorS, ?HobS, ?Hidr, ?Hidb in *.
  split; try done.
  - intros i d Hi Hd. case_decide; simpl; by apply lp_in0.
  - intros i Hi. case_decide; simpl; by apply lp_out0.
  - by case_decide.
  - by case_decide.
  - case_decide.
    + eexists [], _. simpl. split; [exact lp_effects0|]. split; [|done].
      intros e He. by apply elem_of_nil in He.
    + eexists [_; _; _], _. simpl. split; [by rewrite lp_effects0|]. split; [|done].
      intros e He id off m ->.
      repeat (apply elem_of_cons in He as [He|He]; [done|]).
      by apply elem_of_nil in He.
Qed.

Lemma tick_config N ts r w w' :
  sim_inv N w → simulationRunning w = true →
  updateSimulation ts r w = Ok tt w' →
  lastTimestamp w' = ts ∧ simulationRunning w' = true ∧ params w' = params w ∧
  maxDipoles w' = maxDipoles w ∧ pendingFrames w' = S (pendingFrames w) ∧
  lobeOffset w' = lobeOffset w ∧
  matrixOffsetRed w' = matrixOffsetRed w ∧ matrixOffsetBlue w' = matrixOffsetBlue w.
Proof.
  intros [Hc Hp Hal (rb & bb & Hfit)] Hrun Hgo.
  destruct (updateSimulation_spec ts r w rb bb Hrun Hp Hfit)
    as (wS & wL & rbS & bbS & rL & bL & Hspawn & HinvS & HfitS & Hidr & Hidb
        & Hpost & HrL & HbL & _ & _ & Heq).
  rewrite Heq in Hgo. injection Hgo as <-.
  assert (lastTimestamp wS = ts ∧ simulationRunning wS = true ∧ params wS = params w ∧
          maxDipoles wS = maxDipoles w ∧ pendingFrames wS = pendingFrames w ∧
          lobeOffset wS = lobeOffset w ∧
          matrixOffsetRed wS = matrixOffsetRed w ∧
          matrixOffsetBlue wS = matrixOffsetBlue w) as (H1 & H2 & H3 & H4 & H5 & H6 & H7 & H8).
  { destruct (spawn_cases r (deltaTime_of w ts) (clocked ts w) rb bb
                (clocked_pool_inv ts w Hp) (clocked_fit ts w rb bb Hfit))
      as [[HeqS _]|(i & rest & d0 & _ & _ & _ & _ & _ & HeqS)];
      rewrite HeqS in Hspawn; injection Hspawn as <-; by simpl. }
  destruct Hpost. case_decide; simpl; repeat split; congruence.
Qed.

Lemma step_frame ts r w w' :
  (0 < pendingFrames w)%nat →
  updateSimulation ts r (dequeued w) = Ok tt w' →
  step (Frame ts r) w = w'.
Proof.
  intros Hk Hgo. unfold step, handle, dequeued in *.
  destruct (pendingFrames w) as [|k]; [lia|]. simpl in Hgo. by rewrite Hgo.
Qed.

Lemma dequeued_inv N w : sim_inv N w → sim_inv N (dequeued w).
Proof. by apply sim_inv_ext. Qed.

(** ** The trace of a tick *)

Lemma writes_to_app ids l1 l2 : writes_to ids l1 → writes_to ids l2 → writes_to ids (l1 ++ l2).
Proof. apply Forall_app_2. Qed.

Lemma writes_to_loop dt p ds offR offB rid bid l :
  writes_to [rid; bid] (l ≫= writes_of dt p ds offR offB rid bid).
Proof.
  induction l as [|k l IH]; [by apply Forall_nil|].
  change ((k :: l) ≫= writes_of dt p ds offR offB rid bid)
    with (writes_of dt p ds offR offB rid bid k
          ++ (l ≫= writes_of dt p ds offR offB rid bid)).
  apply writes_to_app; [|done]. unfold writes_of. destruct (ds !! k); [|by apply Forall_nil].
  apply Forall_cons_2; [|apply Forall_cons_2; [|by apply Forall_nil]].
  - eexists _, _, _. split; [done|]. right. left.
  - eexists _, _, _. split; [done|]. left.
Qed.

(** A tick either writes nothing and leaves trace and buffers alone, or
    writes to the current pair only, posts it, and makes a fresh zero-filled
    pair the write buffers. *)
Lemma tick_log N ts r w rb bb :
  sim_inv N w → simulationRunning w = true → bufs_fit w rb bb →
  ∃ w' ws,
    updateSimulation ts r w = Ok tt w' ∧
    writes_to [buf_id rb; buf_id bb] ws ∧
    ((ws = [] ∧ effects w' = effects w ∧
      redMatricesBuffer w' = redMatricesBuffer w ∧
      blueMatricesBuffer w' = blueMatricesBuffer w ∧
      nextBufferId w' = nextBufferId w) ∨
     (∃ rL bL,
        effects w' = Allocated (S (nextBufferId w)) (N * 16)
                     :: Allocated (nextBufferId w) (N * 16)
                     :: Posted rL bL :: ws ++ effects w ∧
        buf_id rL = buf_id rb ∧ buf_id bL = buf_id bb ∧
        redMatricesBuffer w' = Some (mkBuffer (nextBufferId w) (zeros N)) ∧
        blueMatricesBuffer w' = Some (mkBuffer (S (nextBufferId w)) (zeros N)) ∧
        nextBufferId w' = S (S (nextBufferId w)))).
Proof.
  intros [Hc Hp Hal _] Hrun Hfit.
  destruct (updateSimulation_spec ts r w rb bb Hrun Hp Hfit)
    as (wS & wL & rbS & bbS & rL & bL & Hspawn & HinvS & HfitS & Hidr & Hidb
        & Hpost & HrL & HbL & HidrL & HidbL & Heq).
  pose proof (clocked_pool_inv ts w Hp) as Hp0.
  pose proof (clocked_fit ts w rb bb Hfit) as Hfit0.
  destruct Hpost. rewrite Hidr, Hidb in lp_effects0.
  pose proof (writes_to_loop (deltaTime_of w ts) (params wS) (dipoles wS)
                (matrixOffsetRed wS) (matrixOffsetBlue wS) (buf_id rb) (buf_id bb)
                (activeDipoleIndices wS)) as Hloop.
  destruct (spawn_cases r (deltaTime_of w ts) (clocked ts w) rb bb Hp0 Hfit0)
    as [[HeqS _]|(i & rest & d0 & _ & Hfree & _ & _ & _ & HeqS)];
    rewrite HeqS in Hspawn; injection Hspawn as <-.
  - destruct (decide (activeDipoleIndices (clocked ts w) = [])) as [Hnil|Hne].
    + exists (scheduled wL), []. split; [done|]. split; [by apply Forall_nil|]. left.
      rewrite Hnil in *. simpl in *.
      destruct HfitS as [HrS HbS _ _ _]. simpl in HrS, HbS.
      split; [done|]. split; [done|].
      rewrite lp_red0, lp_blue0, HrS, HbS. by destruct rbS, bbS.
    + eexists _, _. split; [exact Heq|]. split; [exact Hloop|]. right.
      exists rL, bL. simpl in *.
      rewrite lp_effects0, lp_next0, lp_max0, Hc. done.
  - assert (activeDipoleIndices (created r i rest d0 rb bb (clocked ts w)) ≠ []) as Hne.
    { simpl. intros Hnil. by apply app_eq_nil in Hnil as [_ ?]. }
    rewrite decide_False in Heq by done.
    eexists _, (_ ++ [_; _]). split; [exact Heq|].
    split.
    { apply writes_to_app; [exact Hloop|].
      apply Forall_cons_2; [|apply Forall_cons_2; [|by apply Forall_nil]].
      - eexists _, _, _. split; [done|]. right. left.
      - eexists _, _, _. split; [done|]. left. }
    right. exists rL, bL. simpl in *.
    rewrite lp_effects0, lp_next0, lp_max0, Hc, <- app_assoc. done.
Qed.

Lemma dequeued_active w : activeDipoleIndices (dequeued w) = activeDipoleIndices w.
Proof. reflexivity. Qed.

Lemma dequeued_dipoles w : dipoles (dequeued w) = dipoles w.
Proof. reflexivity. Qed.

(** ** The contents of the write buffers *)

Lemma put_lookup_outside data m off j :
  ¬ (off ≤ j < off + length m)%nat → (off + length m ≤ length data)%nat →
  put data m off !! j = data !! j.
Proof.
  intros Hout Hfit. unfold put.
  destruct (decide (j < off)%nat) as [Hlt|Hge].
  - rewrite lookup_app_l by (rewrite length_take; lia). by apply lookup_take_lt.
  - rewrite lookup_app_r by (rewrite length_take; lia).
    rewrite length_take_le by lia.
    rewrite lookup_app_r by lia. rewrite lookup_drop. f_equal. lia.
Qed.

Lemma paint_outside dt p ds off k data j :
  ¬ (k * 16 ≤ j < k * 16 + 16)%nat → (k * 16 + 16 ≤ length data)%nat →
  paint dt p ds off k data !! j = data !! j ∧
  length (paint dt p ds off k data) = length data.
Proof.
  intros Hout Hfit. unfold paint. destruct (ds !! k) as [d|]; [|done]. split.
  - apply put_lookup_outside; rewrite lobeMatrix_length; done.
  - apply put_length. by rewrite lobeMatrix_length.
Qed.

Lemma foldr_paint_outside dt p ds off l data j :
  (∀ k, k ∈ l → ¬ (k * 16 ≤ j < k * 16 + 16)%nat ∧ (k * 16 + 16 ≤ length data)%nat) →
  foldr (paint dt p ds off) data l !! j = data !! j ∧
  length (foldr (paint dt p ds off) data l) = length data.
Proof.
  induction l as [|k l IH]; intros Hall; [done|]. simpl.
  destruct IH as [IH1 IH2]. { intros k' Hk'. apply Hall. by right. }
  destruct (Hall k) as [Hout Hfit]; [left|].
  destruct (paint_outside dt p ds off k (foldr (paint dt p ds off) data l) j)
    as [H1 H2]; [done|by rewrite IH2|].
  split; [by rewrite H1|by rewrite H2].
Qed.

Lemma foldr_paint_length dt p ds off l data :
  (∀ k, k ∈ l → (k * 16 + 16 ≤ length data)%nat) →
  length (foldr (paint dt p ds off) data l) = length data.
Proof.
  induction l as [|k l IH]; intros Hall; [done|]. simpl.
  assert (length (foldr (paint dt p ds off) data l) = length data) as IH'.
  { apply IH. intros k' Hk'. apply Hall. by right. }
  unfold paint at 1. destruct (ds !! k) as [d|]; [|done].
  rewrite put_length; [done|]. rewrite lobeMatrix_length, IH'. apply Hall. left.
Qed.

Lemma put_lookup_inside data m off k :
  (off + length m ≤ length data)%nat → (k < length m)%nat →
  put data m off !! (off + k)%nat = m !! k.
Proof.
  intros Hfit Hk. unfold put.
  rewrite lookup_app_r by (rewrite length_take; lia).
  rewrite length_take_le by lia.
  replace (off + k - off)%nat with k by lia.
  by rewrite lookup_app_l.
Qed.

Lemma foldr_paint_inside dt p ds off l data k d j :
  NoDup l → k ∈ l → ds !! k = Some d →
  (∀ k', k' ∈ l → (k' * 16 + 16 ≤ length data)%nat) → (j < 16)%nat →
  foldr (paint dt p ds off) data l !! (k * 16 + j)%nat
  = lobeMatrix (advanced dt p d) (tick_scale dt p d) off !! j.
Proof.
  intros Hnd Hk Hd Hroom Hj. induction l as [|a l IH]; [by apply elem_of_nil in Hk|].
  apply NoDup_cons in Hnd as [Ha Hnd]. simpl.
  assert (length (foldr (paint dt p ds off) data l) = length data) as Hlen.
  { apply foldr_paint_length. intros k' Hk'. apply Hroom. by right. }
  destruct (decide (a = k)) as [->|Hne].
  - unfold paint at 1. rewrite Hd.
    apply put_lookup_inside; rewrite lobeMatrix_length; [|done].
    rewrite Hlen. apply Hroom. left.
  - apply elem_of_cons in Hk as [->|Hk]; [done|].
    destruct (paint_outside dt p ds off a (foldr (paint dt p ds off) data l) (k * 16 + j))
      as [-> _].
    + lia.
    + rewrite Hlen. apply Hroom. left.
    + apply IH; [done|done|]. intros k' Hk'. apply Hroom. by right.
Qed.

(** ** The transforms of a tick on the trace *)

Lemma lobeMatrix_dies dt p d off :
  life d - dt * speed p <= 0 →
  lobeMatrix (advanced dt p d) (tick_scale dt p d) off = lobeMatrix d 0 off.
Proof.
  intros H. unfold advanced, tick_scale. simpl. by destruct (Rle_dec _ _).
Qed.

Lemma written_in_tick dt p ds offR offB rid bid l i d :
  i ∈ l → ds !! i = Some d →
  Wrote rid (i * 16) (lobeMatrix (advanced dt p d) (tick_scale dt p d) offR)
    ∈ l ≫= writes_of dt p ds offR offB rid bid ∧
  Wrote bid (i * 16) (lobeMatrix (advanced dt p d) (tick_scale dt p d) offB)
    ∈ l ≫= writes_of dt p ds offR offB rid bid.
Proof.
  intros Hi Hd. split; apply list_elem_of_bind; exists i; (split; [|done]);
    unfold writes_of; rewrite Hd.
  - apply elem_of_cons. right. apply elem_of_cons. by left.
  - apply elem_of_cons. by left.
Qed.

(** ** The started worker and its first tick *)

Lemma started_worker_inv : sim_inv 2 started_worker.
Proof.
  unfold started_worker. apply step_inv; [|done].
  unfold step, handle. rewrite init_eq. apply initialised_inv.
Qed.

Lemma started_worker_dt ts : deltaTime_of started_worker ts = (ts - 1000) / 1000.
Proof.
  unfold deltaTime_of. simpl. destruct (Rlt_dec 0 1000) as [|Hn]; [done|].
  exfalso. apply Hn. lra.
Qed.

Lemma advanced_maxLife dt p d : maxLife (advanced dt p d) = maxLife d.
Proof. unfold advanced. by destruct (Rle_dec _ _). Qed.

Lemma advanced_maxScale dt p d : maxScale (advanced dt p d) = maxScale d.
Proof. unfold advanced. by destruct (Rle_dec _ _). Qed.

Lemma lobeMatrix_survives dt p d off :
  ¬ life d - dt * speed p <= 0 →
  lobeMatrix (advanced dt p d) (tick_scale dt p d) off
  = lobeMatrix (advanced dt p d) (scale_of (aged dt p d)) off.
Proof.
  intros H. unfold tick_scale. simpl. by destruct (Rle_dec _ _).
Qed.

(** The started worker, one tick later: the tick at 1016 ms, with all draws
    0, spawned a particle in slot 1 with 3.2 s of life, and aged it by
    16 ms. *)
Lemma first_tick :
  let w1 := step (Frame 1016 (draws_all 0)) started_worker in
  sim_inv 2 w1 ∧ simulationRunning w1 = true ∧ lastTimestamp w1 = 1016 ∧
  params w1 = page_params ∧ pendingFrames w1 = 1%nat ∧
  activeDipoleIndices w1 = [1%nat] ∧ instanceIndices w1 = [0%nat] ∧
  ∃ d, dipoles w1 !! 1%nat = Some d ∧ life d = 3184/1000 ∧ maxLife d = 32/10.
Proof.
  intros w1.
  pose proof (dequeued_inv 2 _ started_worker_inv) as Hinv.
  destruct (si_fits _ _ Hinv) as (rb & bb & Hfit).
  destruct (tick_spec 2 1016 (draws_all 0) _ rb bb Hinv eq_refl Hfit)
    as (wS & w' & Hpost & Hinv').
  destruct Hpost as [Hspawn Heq _ _ _ _ Hin _ Hact Hfree _].
  destruct (tick_config 2 1016 (draws_all 0) _ w' Hinv eq_refl Heq)
    as (Hts & Hrun & Hpar & _ & Hpf & _).
  assert (w1 = w') as -> by (by apply step_frame; [simpl; lia|]).
  assert (deltaTime_of (dequeued started_worker) 1016 = 16/1000) as Hdt.
  { change (deltaTime_of started_worker 1016 = 16/1000).
    rewrite started_worker_dt. lra. }
  rewrite Hdt in *.
  rewrite (spawn_create (draws_all 0) (16/1000) _ 1 [0%nat] (fresh_dipole 1) rb bb)
    in Hspawn; [|simpl; lra|done|done|by apply clocked_fit|simpl; lia].
  injection Hspawn as <-.
  set (d1 := spawned page_params (draws_all 0) 1 (fresh_dipole 1)).
  assert (¬ dies (16/1000) page_params
            (dipoles (created (draws_all 0) 1 [0%nat] (fresh_dipole 1) rb bb
                        (clocked 1016 (dequeued started_worker)))) 1) as Hsurv.
  { unfold dies. simpl. lra. }
  split; [done|]. split; [done|]. split; [done|]. split; [done|]. split; [done|].
  split.
  { rewrite Hact.
    change (activeDipoleIndices (created _ _ _ _ _ _ _)) with [1%nat].
    by rewrite filter_cons_True. }
  split.
  { rewrite Hfree.
    change (activeDipoleIndices (created _ _ _ _ _ _ _)) with [1%nat].
    by rewrite filter_cons_False by tauto. }
  exists (advanced (16/1000) page_params d1).
  split. { apply Hin; [simpl; by apply list_elem_of_singleton|done]. }
  split.
  - rewrite advanced_life_survives by (simpl; lra). simpl. lra.
  - rewrite advanced_maxLife. simpl. lra.
Qed.

(** ** What a tick posts *)

(** A tick whose active list is not empty after the spawn decision posts
    one pair; the arrays of the pair hold, in the slot of every particle
    of that list, the transforms of the particle as the tick leaves it. *)
Lemma tick_posted N ts r w rb bb wS w' :
  sim_inv N w → simulationRunning w = true → bufs_fit w rb bb →
  spawn r (deltaTime_of w ts) (clocked ts w) = Ok tt wS →
  updateSimulation ts r w = Ok tt w' →
  activeDipoleIndices wS ≠ [] →
  ∃ rL bL ws,
    effects w' = Allocated (S (nextBufferId w)) (maxDipoles w * 16)
                 :: Allocated (nextBufferId w) (maxDipoles w * 16)
                 :: Posted rL bL :: ws ++ effects w ∧
    writes_to [buf_id rb; buf_id bb] ws ∧
    buf_id rL = buf_id rb ∧ buf_id bL = buf_id bb ∧
    ∀ k d, k ∈ activeDipoleIndices wS → dipoles wS !! k = Some d →
      ∀ j, (j < 16)%nat →
        buf_data rL !! (k * 16 + j)%nat
        = lobeMatrix (advanced (deltaTime_of w ts) (params w) d)
            (tick_scale (deltaTime_of w ts) (params w) d) (matrixOffsetRed w) !! j ∧
        buf_data bL !! (k * 16 + j)%nat
        = lobeMatrix (advanced (deltaTime_of w ts) (params w) d)
            (tick_scale (deltaTime_of w ts) (params w) d) (matrixOffsetBlue w) !! j.
Proof.
  intros Hinv Hrun Hfit HspawnS Hupd Hact.
  destruct (tick_log N ts r w rb bb Hinv Hrun Hfit) as (w'' & ws & Hupd' & Hws & Hcases).
  rewrite Hupd in Hupd'. injection Hupd' as <-.
  destruct (updateSimulation_spec ts r w rb bb Hrun (si_pool _ _ Hinv) Hfit)
    as (wS' & wL & rbS & bbS & rL' & bL' & Hspawn & HinvS & HfitS & _ & _
        & Hpost & HrL & HbL & _ & _ & Heq).
  rewrite HspawnS in Hspawn. injection Hspawn as <-.
  rewrite Hupd in Heq. injection Heq as Heq. rewrite decide_False in Heq by done.
  destruct (spawn_frame r _ _ wS rb bb (clocked_pool_inv ts w (si_pool _ _ Hinv))
              (clocked_fit ts w rb bb Hfit) HspawnS)
    as (HpS & HmS & HorS & HobS & (newS & HeS) & _).
  simpl in HpS, HmS, HorS, HobS, HeS.
  destruct Hpost.
  assert (effects w' = Allocated (S (nextBufferId wL)) (maxDipoles wL * 16)
                       :: Allocated (nextBufferId wL) (maxDipoles wL * 16)
                       :: Posted rL' bL' :: effects wL) as HeL
    by (rewrite Heq; reflexivity).
  destruct Hcases as [(_ & He & _)|(rL & bL & He & Hidr & Hidb & _)].
  { exfalso. rewrite He, lp_effects0, HeS in HeL. apply (f_equal length) in HeL.
    simpl in HeL. rewrite !length_app in HeL. lia. }
  rewrite He in HeL.
  assert (Posted rL bL = Posted rL' bL') as HP by congruence.
  injection HP as -> ->.
  exists rL', bL', ws. rewrite (si_cap _ _ Hinv).
  split; [done|]. split; [done|]. split; [done|]. split; [done|].
  intros k d Hk Hd j Hj.
  rewrite HrL in lp_red0. rewrite HbL in lp_blue0.
  injection lp_red0 as ->. injection lp_blue0 as ->. simpl.
  pose proof (pool_inv_NoDup _ HinvS) as Hnd.
  apply NoDup_app in Hnd as (_ & _ & Hnd).
  assert (∀ k', k' ∈ activeDipoleIndices wS →
            (k' * 16 + 16 ≤ length (buf_data rbS))%nat ∧
            (k' * 16 + 16 ≤ length (buf_data bbS))%nat) as Hroom.
  { intros k' Hk'.
    assert (k' < maxDipoles wS)%nat
      by (apply (pool_inv_bound wS k' HinvS), elem_of_app; by right).
    destruct HfitS as [_ _ H1 H2 _]. lia. }
  rewrite <- HpS, <- HorS, <- HobS.
  split; apply foldr_paint_inside; try done; intros k' Hk'; by apply Hroom.
Qed.

(** ** The hidden transform *)

Lemma lobeMatrix_collapsed d x y z :
  lobeMatrix d 0 (Mat4.makeTranslation x y z) = collapsed (position d).
Proof.
  unfold lobeMatrix, Mat4.multiply, Mat4.makeTranslation, Mat4.compose, Mat4.at_, collapsed.
  simpl. repeat (apply (f_equal2 cons); [ring|]). reflexivity.
Qed.

Lemma offsets_collapsed w d :
  offsets_set w →
  lobeMatrix d 0 (matrixOffsetRed w) = collapsed (position d) ∧
  lobeMatrix d 0 (matrixOffsetBlue w) = collapsed (position d).
Proof. intros [-> ->]. split; apply lobeMatrix_collapsed. Qed.

(** The offset matrices are set by [init] and changed by nothing else. *)
Lemma step_offsets N e w :
  sim_inv N w → admissible N e → offsets_set w → offsets_set (step e w).
Proof.
  intros Hinv Hadm Hoff. unfold step.
  destruct e as [[n p off|now| |u|r b|]|ts r]; simpl in *; try done.
  - unfold mbind, M_bind, get. by destruct (simulationRunning w).
  - destruct (pendingFrames w) as [|k] eqn:Hk; [done|].
    set (w1 := set_clock (lastTimestamp w) (simulationRunning w) k w).
    assert (sim_inv N w1) as Hinv1 by (revert Hinv; by apply sim_inv_ext).
    destruct (simulationRunning w) eqn:Hrun.
    + destruct (tick_inv N ts r w1) as (w' & Heq & Hinv'); [done|done|].
      rewrite Heq. simpl.
      destruct (tick_config N ts r w1 w' Hinv1 eq_refl Heq)
        as (_ & _ & _ & _ & _ & Hl & Hr & Hb).
      unfold offsets_set. rewrite Hl, Hr, Hb. exact Hoff.
    + unfold updateSimulation, mbind, M_bind, get. simpl. exact Hoff.
Qed.

Lemma initialised_offsets n p off w : offsets_set (initialised n p off w).
Proof. by split. Qed.

Lemma started_worker_offsets : offsets_set started_worker.
Proof. by split. Qed.

(** ** What a tick does to the particles of the active list *)

(** The particles of the active list after the spawn decision: a survivor
    stays active with its record advanced and its transforms written; a
    particle that runs out of life leaves the active list, is put on the
    free list with its life set to 0, and the hidden transform is written
    for it. *)
Lemma tick_touched N ts r w rb bb wS w' new i d :
  sim_inv N w → simulationRunning w = true → bufs_fit w rb bb →
  spawn r (deltaTime_of w ts) (clocked ts w) = Ok tt wS →
  updateSimulation ts r w = Ok tt w' →
  effects w' = new ++ effects w →
  i ∈ activeDipoleIndices wS → dipoles wS !! i = Some d →
  let dt := deltaTime_of w ts in
  let p := params w in
  dipoles w' !! i = Some (advanced dt p d) ∧
  (¬ life (aged dt p d) <= 0 →
     i ∈ activeDipoleIndices w' ∧ (i ∉ instanceIndices w') ∧
     life (advanced dt p d) = life d - dt * speed p ∧
     Wrote (buf_id rb) (i * 16)
       (lobeMatrix (advanced dt p d) (scale_of (aged dt p d)) (matrixOffsetRed w)) ∈ new ∧
     Wrote (buf_id bb) (i * 16)
       (lobeMatrix (advanced dt p d) (scale_of (aged dt p d)) (matrixOffsetBlue w)) ∈ new) ∧
  (life (aged dt p d) <= 0 →
     (i ∉ activeDipoleIndices w') ∧ i ∈ instanceIndices w' ∧
     (i ∉ instanceIndices wS) ∧
     life (advanced dt p d) = 0 ∧
     Wrote (buf_id rb) (i * 16) (lobeMatrix d 0 (matrixOffsetRed w)) ∈ new ∧
     Wrote (buf_id bb) (i * 16) (lobeMatrix d 0 (matrixOffsetBlue w)) ∈ new).
Proof.
  intros Hinv Hrun Hfit HspawnS Hupd Hnew Hi Hd. cbv zeta.
  destruct (tick_spec N ts r w rb bb Hinv Hrun Hfit) as (wS' & w'' & Hpost & Hinv').
  destruct Hpost as [Hspawn Heq HpoolS HparS (newS & HeS) Hkeep Hin Hout Hact Hfree
                       (pub & newL & He & _ & HnewL)].
  rewrite HspawnS in Hspawn. injection Hspawn as <-.
  rewrite Hupd in Heq. injection Heq as <-.
  assert (new = pub ++ newL ++ newS) as ->.
  { apply (app_inv_tail (effects w)). by rewrite <- Hnew, He, HeS, <- !app_assoc. }
  pose proof (pool_inv_NoDup _ (si_pool _ _ Hinv')) as Hnd'.
  pose proof (pool_inv_NoDup _ HpoolS) as HndS.
  destruct (written_in_tick (deltaTime_of w ts) (params w) (dipoles wS)
              (matrixOffsetRed w) (matrixOffsetBlue w) (buf_id rb) (buf_id bb)
              (activeDipoleIndices wS) i d Hi Hd) as [Hwr Hwb].
  rewrite <- HnewL in Hwr, Hwb.
  split; [by apply Hin|]. split.
  - intros Hgt.
    assert (i ∈ activeDipoleIndices w') as Hi'.
    { rewrite Hact. apply list_elem_of_filter. split; [|done].
      unfold dies. by rewrite Hd. }
    split; [done|]. split.
    { intros Hf. apply NoDup_app in Hnd' as (_ & Hnin & _). by apply (Hnin i). }
    split; [by apply advanced_life_survives|].
    rewrite !lobeMatrix_survives in Hwr, Hwb by done.
    split; apply elem_of_app; right; apply elem_of_app; by left.
  - intros Hle.
    assert (i ∈ instanceIndices w') as Hi'.
    { rewrite Hfree. apply elem_of_app. right.
      apply elem_of_reverse, list_elem_of_filter. split; [|done].
      unfold dies. by rewrite Hd. }
    split.
    { intros Ha. apply NoDup_app in Hnd' as (_ & Hnin & _). by apply (Hnin i). }
    split; [done|]. split.
    { intros Hf. apply NoDup_app in HndS as (_ & Hnin & _). by apply (Hnin i). }
    split; [by apply advanced_life_dies|].
    rewrite !lobeMatrix_dies in Hwr, Hwb by done.
    split; apply elem_of_app; right; apply elem_of_app; by left.
Qed.

(** A tick whose active list is empty after the spawn decision leaves the
    pool, the buffers and the trace as they were. *)
Lemma tick_untouched N ts r w rb bb wS w' :
  sim_inv N w → simulationRunning w = true → bufs_fit w rb bb →
  spawn r (deltaTime_of w ts) (clocked ts w) = Ok tt wS →
  updateSimulation ts r w = Ok tt w' →
  activeDipoleIndices wS = [] →
  activeDipoleIndices w = [] ∧ activeDipoleIndices w' = [] ∧
  instanceIndices w' = instanceIndices w ∧
  (∀ k, dipoles w' !! k = dipoles w !! k) ∧
  effects w' = effects w ∧
  redMatricesBuffer w' = redMatricesBuffer w ∧
  blueMatricesBuffer w' = blueMatricesBuffer w.
Proof.
  intros Hinv Hrun Hfit HspawnS Hupd Hnil.
  destruct (tick_spec N ts r w rb bb Hinv Hrun Hfit) as (wS' & w'' & Hpost & Hinv').
  destruct Hpost as [Hspawn Heq HpoolS HparS _ Hkeep Hin Hout Hact Hfree _].
  rewrite HspawnS in Hspawn. injection Hspawn as <-.
  rewrite Hupd in Heq. injection Heq as <-.
  destruct (tick_log N ts r w rb bb Hinv Hrun Hfit) as (w'' & ws & Hupd' & Hws & Hcases).
  rewrite Hupd in Hupd'. injection Hupd' as <-.
  destruct (updateSimulation_spec ts r w rb bb Hrun (si_pool _ _ Hinv) Hfit)
    as (wS' & wL & rbS & bbS & rL' & bL' & Hspawn & _ & _ & _ & _
        & Hpost & _ & _ & _ & _ & Heq).
  rewrite HspawnS in Hspawn. injection Hspawn as <-.
  rewrite Hupd in Heq. injection Heq as Heq. rewrite decide_True in Heq by done.
  destruct Hpost. rewrite Hnil in lp_effects0. simpl in lp_effects0.
  destruct (spawn_cases r (deltaTime_of w ts) (clocked ts w) rb bb
              (clocked_pool_inv ts w (si_pool _ _ Hinv)) (clocked_fit ts w rb bb Hfit))
    as [[HeqS _]|(i & rest & d0 & _ & _ & _ & _ & _ & HeqS)];
    rewrite HeqS in HspawnS; injection HspawnS as <-.
  - simpl in *. rewrite Hnil in *. simpl in *.
    split; [done|]. split; [done|]. split; [by rewrite Hfree, app_nil_r|].
    split; [intros k; apply Hout; intros Hk; by apply elem_of_nil in Hk|].
    assert (effects w' = effects w) as He by (rewrite Heq; simpl; done).
    split; [done|].
    destruct Hcases as [(_ & _ & Hr & Hb & _)|(rL & bL & He' & _)]; [done|].
    rewrite He in He'. apply (f_equal length) in He'. simpl in He'.
    rewrite length_app in He'. lia.
  - simpl in Hnil. by apply app_eq_nil in Hnil as [_ ?].
Qed.

(** * The claims *)

(** C1 — Pool partition invariant.  After an [init] with capacity [N], and
    after every later event (message or tick) of a consumer that sends no
    further [init] and returns pairs with room for [N] matrices, the free
    list [instanceIndices] and the active list [activeDipoleIndices]
    together hold each slot index [0..N-1] exactly once (they are a
    permutation of [0..N-1]: no index twice, none in both, none missing),
    so the active count is at most [N]; and the [life] of a slot is
    positive if and only if the slot is in the active list.  This holds
    whatever the configured lifetime, speed and elapsed times are (in
    particular under the positive lifetime and nonnegative dt and speed
    the claim assumes). *)
Theorem C1_pool_partition (w0 : Worker) (N : nat) (p : Params) (off : R)
    (evs : list Event) :
  Forall (admissible N) evs →
  let w := run evs (step (Message_ (Init N p off)) w0) in
  instanceIndices w ++ activeDipoleIndices w ≡ₚ seq 0 N ∧
  NoDup (instanceIndices w ++ activeDipoleIndices w) ∧
  (∀ i, i ∈ instanceIndices w ++ activeDipoleIndices w ↔ (i < N)%nat) ∧
  (length (activeDipoleIndices w) ≤ N)%nat ∧
  (∀ i, (i < N)%nat →
     ∃ d, dipoles w !! i = Some d ∧ (0 < life d ↔ i ∈ activeDipoleIndices w)).
Proof.
  intros Hadm w.
  assert (sim_inv N w) as [Hc Hp Hal _].
  { apply run_inv; [|done]. unfold step, handle. rewrite init_eq. apply initialised_inv. }
  pose proof (pi_perm _ Hp) as Hperm. rewrite Hc in Hperm.
  split; [done|]. split; [rewrite Hperm; apply NoDup_seq|].
  split; [|split].
  - intros i. rewrite Hperm, elem_of_seq. lia.
  - apply Permutation_length in Hperm. rewrite length_app, length_seq in Hperm. lia.
  - intros i Hi. destruct (pool_inv_lookup w i Hp) as (d & Hd & _); [by rewrite Hc|].
    exists d. split; [done|]. split.
    + intros Hlife.
      assert (i ∈ instanceIndices w ++ activeDipoleIndices w) as Hin.
      { rewrite Hperm, elem_of_seq. lia. }
      apply elem_of_app in Hin as [Hin|Hin]; [|done].
      rewrite (pi_free _ Hp i d Hin Hd) in Hlife. lra.
    + intros Hin. by apply (Hal i d).
Qed.

Lemma C1_pool_partition_witness :
  let evs := [ Message_ (Start 1000); Frame 1016 (draws_all 0);
               Message_ (ReturnBuffers (mkBuffer 0 (zeros 2)) (mkBuffer 1 (zeros 2)));
               Frame 1032 (draws_all (1/2)) ] in
  let w := run evs (step (Message_ (Init 2 page_params page_lobeOffset)) loaded) in
  instanceIndices w ++ activeDipoleIndices w ≡ₚ seq 0 2 ∧
  NoDup (instanceIndices w ++ activeDipoleIndices w) ∧
  (∀ i, i ∈ instanceIndices w ++ activeDipoleIndices w ↔ (i < 2)%nat) ∧
  (length (activeDipoleIndices w) ≤ 2)%nat ∧
  (∀ i, (i < 2)%nat →
     ∃ d, dipoles w !! i = Some d ∧ (0 < life d ↔ i ∈ activeDipoleIndices w)).
Proof.
  apply (C1_pool_partition loaded 2 page_params page_lobeOffset).
  repeat constructor; simpl; lia.
Defined.

Lemma occurrences_NoDup i l : NoDup l → i ∈ l → occurrences i l = 1%nat.
Proof.
  unfold occurrences. induction 1 as [|x l Hx Hnd IH]; intros Hi.
  - by apply elem_of_nil in Hi.
  - apply elem_of_cons in Hi as [<-|Hi].
    + rewrite filter_cons_True by done. simpl. f_equal.
      destruct (filter (λ j, j = i) l) as [|a t] eqn:E; [done|].
      assert (a ∈ filter (λ j, j = i) l) as Ha by (rewrite E; left).
      apply list_elem_of_filter in Ha as [-> Ha]. done.
    + rewrite filter_cons_False by (intros ->; done). by apply IH.
Qed.


(** C3 — Particle lifecycle.  In a tick of a running simulation with
    nonnegative elapsed time and nonnegative speed: every particle that is
    active at the start of the tick ends the tick with a [life] no greater
    than before (non-increasing tick over tick).  And for every particle in
    the active list after the spawn decision (those alive before the tick
    and the one spawned in it): if the decrement leaves its [life]
    positive, it stays active with exactly the decremented [life]; if the
    decrement brings its [life] to [<= 0], then in this very tick the
    transform of scale 0 is written for its slot into both lobe buffers,
    the slot, which was not free, is on the free list exactly once and no
    longer on the active list, and its [life] is set to 0 (dead).  The
    write shows in the data: the tick posts the pair it wrote into, and in
    both arrays of that pair the 16 floats of the slot are the transform
    of scale 0.  With the offset matrices that [init] computes, this
    transform is the collapsed matrix: its three rotation columns are
    zero and its last column is the particle's position. *)
Theorem C3_lifecycle (N : nat) (ts : R) (r : Draws) (w : Worker) :
  sim_inv N w → simulationRunning w = true →
  0 <= deltaTime_of w ts → 0 <= speed (params w) →
  ∃ wS w' rb bb new,
    let dt := deltaTime_of w ts in
    let p := params w in
    spawn r dt (clocked ts w) = Ok tt wS ∧
    updateSimulation ts r w = Ok tt w' ∧
    redMatricesBuffer w = Some rb ∧ blueMatricesBuffer w = Some bb ∧
    effects w' = new ++ effects w ∧
    (∀ i d, i ∈ activeDipoleIndices w → dipoles w !! i = Some d →
       i ∈ activeDipoleIndices wS ∧ dipoles wS !! i = Some d ∧
       ∃ d', dipoles w' !! i = Some d' ∧ life d' <= life d) ∧
    (∀ i d, i ∈ activeDipoleIndices wS → dipoles wS !! i = Some d →
       (0 < life d - dt * speed p →
          ∃ d', dipoles w' !! i = Some d' ∧ life d' = life d - dt * speed p ∧
                i ∈ activeDipoleIndices w' ∧ i ∉ instanceIndices w') ∧
       (life d - dt * speed p <= 0 →
          ∃ d', dipoles w' !! i = Some d' ∧ life d' = 0 ∧
                (i ∉ activeDipoleIndices w') ∧
                (i ∉ instanceIndices wS) ∧
                occurrences i (instanceIndices w') = 1%nat ∧
                Wrote (buf_id rb) (i * 16) (lobeMatrix d 0 (matrixOffsetRed w)) ∈ new ∧
                Wrote (buf_id bb) (i * 16) (lobeMatrix d 0 (matrixOffsetBlue w)) ∈ new ∧
                (∃ rL bL,
                   Posted rL bL ∈ new ∧
                   buf_id rL = buf_id rb ∧ buf_id bL = buf_id bb ∧
                   ∀ j, (j < 16)%nat →
                     buf_data rL !! (i * 16 + j)%nat
                     = lobeMatrix d 0 (matrixOffsetRed w) !! j ∧
                     buf_data bL !! (i * 16 + j)%nat
                     = lobeMatrix d 0 (matrixOffsetBlue w) !! j) ∧
                (offsets_set w →
                   lobeMatrix d 0 (matrixOffsetRed w) = collapsed (position d) ∧
                   lobeMatrix d 0 (matrixOffsetBlue w) = collapsed (position d)))).
Proof.
  intros Hinv Hrun Hdt Hspeed.
  destruct (si_fits _ _ Hinv) as (rb & bb & Hfit).
  destruct (tick_spec N ts r w rb bb Hinv Hrun Hfit) as (wS & w' & Hpost & Hinv').
  destruct Hpost as [Hspawn Heq HpoolS HparS (newS & HeS) Hkeep Hin Hout Hact Hfree
                       (pub & new & He & _ & Hnew)].
  pose proof (pool_inv_NoDup _ (si_pool _ _ Hinv')) as Hnd'.
  pose proof (pool_inv_NoDup _ HpoolS) as HndS.
  exists wS, w', rb, bb, (pub ++ new ++ newS). simpl.
  split; [done|]. split; [done|].
  split; [apply Hfit|]. split; [apply Hfit|].
  assert (effects w' = (pub ++ new ++ newS) ++ effects w) as Hall
    by (by rewrite He, HeS, <- !app_assoc).
  split; [done|].
  split.
  - intros i d Hi Hd. destruct (Hkeep i Hi) as [HiS HdS]. rewrite Hd in HdS.
    split; [done|]. split; [done|].
    exists (advanced (deltaTime_of w ts) (params w) d). split; [by apply Hin|].
    pose proof (si_alive _ _ Hinv i d Hi Hd) as Hpos.
    assert (0 <= deltaTime_of w ts * speed (params w)) by (by apply Rmult_le_pos).
    destruct (Rle_dec (life (aged (deltaTime_of w ts) (params w) d)) 0) as [Hle|Hgt].
    + rewrite advanced_life_dies by done. lra.
    + rewrite advanced_life_survives by done. lra.
  - intros i d Hi Hd. split.
    + intros Hpos.
      exists (advanced (deltaTime_of w ts) (params w) d). split; [by apply Hin|].
      assert (¬ life (aged (deltaTime_of w ts) (params w) d) <= 0) as Hgt
        by (simpl; lra).
      split; [by apply advanced_life_survives|].
      assert (i ∈ activeDipoleIndices w') as Hi'.
      { rewrite Hact. apply list_elem_of_filter. split; [|done].
        unfold dies. by rewrite Hd. }
      split; [done|]. intros Hf.
      apply NoDup_app in Hnd' as (_ & Hnin & _). by apply (Hnin i).
    + intros Hle.
      exists (advanced (deltaTime_of w ts) (params w) d). split; [by apply Hin|].
      split; [by apply advanced_life_dies|].
      assert (i ∈ instanceIndices w') as Hi'.
      { rewrite Hfree. apply elem_of_app. right.
        apply elem_of_reverse, list_elem_of_filter. split; [|done].
        unfold dies. by rewrite Hd. }
      split.
      { intros Ha. apply NoDup_app in Hnd' as (_ & Hnin & _). by apply (Hnin i). }
      split.
      { intros Hf. apply NoDup_app in HndS as (_ & Hnin & _). by apply (Hnin i). }
      split.
      { apply occurrences_NoDup; [|done]. by apply NoDup_app in Hnd' as (? & _). }
      destruct (written_in_tick (deltaTime_of w ts) (params w) (dipoles wS)
                  (matrixOffsetRed w) (matrixOffsetBlue w) (buf_id rb) (buf_id bb)
                  (activeDipoleIndices wS) i d Hi Hd) as [Hwr Hwb].
      rewrite !lobeMatrix_dies in Hwr, Hwb by done. rewrite <- Hnew in Hwr, Hwb.
      split; [apply elem_of_app; right; apply elem_of_app; by left|].
      split; [apply elem_of_app; right; apply elem_of_app; by left|].
      split; [|by apply offsets_collapsed].
      assert (activeDipoleIndices wS ≠ []) as Hne.
      { intros Hnil. rewrite Hnil in Hi. by apply elem_of_nil in Hi. }
      destruct (tick_posted N ts r w rb bb wS w' Hinv Hrun Hfit Hspawn Heq Hne)
        as (rL & bL & ws & Hshape & _ & Hidr & Hidb & Hdata).
      exists rL, bL. split.
      { assert (pub ++ new ++ newS
                = Allocated (S (nextBufferId w)) (maxDipoles w * 16)
                  :: Allocated (nextBufferId w) (maxDipoles w * 16)
                  :: Posted rL bL :: ws) as ->.
        { apply (app_inv_tail (effects w)). rewrite <- Hall. exact Hshape. }
        apply elem_of_cons. right. apply elem_of_cons. right. apply elem_of_cons. by left. }
      split; [done|]. split; [done|].
      intros j Hj. destruct (Hdata i d Hi Hd j Hj) as [H1 H2].
      rewrite !lobeMatrix_dies in H1, H2 by done. done.
Qed.

(** The started worker one tick later: slot 1 holds a particle with
    3.184 s of life.  The next callback comes 5 s later, so the particle
    runs out of life in it. *)
Lemma C3_lifecycle_witness :
  let w := dequeued (step (Frame 1016 (draws_all 0)) started_worker) in
  let N := 2%nat in
  let ts := 6016 in
  let r := draws_all 0 in
  (offsets_set w ∧ 1%nat ∈ activeDipoleIndices w ∧
   ∃ d, dipoles w !! 1%nat = Some d ∧
        life d - deltaTime_of w ts * speed (params w) <= 0) ∧
  ∃ wS w' rb bb new,
    let dt := deltaTime_of w ts in
    let p := params w in
    spawn r dt (clocked ts w) = Ok tt wS ∧
    updateSimulation ts r w = Ok tt w' ∧
    redMatricesBuffer w = Some rb ∧ blueMatricesBuffer w = Some bb ∧
    effects w' = new ++ effects w ∧
    (∀ i d, i ∈ activeDipoleIndices w → dipoles w !! i = Some d →
       i ∈ activeDipoleIndices wS ∧ dipoles wS !! i = Some d ∧
       ∃ d', dipoles w' !! i = Some d' ∧ life d' <= life d) ∧
    (∀ i d, i ∈ activeDipoleIndices wS → dipoles wS !! i = Some d →
       (0 < life d - dt * speed p →
          ∃ d', dipoles w' !! i = Some d' ∧ life d' = life d - dt * speed p ∧
                i ∈ activeDipoleIndices w' ∧ i ∉ instanceIndices w') ∧
       (life d - dt * speed p <= 0 →
          ∃ d', dipoles w' !! i = Some d' ∧ life d' = 0 ∧
                (i ∉ activeDipoleIndices w') ∧
                (i ∉ instanceIndices wS) ∧
                occurrences i (instanceIndices w') = 1%nat ∧
                Wrote (buf_id rb) (i * 16) (lobeMatrix d 0 (matrixOffsetRed w)) ∈ new ∧
                Wrote (buf_id bb) (i * 16) (lobeMatrix d 0 (matrixOffsetBlue w)) ∈ new ∧
                (∃ rL bL,
                   Posted rL bL ∈ new ∧
                   buf_id rL = buf_id rb ∧ buf_id bL = buf_id bb ∧
                   ∀ j, (j < 16)%nat →
                     buf_data rL !! (i * 16 + j)%nat
                     = lobeMatrix d 0 (matrixOffsetRed w) !! j ∧
                     buf_data bL !! (i * 16 + j)%nat
                     = lobeMatrix d 0 (matrixOffsetBlue w) !! j) ∧
                (offsets_set w →
                   lobeMatrix d 0 (matrixOffsetRed w) = collapsed (position d) ∧
                   lobeMatrix d 0 (matrixOffsetBlue w) = collapsed (position d)))).
Proof.
  destruct first_tick as (Hinv & Hrun & Hts & Hp & Hpend & Hact & _ & d & Hd & Hlife & _).
  pose proof (step_offsets 2 (Frame 1016 (draws_all 0)) started_worker
                started_worker_inv I started_worker_offsets) as Hoff.
  revert Hinv Hrun Hts Hp Hpend Hact Hd Hoff.
  generalize (step (Frame 1016 (draws_all 0)) started_worker). intros w1.
  intros Hinv Hrun Hts Hp Hpend Hact Hd Hoff. cbv zeta.
  assert (deltaTime_of (dequeued w1) 6016 = 5) as Hdt.
  { unfold deltaTime_of. change (lastTimestamp (dequeued w1)) with (lastTimestamp w1).
    rewrite Hts. destruct (Rlt_dec 0 1016); lra. }
  split.
  - split; [exact Hoff|]. split.
    + rewrite dequeued_active, Hact. by apply list_elem_of_singleton.
    + exists d. split; [by rewrite dequeued_dipoles|].
      rewrite Hdt. change (params (dequeued w1)) with (params w1).
      rewrite Hp, Hlife. simpl. lra.
  - apply (C3_lifecycle 2 6016 (draws_all 0) (dequeued w1)).
    + by apply dequeued_inv.
    + exact Hrun.
    + rewrite Hdt. lra.
    + change (params (dequeued w1)) with (params w1). rewrite Hp. simpl. lra.
Defined.

Lemma posts_in_app l1 l2 : posts_in (l1 ++ l2) = (posts_in l1 + posts_in l2)%nat.
Proof. unfold posts_in. by rewrite filter_app, length_app. Qed.

Lemma app_two {A} (l1 : list A) a b l : l1 ++ a :: b :: l = (l1 ++ [a; b]) ++ l.
Proof. by rewrite <- app_assoc. Qed.

Lemma posts_in_cons e l :
  posts_in (e :: l) = ((if is_post e then 1 else 0) + posts_in l)%nat.
Proof.
  unfold posts_in. rewrite filter_cons. destruct (is_post e); by case_decide.
Qed.

Lemma posts_in_writes dt p ds offR offB rid bid l :
  posts_in (l ≫= writes_of dt p ds offR offB rid bid) = 0%nat.
Proof.
  induction l as [|k l IH]; [done|].
  change ((k :: l) ≫= writes_of dt p ds offR offB rid bid)
    with (writes_of dt p ds offR offB rid bid k
          ++ (l ≫= writes_of dt p ds offR offB rid bid)).
  rewrite posts_in_app, IH. unfold writes_of. by destruct (ds !! k).
Qed.

Lemma updateSimulation_stopped ts r w :
  simulationRunning w = false → updateSimulation ts r w = Ok tt w.
Proof.
  intros H. unfold updateSimulation, mbind, M_bind, get. by rewrite H.
Qed.

Lemma posts_in_writes_to ids ws : writes_to ids ws → posts_in ws = 0%nat.
Proof.
  intros H. induction H as [|e ws He _ IH]; [done|].
  destruct He as (id & off & m & -> & _). by rewrite posts_in_cons.
Qed.

(** C4 — Publish condition.  A tick of a running simulation posts exactly
    one [matricesUpdate], transferring the pair that was current at the
    start of the tick, when the active list is not empty after the spawn
    decision, and this is the case exactly when a particle was spawned,
    advanced or died in the tick.  Here a particle was spawned when a slot
    went from the end of the free list to the end of the active list and
    its record was initialised; it was advanced when it is active at the
    end of the tick with its record moved on by the tick (life
    decremented, quaternion turned) and both its transforms written; it
    died when it left the active list for the free list with its life set
    to 0 and the transform of scale 0 written for it.  A spawned particle
    is advanced or dies in the same tick.  The arrays of the posted pair
    hold the transforms of every particle of the active list.  When the
    active list is empty after the spawn decision nothing is posted or
    written, the write buffers are not replaced and the pool is as it
    was.  A callback that finds the simulation stopped changes nothing. *)
Theorem C4_publish_condition (N : nat) (ts : R) (r : Draws) (w : Worker) :
  sim_inv N w →
  (simulationRunning w = false → updateSimulation ts r w = Ok tt w) ∧
  (simulationRunning w = true →
   ∃ wS w' rb bb new,
     let dt := deltaTime_of w ts in
     let p := params w in
     let spawned_ :=
       ∃ i rest d0,
         instanceIndices w = rest ++ [i] ∧ dipoles w !! i = Some d0 ∧
         instanceIndices wS = rest ∧
         activeDipoleIndices wS = activeDipoleIndices w ++ [i] ∧
         dipoles wS !! i = Some (spawned p r i d0) in
     let advanced_ :=
       ∃ i d,
         i ∈ activeDipoleIndices wS ∧ dipoles wS !! i = Some d ∧
         ¬ life (aged dt p d) <= 0 ∧
         i ∈ activeDipoleIndices w' ∧ (i ∉ instanceIndices w') ∧
         dipoles w' !! i = Some (advanced dt p d) ∧
         life (advanced dt p d) = life d - dt * speed p ∧
         Wrote (buf_id rb) (i * 16)
           (lobeMatrix (advanced dt p d) (scale_of (aged dt p d)) (matrixOffsetRed w))
           ∈ new ∧
         Wrote (buf_id bb) (i * 16)
           (lobeMatrix (advanced dt p d) (scale_of (aged dt p d)) (matrixOffsetBlue w))
           ∈ new in
     let died_ :=
       ∃ i d,
         i ∈ activeDipoleIndices wS ∧ dipoles wS !! i = Some d ∧
         life (aged dt p d) <= 0 ∧
         (i ∉ activeDipoleIndices w') ∧ i ∈ instanceIndices w' ∧
         (i ∉ instanceIndices wS) ∧
         dipoles w' !! i = Some (advanced dt p d) ∧
         life (advanced dt p d) = 0 ∧
         Wrote (buf_id rb) (i * 16) (lobeMatrix d 0 (matrixOffsetRed w)) ∈ new ∧
         Wrote (buf_id bb) (i * 16) (lobeMatrix d 0 (matrixOffsetBlue w)) ∈ new in
     spawn r dt (clocked ts w) = Ok tt wS ∧
     updateSimulation ts r w = Ok tt w' ∧
     redMatricesBuffer w = Some rb ∧ blueMatricesBuffer w = Some bb ∧
     effects w' = new ++ effects w ∧
     (spawned_ ∨ advanced_ ∨ died_ ↔ activeDipoleIndices wS ≠ []) ∧
     (posts_in new = 1%nat ↔ activeDipoleIndices wS ≠ []) ∧
     (posts_in new = 1%nat ↔ spawned_ ∨ advanced_ ∨ died_) ∧
     (spawned_ → advanced_ ∨ died_) ∧
     (activeDipoleIndices wS ≠ [] →
        ∃ rL bL rest,
          new = Allocated (S (nextBufferId w)) (maxDipoles w * 16)
                :: Allocated (nextBufferId w) (maxDipoles w * 16)
                :: Posted rL bL :: rest ∧
          buf_id rL = buf_id rb ∧ buf_id bL = buf_id bb ∧ posts_in rest = 0%nat ∧
          ∀ k d, k ∈ activeDipoleIndices wS → dipoles wS !! k = Some d →
            ∀ j, (j < 16)%nat →
              buf_data rL !! (k * 16 + j)%nat
              = lobeMatrix (advanced dt p d) (tick_scale dt p d) (matrixOffsetRed w) !! j ∧
              buf_data bL !! (k * 16 + j)%nat
              = lobeMatrix (advanced dt p d) (tick_scale dt p d) (matrixOffsetBlue w) !! j) ∧
     (activeDipoleIndices wS = [] →
        new = [] ∧ redMatricesBuffer w' = redMatricesBuffer w ∧
        blueMatricesBuffer w' = blueMatricesBuffer w ∧
        activeDipoleIndices w' = activeDipoleIndices w ∧
        instanceIndices w' = instanceIndices w ∧
        ∀ k, dipoles w' !! k = dipoles w !! k)).
Proof.
  intros Hinv. split; [apply updateSimulation_stopped|]. intros Hrun.
  destruct (si_fits _ _ Hinv) as (rb & bb & Hfit).
  destruct (tick_spec N ts r w rb bb Hinv Hrun Hfit) as (wS & w' & Hpost & Hinv').
  pose proof (tp_spawn _ _ _ _ _ _ _ Hpost) as Hspawn.
  pose proof (tp_run _ _ _ _ _ _ _ Hpost) as Hupd.
  pose proof (tp_poolS _ _ _ _ _ _ _ Hpost) as HpoolS.
  assert (∀ i, i ∈ activeDipoleIndices wS → ∃ d, dipoles wS !! i = Some d) as Hlook.
  { intros i Hi. destruct (pool_inv_lookup wS i HpoolS) as (d & Hd & _); [|by exists d].
    apply (pool_inv_bound wS i HpoolS), elem_of_app. by right. }
  destruct (decide (activeDipoleIndices wS = [])) as [Hnil|Hne].
  - (* nothing to do *)
    destruct (tick_untouched N ts r w rb bb wS w' Hinv Hrun Hfit Hspawn Hupd Hnil)
      as (Hact & Hact' & Hfree & Hds & He & Hr & Hb).
    exists wS, w', rb, bb, []. cbv zeta.
    split; [done|]. split; [done|]. split; [apply Hfit|]. split; [apply Hfit|].
    split; [done|].
    split.
    { split; [|done].
      intros [(i & rest & d0 & _ & _ & _ & Ha & _)|[(i & d & Hi & _)|(i & d & Hi & _)]].
      - rewrite Hnil in Ha. symmetry in Ha. by apply app_eq_nil in Ha as [_ ?].
      - rewrite Hnil in Hi. by apply elem_of_nil in Hi.
      - rewrite Hnil in Hi. by apply elem_of_nil in Hi. }
    split; [split; [discriminate|done]|].
    split.
    { split; [discriminate|].
      intros [(i & rest & d0 & _ & _ & _ & Ha & _)|[(i & d & Hi & _)|(i & d & Hi & _)]].
      - rewrite Hnil in Ha. symmetry in Ha. by apply app_eq_nil in Ha as [_ ?].
      - rewrite Hnil in Hi. by apply elem_of_nil in Hi.
      - rewrite Hnil in Hi. by apply elem_of_nil in Hi. }
    split.
    { intros (i & rest & d0 & _ & _ & _ & Ha & _).
      rewrite Hnil in Ha. symmetry in Ha. by apply app_eq_nil in Ha as [_ ?]. }
    split; [done|]. intros _.
    split; [done|]. split; [done|]. split; [done|].
    split; [by rewrite Hact', Hact|]. done.
  - (* a post *)
    destruct (tick_posted N ts r w rb bb wS w' Hinv Hrun Hfit Hspawn Hupd Hne)
      as (rL & bL & ws & Hshape & Hws & Hidr & Hidb & Hdata).
    set (new := Allocated (S (nextBufferId w)) (maxDipoles w * 16)
                :: Allocated (nextBufferId w) (maxDipoles w * 16)
                :: Posted rL bL :: ws).
    assert (effects w' = new ++ effects w) as Hnew by exact Hshape.
    assert (posts_in new = 1%nat) as Hone.
    { unfold new. rewrite !posts_in_cons, (posts_in_writes_to _ _ Hws). done. }
    assert (∀ i d, i ∈ activeDipoleIndices wS → dipoles wS !! i = Some d →
              (∃ i d,
                 i ∈ activeDipoleIndices wS ∧ dipoles wS !! i = Some d ∧
                 ¬ life (aged (deltaTime_of w ts) (params w) d) <= 0 ∧
                 i ∈ activeDipoleIndices w' ∧ (i ∉ instanceIndices w') ∧
                 dipoles w' !! i = Some (advanced (deltaTime_of w ts) (params w) d) ∧
                 life (advanced (deltaTime_of w ts) (params w) d)
                 = life d - deltaTime_of w ts * speed (params w) ∧
                 Wrote (buf_id rb) (i * 16)
                   (lobeMatrix (advanced (deltaTime_of w ts) (params w) d)
                      (scale_of (aged (deltaTime_of w ts) (params w) d))
                      (matrixOffsetRed w)) ∈ new ∧
                 Wrote (buf_id bb) (i * 16)
                   (lobeMatrix (advanced (deltaTime_of w ts) (params w) d)
                      (scale_of (aged (deltaTime_of w ts) (params w) d))
                      (matrixOffsetBlue w)) ∈ new) ∨
              (∃ i d,
                 i ∈ activeDipoleIndices wS ∧ dipoles wS !! i = Some d ∧
                 life (aged (deltaTime_of w ts) (params w) d) <= 0 ∧
                 (i ∉ activeDipoleIndices w') ∧ i ∈ instanceIndices w' ∧
                 (i ∉ instanceIndices wS) ∧
                 dipoles w' !! i = Some (advanced (deltaTime_of w ts) (params w) d) ∧
                 life (advanced (deltaTime_of w ts) (params w) d) = 0 ∧
                 Wrote (buf_id rb) (i * 16) (lobeMatrix d 0 (matrixOffsetRed w)) ∈ new ∧
                 Wrote (buf_id bb) (i * 16) (lobeMatrix d 0 (matrixOffsetBlue w)) ∈ new))
      as Htouched.
    { intros i d Hi Hd.
      destruct (tick_touched N ts r w rb bb wS w' new i d Hinv Hrun Hfit Hspawn Hupd
                  Hnew Hi Hd) as (Hd' & Hsurv & Hdie).
      destruct (Rle_dec (life (aged (deltaTime_of w ts) (params w) d)) 0) as [Hle|Hgt].
      - right. exists i, d. destruct (Hdie Hle) as (H1 & H2 & H3 & H4 & H5 & H6). done.
      - left. exists i, d. destruct (Hsurv Hgt) as (H1 & H2 & H3 & H4 & H5). done. }
    assert (∃ i d, i ∈ activeDipoleIndices wS ∧ dipoles wS !! i = Some d)
      as (i0 & d0 & Hi0 & Hd0).
    { destruct (activeDipoleIndices wS) as [|i l] eqn:Hact; [done|].
      destruct (Hlook i) as (d & Hd); [left|]. exists i, d. split; [left|done]. }
    exists wS, w', rb, bb, new. cbv zeta.
    split; [done|]. split; [done|]. split; [apply Hfit|]. split; [apply Hfit|].
    split; [done|].
    split; [split; [done|intros _; right; by apply (Htouched i0 d0)]|].
    split; [done|].
    split; [split; [intros _; right; by apply (Htouched i0 d0)|done]|].
    split; [intros _; by apply (Htouched i0 d0)|].
    split; [|done]. intros _.
    exists rL, bL, ws. split; [done|]. split; [done|]. split; [done|].
    split; [by apply (posts_in_writes_to _ _ Hws)|done].
Qed.

Lemma C4_publish_condition_witness :
  let N := 2%nat in
  let ts := 1016 in
  let r := draws_all 0 in
  let w := started_worker in
  (simulationRunning w = false → updateSimulation ts r w = Ok tt w) ∧
  (simulationRunning w = true →
   ∃ wS w' rb bb new,
     let dt := deltaTime_of w ts in
     let p := params w in
     let spawned_ :=
       ∃ i rest d0,
         instanceIndices w = rest ++ [i] ∧ dipoles w !! i = Some d0 ∧
         instanceIndices wS = rest ∧
         activeDipoleIndices wS = activeDipoleIndices w ++ [i] ∧
         dipoles wS !! i = Some (spawned p r i d0) in
     let advanced_ :=
       ∃ i d,
         i ∈ activeDipoleIndices wS ∧ dipoles wS !! i = Some d ∧
         ¬ life (aged dt p d) <= 0 ∧
         i ∈ activeDipoleIndices w' ∧ (i ∉ instanceIndices w') ∧
         dipoles w' !! i = Some (advanced dt p d) ∧
         life (advanced dt p d) = life d - dt * speed p ∧
         Wrote (buf_id rb) (i * 16)
           (lobeMatrix (advanced dt p d) (scale_of (aged dt p d)) (matrixOffsetRed w))
           ∈ new ∧
         Wrote (buf_id bb) (i * 16)
           (lobeMatrix (advanced dt p d) (scale_of (aged dt p d)) (matrixOffsetBlue w))
           ∈ new in
     let died_ :=
       ∃ i d,
         i ∈ activeDipoleIndices wS ∧ dipoles wS !! i = Some d ∧
         life (aged dt p d) <= 0 ∧
         (i ∉ activeDipoleIndices w') ∧ i ∈ instanceIndices w' ∧
         (i ∉ instanceIndices wS) ∧
         dipoles w' !! i = Some (advanced dt p d) ∧
         life (advanced dt p d) = 0 ∧
         Wrote (buf_id rb) (i * 16) (lobeMatrix d 0 (matrixOffsetRed w)) ∈ new ∧
         Wrote (buf_id bb) (i * 16) (lobeMatrix d 0 (matrixOffsetBlue w)) ∈ new in
     spawn r dt (clocked ts w) = Ok tt wS ∧
     updateSimulation ts r w = Ok tt w' ∧
     redMatricesBuffer w = Some rb ∧ blueMatricesBuffer w = Some bb ∧
     effects w' = new ++ effects w ∧
     (spawned_ ∨ advanced_ ∨ died_ ↔ activeDipoleIndices wS ≠ []) ∧
     (posts_in new = 1%nat ↔ activeDipoleIndices wS ≠ []) ∧
     (posts_in new = 1%nat ↔ spawned_ ∨ advanced_ ∨ died_) ∧
     (spawned_ → advanced_ ∨ died_) ∧
     (activeDipoleIndices wS ≠ [] →
        ∃ rL bL rest,
          new = Allocated (S (nextBufferId w)) (maxDipoles w * 16)
                :: Allocated (nextBufferId w) (maxDipoles w * 16)
                :: Posted rL bL :: rest ∧
          buf_id rL = buf_id rb ∧ buf_id bL = buf_id bb ∧ posts_in rest = 0%nat ∧
          ∀ k d, k ∈ activeDipoleIndices wS → dipoles wS !! k = Some d →
            ∀ j, (j < 16)%nat →
              buf_data rL !! (k * 16 + j)%nat
              = lobeMatrix (advanced dt p d) (tick_scale dt p d) (matrixOffsetRed w) !! j ∧
              buf_data bL !! (k * 16 + j)%nat
              = lobeMatrix (advanced dt p d) (tick_scale dt p d) (matrixOffsetBlue w) !! j) ∧
     (activeDipoleIndices wS = [] →
        new = [] ∧ redMatricesBuffer w' = redMatricesBuffer w ∧
        blueMatricesBuffer w' = blueMatricesBuffer w ∧
        activeDipoleIndices w' = activeDipoleIndices w ∧
        instanceIndices w' = instanceIndices w ∧
        ∀ k, dipoles w' !! k = dipoles w !! k)).
Proof.
  intros N ts r w.
  apply (C4_publish_condition 2 1016 (draws_all 0) started_worker).
  apply started_worker_inv.
Defined.

(** C5 — Spawn gating.  In a tick of a running simulation the spawn
    decision always returns normally, and it adds at most one particle: the
    active list after it is the active list before it, or that list with
    one slot appended, taken from the end of the free list; the loop that
    follows adds none.  A particle is spawned exactly when the free list is
    not empty and the single draw [rSpawn] is below
    [creationProbability * deltaTime] (also when that product is 1 or
    more).  When the free list is empty, or the draw is not below the
    product, the spawn decision changes nothing. *)
Theorem C5_spawn_gating (N : nat) (ts : R) (r : Draws) (w : Worker) :
  sim_inv N w → simulationRunning w = true →
  ∃ wS w',
    let dt := deltaTime_of w ts in
    let chance := creationProbability (params w) * dt in
    spawn r dt (clocked ts w) = Ok tt wS ∧
    updateSimulation ts r w = Ok tt w' ∧
    (length (activeDipoleIndices wS) ≤ length (activeDipoleIndices w) + 1)%nat ∧
    (length (activeDipoleIndices w') ≤ length (activeDipoleIndices w) + 1)%nat ∧
    (∀ k, k ∈ activeDipoleIndices w' → k ∈ activeDipoleIndices wS) ∧
    (activeDipoleIndices wS ≠ activeDipoleIndices w ↔
       instanceIndices w ≠ [] ∧ rSpawn r < chance) ∧
    (instanceIndices w ≠ [] → rSpawn r < chance →
       ∃ i rest, instanceIndices w = rest ++ [i] ∧ instanceIndices wS = rest ∧
                 activeDipoleIndices wS = activeDipoleIndices w ++ [i]) ∧
    (instanceIndices w = [] ∨ ¬ rSpawn r < chance → wS = clocked ts w).
Proof.
  intros Hinv Hrun.
  destruct (si_fits _ _ Hinv) as (rb & bb & Hfit).
  destruct (tick_spec N ts r w rb bb Hinv Hrun Hfit) as (wS & w' & Hpost & Hinv').
  destruct Hpost as [Hspawn Heq HpoolS HparS _ Hkeep Hin Hout Hact Hfree _].
  exists wS, w'. simpl.
  split; [done|]. split; [done|].
  assert (∀ k, k ∈ activeDipoleIndices w' → k ∈ activeDipoleIndices wS) as Hsub.
  { intros k Hk. rewrite Hact in Hk. by apply list_elem_of_filter in Hk as [_ ?]. }
  assert (length (activeDipoleIndices w') ≤ length (activeDipoleIndices wS))%nat as Hlen.
  { rewrite Hact. apply length_filter. }
  destruct (spawn_cases r (deltaTime_of w ts) (clocked ts w) rb bb
              (clocked_pool_inv ts w (si_pool _ _ Hinv)) (clocked_fit ts w rb bb Hfit))
    as [[HeqS Hwhy]|(i & rest & d0 & Hlt & Hfr & _ & _ & _ & HeqS)];
    rewrite HeqS in Hspawn; injection Hspawn as <-; simpl in *.
  - split; [lia|]. split; [lia|]. split; [done|]. split; [|split; [|done]].
    + split; [done|]. intros [Hne Hlt]. destruct Hwhy; done.
    + intros Hne Hlt. destruct Hwhy; done.
  - rewrite length_app in *. simpl in *.
    split; [lia|]. split; [lia|]. split; [done|]. split; [|split].
    + split.
      * intros _. split; [|done]. rewrite Hfr. intros Hnil.
        by apply app_eq_nil in Hnil as [_ ?].
      * intros _ Heq'. apply (f_equal length) in Heq'.
        rewrite length_app in Heq'. simpl in Heq'. lia.
    + intros _ _. by exists i, rest.
    + intros [Hnil|Hge]; [|done]. rewrite Hfr in Hnil.
      by apply app_eq_nil in Hnil as [_ ?].
Qed.

Lemma C5_spawn_gating_witness :
  let N := 2%nat in
  let ts := 1016 in
  let r := draws_all 0 in
  let w := started_worker in
  ∃ wS w',
    let dt := deltaTime_of w ts in
    let chance := creationProbability (params w) * dt in
    spawn r dt (clocked ts w) = Ok tt wS ∧
    updateSimulation ts r w = Ok tt w' ∧
    (length (activeDipoleIndices wS) ≤ length (activeDipoleIndices w) + 1)%nat ∧
    (length (activeDipoleIndices w') ≤ length (activeDipoleIndices w) + 1)%nat ∧
    (∀ k, k ∈ activeDipoleIndices w' → k ∈ activeDipoleIndices wS) ∧
    (activeDipoleIndices wS ≠ activeDipoleIndices w ↔
       instanceIndices w ≠ [] ∧ rSpawn r < chance) ∧
    (instanceIndices w ≠ [] → rSpawn r < chance →
       ∃ i rest, instanceIndices w = rest ++ [i] ∧ instanceIndices wS = rest ∧
                 activeDipoleIndices wS = activeDipoleIndices w ++ [i]) ∧
    (instanceIndices w = [] ∨ ¬ rSpawn r < chance → wS = clocked ts w).
Proof.
  intros N ts r w.
  apply (C5_spawn_gating 2 1016 (draws_all 0) started_worker).
  - apply started_worker_inv.
  - reflexivity.
Defined.

(** ** Spawn initialisation *)

Lemma normalize_unit out a :
  0 < Vec3.norm2 a → Vec3.norm2 (Vec3.normalize out a) = 1.
Proof.
  unfold Vec3.norm2, Vec3.normalize. intros Hpos.
  destruct (Rlt_dec 0 _) as [_|Hn]; [|done]. simpl.
  assert (sqrt (vx a * vx a + vy a * vy a + vz a * vz a)
          * sqrt (vx a * vx a + vy a * vy a + vz a * vz a)
          = vx a * vx a + vy a * vy a + vz a * vz a) as Hsq by (apply sqrt_sqrt; lra).
  assert (0 < sqrt (vx a * vx a + vy a * vy a + vz a * vz a)) as Hs
    by (by apply sqrt_lt_R0).
  revert Hsq Hs. generalize (sqrt (vx a * vx a + vy a * vy a + vz a * vz a)).
  intros s Hsq Hs.
  replace (vx a * (1 / s) * (vx a * (1 / s)) + vy a * (1 / s) * (vy a * (1 / s)) +
           vz a * (1 / s) * (vz a * (1 / s)))
    with ((vx a * vx a + vy a * vy a + vz a * vz a) / (s * s)) by (field; lra).
  rewrite Hsq. field. lra.
Qed.

Lemma normalize_zero out a :
  Vec3.norm2 a = 0 → Vec3.normalize out a = out.
Proof.
  unfold Vec3.norm2, Vec3.normalize. intros H.
  destruct (Rlt_dec 0 _) as [Hlt|_]; [lra|done].
Qed.

Lemma centred_norm2 r :
  Vec3.norm2 (Vec3.set (rAxisX r - 1/2) (rAxisY r - 1/2) (rAxisZ r - 1/2)) = 0
  ↔ axis_draws_centred r.
Proof.
  unfold Vec3.norm2, axis_draws_centred. simpl. split.
  - intros H.
    pose proof (Rle_0_sqr (rAxisX r - 1/2)) as Hx.
    pose proof (Rle_0_sqr (rAxisY r - 1/2)) as Hy.
    pose proof (Rle_0_sqr (rAxisZ r - 1/2)) as Hz.
    unfold Rsqr in Hx, Hy, Hz.
    assert ((rAxisX r - 1/2) * (rAxisX r - 1/2) = 0) as Hx0 by lra.
    assert ((rAxisY r - 1/2) * (rAxisY r - 1/2) = 0) as Hy0 by lra.
    assert ((rAxisZ r - 1/2) * (rAxisZ r - 1/2) = 0) as Hz0 by lra.
    apply Rmult_integral in Hx0, Hy0, Hz0.
    repeat split; lra.
  - intros (-> & -> & ->). lra.
Qed.

Lemma norm2_nonneg a : 0 <= Vec3.norm2 a.
Proof. unfold Vec3.norm2. nra. Qed.

Lemma scale_bounds B v x :
  0 < B → 0 <= v → 0 <= x < 1 →
  (B * (1 - v) <= B * (1 + (x - 1/2) * 2 * v) <= B * (1 + v)) ∧
  (0 < v → B * (1 + (x - 1/2) * 2 * v) < B * (1 + v)).
Proof.
  intros HB Hv [Hx0 Hx1].
  assert (- v <= (x - 1/2) * 2 * v <= v) as [Hlo Hhi] by (split; nra).
  assert (0 < v → (x - 1/2) * 2 * v < v) as Hst by (intros; nra).
  revert Hlo Hhi Hst. generalize ((x - 1/2) * 2 * v). intros t Hlo Hhi Hst.
  split; [split|intros Hpos].
  - apply Rmult_le_compat_l; lra.
  - apply Rmult_le_compat_l; lra.
  - apply Rmult_lt_compat_l; [lra|]. specialize (Hst Hpos). lra.
Qed.

Lemma draws_all_valid x : 0 <= x < 1 → valid_draws (draws_all x).
Proof. intros H. by split. Qed.

(** C6, as stated, fails.  (1) A valid RNG outcome, all draws equal to one
    half, makes [createDipole] hand the zero vector to [Vec3.normalize],
    which leaves the axis of the slot as it was, here the zero vector of a
    fresh slot: the new particle has no normalised spin axis.  (2) With
    [scaleVariance = 0] the peak scale is [maxScaleBase], outside the empty
    half-open interval [maxScaleBase * [1, 1)]. *)
Lemma C6_spawn_initialization_counterexample :
  (let w := initialised 2 page_params page_lobeOffset loaded in
   let r := draws_all (1/2) in
   valid_draws r ∧
   ∃ w' d, createDipole r w = Ok tt w' ∧
           1%nat ∈ activeDipoleIndices w' ∧ dipoles w' !! 1%nat = Some d ∧
           Vec3.norm2 (axis d) ≠ 1) ∧
  (let p := mkParams 4 1 400 (1/2) 0 (1/2) in
   let w := initialised 2 p page_lobeOffset loaded in
   let r := draws_all (1/4) in
   valid_draws r ∧
   ∃ w' d, createDipole r w = Ok tt w' ∧
           1%nat ∈ activeDipoleIndices w' ∧ dipoles w' !! 1%nat = Some d ∧
           ¬ (maxScaleBase p * (1 - scaleVariance p) <= maxScale d
              < maxScaleBase p * (1 + scaleVariance p))).
Proof.
  split.
  - intros w r. split; [apply draws_all_valid; lra|].
    destruct (si_fits _ _ (initialised_inv 2 page_params page_lobeOffset loaded))
      as (rb & bb & Hfit).
    eexists _, _. split.
    { apply (createDipole_eq r w 1 [0%nat] (fresh_dipole 1) rb bb); try done.
      simpl. lia. }
    split; [simpl; by apply list_elem_of_singleton|].
    split; [reflexivity|]. simpl.
    rewrite normalize_zero.
    + unfold Vec3.norm2. simpl. lra.
    + unfold Vec3.norm2. simpl. lra.
  - intros p w r. split; [apply draws_all_valid; lra|].
    destruct (si_fits _ _ (initialised_inv 2 p page_lobeOffset loaded))
      as (rb & bb & Hfit).
    eexists _, _. split.
    { apply (createDipole_eq r w 1 [0%nat] (fresh_dipole 1) rb bb); try done.
      simpl. lia. }
    split; [simpl; by apply list_elem_of_singleton|].
    split; [reflexivity|]. simpl. lra.
Qed.

(** C6, amended — Spawn initialisation.  With a positive configured
    lifetime, a positive base scale and a nonnegative scale variance, for
    every RNG outcome [createDipole] on a pool with a free slot returns
    normally and gives the particle in the slot taken from the end of the
    free list: a [life] in [[0.8, 1.2) * dipoleLifetime] with [maxLife]
    equal to it; a peak scale in
    [maxScaleBase * [1 - scaleVariance, 1 + scaleVariance]], below the
    upper end when the variance is positive; each position coordinate in
    [[-4, 4)]; a spin axis of length 1 unless the three axis draws all
    equal one half, in which case the slot keeps the axis it had; and it
    writes at once both lobe transforms of the slot with uniform scale
    0.001. *)
Theorem C6_spawn_initialization (r : Draws) (w : Worker) (rb bb : Buffer)
    (i : nat) (rest : list nat) :
  pool_inv w → bufs_fit w rb bb →
  instanceIndices w = rest ++ [i] →
  0 < dipoleLifetime (params w) →
  0 < maxScaleBase (params w) →
  0 <= scaleVariance (params w) →
  valid_draws r →
  ∃ d0 d w',
    let p := params w in
    dipoles w !! i = Some d0 ∧
    createDipole r w = Ok tt w' ∧
    dipoles w' !! i = Some d ∧
    instanceIndices w' = rest ∧
    activeDipoleIndices w' = activeDipoleIndices w ++ [i] ∧
    (8/10 * dipoleLifetime p <= life d < 12/10 * dipoleLifetime p) ∧
    maxLife d = life d ∧
    (maxScaleBase p * (1 - scaleVariance p) <= maxScale d
       <= maxScaleBase p * (1 + scaleVariance p)) ∧
    (0 < scaleVariance p → maxScale d < maxScaleBase p * (1 + scaleVariance p)) ∧
    (-4 <= vx (position d) < 4) ∧
    (-4 <= vy (position d) < 4) ∧
    (-4 <= vz (position d) < 4) ∧
    (¬ axis_draws_centred r → Vec3.norm2 (axis d) = 1) ∧
    (axis_draws_centred r → axis d = axis d0) ∧
    effects w'
    = Wrote (buf_id bb) (i * 16)
        (Mat4.multiply
           (Mat4.compose (position d) (quaternion d) (Vec3.set (1/1000) (1/1000) (1/1000)))
           (matrixOffsetBlue w))
      :: Wrote (buf_id rb) (i * 16)
           (Mat4.multiply
              (Mat4.compose (position d) (quaternion d)
                 (Vec3.set (1/1000) (1/1000) (1/1000)))
              (matrixOffsetRed w))
      :: effects w.
Proof.
  intros Hinv Hfit Hfree HL HB HV [_ [Hl0 Hl1] [Hs0 Hs1] _ _ _ [Hx0 Hx1] [Hy0 Hy1]
                                    [Hz0 Hz1] _ _ _].
  assert (i < maxDipoles w)%nat as Hi.
  { apply (pool_inv_bound w i Hinv). rewrite Hfree.
    apply elem_of_app. left. apply elem_of_app. right. by apply list_elem_of_singleton. }
  destruct (pool_inv_lookup w i Hinv Hi) as (d0 & Hd0 & _).
  exists d0, (spawned (params w) r i d0), (created r i rest d0 rb bb w).
  simpl.
  split; [done|]. split; [by apply createDipole_eq|].
  split.
  { apply list_lookup_insert_eq. by apply lookup_lt_Some in Hd0. }
  split; [done|]. split; [done|].
  split; [nra|]. split; [done|].
  destruct (scale_bounds (maxScaleBase (params w)) (scaleVariance (params w))
              (rScale r) HB HV (conj Hs0 Hs1)) as [Hsc Hsc'].
  split; [exact Hsc|]. split; [exact Hsc'|].
  split; [lra|]. split; [lra|]. split; [lra|].
  split.
  { intros Hnc. apply normalize_unit.
    pose proof (norm2_nonneg
                  (Vec3.set (rAxisX r - 1/2) (rAxisY r - 1/2) (rAxisZ r - 1/2))) as Hge.
    destruct (Req_dec (Vec3.norm2
                (Vec3.set (rAxisX r - 1/2) (rAxisY r - 1/2) (rAxisZ r - 1/2))) 0)
      as [H0|Hne]; [|lra].
    by apply centred_norm2 in H0. }
  split; [|done].
  intros Hc. apply normalize_zero. by apply centred_norm2.
Qed.

Lemma C6_spawn_initialization_witness :
  let r := draws_all (1/4) in
  let w := initialised 2 page_params page_lobeOffset loaded in
  let rb := mkBuffer 2 (zeros 2) in
  let bb := mkBuffer 3 (zeros 2) in
  let i := 1%nat in
  let rest := [0%nat] in
  ∃ d0 d w',
    let p := params w in
    dipoles w !! i = Some d0 ∧
    createDipole r w = Ok tt w' ∧
    dipoles w' !! i = Some d ∧
    instanceIndices w' = rest ∧
    activeDipoleIndices w' = activeDipoleIndices w ++ [i] ∧
    (8/10 * dipoleLifetime p <= life d < 12/10 * dipoleLifetime p) ∧
    maxLife d = life d ∧
    (maxScaleBase p * (1 - scaleVariance p) <= maxScale d
       <= maxScaleBase p * (1 + scaleVariance p)) ∧
    (0 < scaleVariance p → maxScale d < maxScaleBase p * (1 + scaleVariance p)) ∧
    (-4 <= vx (position d) < 4) ∧
    (-4 <= vy (position d) < 4) ∧
    (-4 <= vz (position d) < 4) ∧
    (¬ axis_draws_centred r → Vec3.norm2 (axis d) = 1) ∧
    (axis_draws_centred r → axis d = axis d0) ∧
    effects w'
    = Wrote (buf_id bb) (i * 16)
        (Mat4.multiply
           (Mat4.compose (position d) (quaternion d) (Vec3.set (1/1000) (1/1000) (1/1000)))
           (matrixOffsetBlue w))
      :: Wrote (buf_id rb) (i * 16)
           (Mat4.multiply
              (Mat4.compose (position d) (quaternion d)
                 (Vec3.set (1/1000) (1/1000) (1/1000)))
              (matrixOffsetRed w))
      :: effects w.
Proof.
  intros r w rb bb i rest.
  apply (C6_spawn_initialization r w rb bb i rest).
  - apply (si_pool _ _ (initialised_inv 2 page_params page_lobeOffset loaded)).
  - split; simpl; rewrite ?zeros_length; (done || lia).
  - reflexivity.
  - simpl. lra.
  - simpl. lra.
  - simpl. lra.
  - apply draws_all_valid. lra.
Defined.

(** ** The envelope *)

Lemma envelope_bound q peak :
  0 <= q <= 1 → Rabs (sin (q * PI) * peak) <= PI * (1 - q) * Rabs peak.
Proof.
  intros [Hq0 Hq1]. pose proof PI_RGT_0 as Hpi.
  assert (0 <= sin (q * PI) <= PI * (1 - q)) as [Hs0 Hs1].
  { rewrite <- (sin_PI_x (q * PI)).
    replace (PI - q * PI) with (PI * (1 - q)) by ring.
    assert (0 <= PI * (1 - q)) as Hx0 by (apply Rmult_le_pos; lra).
    assert (PI * (1 - q) <= PI) as Hx1 by nra.
    split; [by apply sin_ge_0|].
    destruct (Req_dec (PI * (1 - q)) 0) as [->|Hne].
    - rewrite sin_0. lra.
    - left. apply sin_lt_x. lra. }
  rewrite Rabs_mult, (Rabs_pos_eq _ Hs0).
  apply Rmult_le_compat_r; [apply Rabs_pos|done].
Qed.

Lemma envelope_peak peak : sin (1/2 * PI) * peak = peak.
Proof. replace (1/2 * PI) with (PI / 2) by field. rewrite sin_PI2. ring. Qed.

Lemma envelope_start peak : sin (0 * PI) * peak = 0.
Proof. rewrite Rmult_0_l, sin_0. ring. Qed.

Lemma spawn_aging r dt w wS rb bb :
  pool_inv w → bufs_fit w rb bb → aging_inv w →
  spawn r dt w = Ok tt wS → aging_inv wS.
Proof.
  intros Hinv Hfit Hag Hspawn.
  destruct (spawn_frame r dt w wS rb bb Hinv Hfit Hspawn) as (_ & _ & _ & _ & _ & Hkeep).
  destruct (spawn_cases r dt w rb bb Hinv Hfit)
    as [[Heq _]|(i & rest & d0 & _ & Hfree & Hd0 & _ & _ & Heq)];
    rewrite Heq in Hspawn; injection Hspawn as <-; [done|].
  intros k d Hk Hd. simpl in Hk. apply elem_of_app in Hk as [Hk|Hk].
  - destruct (Hkeep k Hk) as [_ Hsame]. rewrite Hsame in Hd. by apply (Hag k d).
  - apply list_elem_of_singleton in Hk as ->. simpl in Hd.
    rewrite list_lookup_insert_eq in Hd by (by apply lookup_lt_Some in Hd0).
    injection Hd as <-. simpl. lra.
Qed.

(** A callback that comes with a timestamp 116 ms before the last one,
    for a worker whose only active particle, in slot 1, has 3.184 s of its
    3.2 s left. *)
Lemma late_callback N w d :
  sim_inv N w → simulationRunning w = true →
  lastTimestamp w = 1016 → params w = page_params →
  activeDipoleIndices w = [1%nat] → dipoles w !! 1%nat = Some d →
  life d = 3184/1000 → maxLife d = 32/10 →
  let w1 := dequeued w in
  let dt := deltaTime_of w1 900 in
  let p := params w1 in
  dt = -116/1000 ∧
  ∃ wS w' rb new,
    spawn (draws_all 0) dt (clocked 900 w1) = Ok tt wS ∧
    updateSimulation 900 (draws_all 0) w1 = Ok tt w' ∧
    redMatricesBuffer w1 = Some rb ∧ effects w' = new ++ effects w1 ∧
    1%nat ∈ activeDipoleIndices wS ∧ dipoles wS !! 1%nat = Some d ∧
    life (aged dt p d) = 33/10 ∧
    dipoles w' !! 1%nat = Some (advanced dt p d) ∧
    Wrote (buf_id rb) 16
      (lobeMatrix (advanced dt p d) (scale_of (aged dt p d)) (matrixOffsetRed w1)) ∈ new.
Proof.
  intros Hinv Hrun Hts Hpar Hact Hd Hl Hm w1 dt p.
  apply (dequeued_inv N) in Hinv. fold w1 in Hinv.
  assert (simulationRunning w1 = true) as Hrun1 by exact Hrun.
  assert (dt = -116/1000) as Hdt.
  { unfold dt, deltaTime_of, w1. simpl. rewrite Hts.
    destruct (Rlt_dec 0 1016) as [_|Hn]; [lra|]. exfalso. apply Hn. lra. }
  assert (p = page_params) as Hp by exact Hpar.
  split; [exact Hdt|].
  destruct (si_fits _ _ Hinv) as (rb & bb & Hfit).
  destruct (tick_spec N 900 (draws_all 0) w1 rb bb Hinv Hrun1 Hfit)
    as (wS & w' & Hpost & Hinv').
  destruct Hpost as [Hspawn Heq _ _ (newS & HeS) _ Hin _ _ _ (pub & new & He & _ & Hnew)].
  fold dt in Hspawn, Hin, Hnew. fold p in Hin, Hnew.
  assert (spawn (draws_all 0) dt (clocked 900 w1) = Ok tt (clocked 900 w1)) as Hskip.
  { apply spawn_skip. left. change (params (clocked 900 w1)) with p.
    rewrite Hp, Hdt. simpl. lra. }
  rewrite Hskip in Hspawn. injection Hspawn as <-.
  assert (1%nat ∈ activeDipoleIndices (clocked 900 w1)) as H1.
  { change (1%nat ∈ activeDipoleIndices w). rewrite Hact. by apply list_elem_of_singleton. }
  assert (dipoles (clocked 900 w1) !! 1%nat = Some d) as Hd' by exact Hd.
  assert (life (aged dt p d) = 33/10) as Hlife.
  { simpl. rewrite Hl, Hdt, Hp. simpl. lra. }
  exists (clocked 900 w1), w', rb, (pub ++ new ++ newS).
  split; [exact Hskip|]. split; [exact Heq|]. split; [apply Hfit|].
  split; [by rewrite He, HeS, <- !app_assoc|].
  split; [exact H1|]. split; [exact Hd'|]. split; [exact Hlife|].
  split; [by apply Hin|].
  apply elem_of_app. right. apply elem_of_app. left. rewrite Hnew.
  destruct (written_in_tick dt p (dipoles (clocked 900 w1))
              (matrixOffsetRed w1) (matrixOffsetBlue w1) (buf_id rb) (buf_id bb)
              (activeDipoleIndices (clocked 900 w1)) 1 d H1 Hd') as [Hw _].
  rewrite lobeMatrix_survives in Hw; [exact Hw|].
  change (life d - dt * speed p) with (life (aged dt p d)). lra.
Qed.

(** C7, as stated, fails: the progress of a surviving particle need not be
    in [[0, 1)].  The started worker spawns a particle at 1016 ms; when the
    next callback carries the earlier timestamp 900 ms, the elapsed time is
    negative, the particle's [life] (3.3 s) exceeds its [maxLife] (3.2 s),
    the particle survives, and the transforms written for it use the scale
    [sin(p * PI) * maxScale] with a negative progress [p]. *)
Lemma C7_scale_envelope_counterexample :
  let w1 := dequeued (step (Frame 1016 (draws_all 0)) started_worker) in
  let dt := deltaTime_of w1 900 in
  let p := params w1 in
  ∃ wS w' d rb new,
    spawn (draws_all 0) dt (clocked 900 w1) = Ok tt wS ∧
    updateSimulation 900 (draws_all 0) w1 = Ok tt w' ∧
    redMatricesBuffer w1 = Some rb ∧ effects w' = new ++ effects w1 ∧
    1%nat ∈ activeDipoleIndices wS ∧ dipoles wS !! 1%nat = Some d ∧
    0 < life (aged dt p d) ∧
    Wrote (buf_id rb) 16
      (lobeMatrix (advanced dt p d) (scale_of (aged dt p d)) (matrixOffsetRed w1)) ∈ new ∧
    scale_of (aged dt p d) = sin (progress_of (aged dt p d) * PI) * maxScale d ∧
    ¬ (0 <= progress_of (aged dt p d) < 1).
Proof.
  destruct first_tick as (Hinv & Hrun & Hts & Hpar & _ & Hact & _ & d & Hd & Hl & Hm).
  destruct (late_callback 2 _ d Hinv Hrun Hts Hpar Hact Hd Hl Hm)
    as (Hdt & wS & w' & rb & new & Hspawn & Heq & Hrb & He & H1 & Hd' & Hlife & _ & Hw).
  intros w1 dt p. exists wS, w', d, rb, new.
  split; [exact Hspawn|]. split; [exact Heq|]. split; [exact Hrb|]. split; [exact He|].
  split; [exact H1|]. split; [exact Hd'|].
  split; [unfold dt, p, w1; rewrite Hlife; lra|].
  split; [exact Hw|]. split; [reflexivity|].
  intros [H0 _]. revert H0. unfold progress_of, dt, p, w1. rewrite Hlife.
  generalize (deltaTime_of
                (dequeued (step (Frame 1016 (draws_all 0)) started_worker)) 900).
  generalize (params (dequeued (step (Frame 1016 (draws_all 0)) started_worker))).
  intros p0 dt0. change (maxLife (aged dt0 p0 d)) with (maxLife d). rewrite Hm.
  intros H0.
  assert ((32/10 - 33/10) / (32/10) = -1/32) as Hv by field.
  rewrite Hv in H0. lra.
Qed.

(** C7, amended — Scale envelope.  In a tick of a running simulation,
    every particle of the active list after the spawn decision that
    survives the tick (its [life] is positive after the decrement) gets
    both its lobe transforms written with the scale
    [sin(p * PI) * maxScale], where [p = (maxLife - life) / maxLife] is
    taken after the decrement.  Provided no active particle has more life
    than its [maxLife] and the elapsed time times the speed is not
    negative (which then also holds of the particles at the end of the
    tick, so of every tick of a run whose ticks all have nonnegative
    [deltaTime * speed]), [p] is in [[0, 1)].  The envelope is exactly the
    peak scale at [p = 0.5], is 0 at [p = 0], and is at most
    [PI * (1 - p) * |peak|] in absolute value, so it tends to 0 as [p]
    approaches 1. *)
Theorem C7_scale_envelope (N : nat) (ts : R) (r : Draws) (w : Worker) :
  sim_inv N w → simulationRunning w = true →
  aging_inv w →
  0 <= deltaTime_of w ts * speed (params w) →
  ∃ wS w' rb bb new,
    let dt := deltaTime_of w ts in
    let p := params w in
    spawn r dt (clocked ts w) = Ok tt wS ∧
    updateSimulation ts r w = Ok tt w' ∧
    redMatricesBuffer w = Some rb ∧ blueMatricesBuffer w = Some bb ∧
    effects w' = new ++ effects w ∧
    aging_inv w' ∧
    (∀ i d, i ∈ activeDipoleIndices wS → dipoles wS !! i = Some d →
       0 < life d - dt * speed p →
       let d1 := aged dt p d in
       let progress := (maxLife d1 - life d1) / maxLife d1 in
       let scale := sin (progress * PI) * maxScale d1 in
       0 <= progress < 1 ∧
       ∃ d', dipoles w' !! i = Some d' ∧ i ∈ activeDipoleIndices w' ∧
             life d' = life d1 ∧ maxLife d' = maxLife d ∧ maxScale d' = maxScale d ∧
             Wrote (buf_id rb) (i * 16) (lobeMatrix d' scale (matrixOffsetRed w)) ∈ new ∧
             Wrote (buf_id bb) (i * 16) (lobeMatrix d' scale (matrixOffsetBlue w)) ∈ new) ∧
    (∀ peak, sin (1/2 * PI) * peak = peak ∧ sin (0 * PI) * peak = 0 ∧
             ∀ q, 0 <= q <= 1 → Rabs (sin (q * PI) * peak) <= PI * (1 - q) * Rabs peak).
Proof.
  intros Hinv Hrun Hag Hdt.
  destruct (si_fits _ _ Hinv) as (rb & bb & Hfit).
  destruct (tick_spec N ts r w rb bb Hinv Hrun Hfit) as (wS & w' & Hpost & Hinv').
  destruct Hpost as [Hspawn Heq HpoolS HparS (newS & HeS) Hkeep Hin Hout Hact Hfree
                       (pub & new & He & _ & Hnew)].
  assert (aging_inv wS) as HagS.
  { apply (spawn_aging r (deltaTime_of w ts) (clocked ts w) wS rb bb); try done.
    - apply clocked_pool_inv, Hinv.
    - by apply clocked_fit. }
  exists wS, w', rb, bb, (pub ++ new ++ newS). simpl.
  split; [done|]. split; [done|]. split; [apply Hfit|]. split; [apply Hfit|].
  split; [by rewrite He, HeS, <- !app_assoc|].
  split.
  { intros k d' Hk Hd'. rewrite Hact in Hk.
    apply list_elem_of_filter in Hk as [Hsurv Hk].
    destruct (pool_inv_lookup wS k HpoolS) as (d & Hd & _).
    { apply (pool_inv_bound wS k HpoolS), elem_of_app. by right. }
    rewrite (Hin k d Hk Hd) in Hd'. injection Hd' as <-.
    unfold dies in Hsurv. rewrite Hd in Hsurv.
    rewrite advanced_life_survives by done. rewrite advanced_maxLife.
    pose proof (HagS k d Hk Hd). lra. }
  split; [|intros peak; split; [apply envelope_peak|split;
                                 [apply envelope_start|intros q; apply envelope_bound]]].
  intros i d Hi Hd Hpos.
  assert (¬ life d - deltaTime_of w ts * speed (params w) <= 0) as Hsurv by lra.
  split.
  { pose proof (HagS i d Hi Hd) as Hle.
    assert (0 < maxLife d) as Hm by lra.
    split.
    - apply Rmult_le_pos; [lra|]. left. by apply Rinv_0_lt_compat.
    - apply (Rmult_lt_reg_r (maxLife d)); [done|].
      unfold Rdiv. rewrite Rmult_assoc, Rinv_l by lra. lra. }
  exists (advanced (deltaTime_of w ts) (params w) d).
  split; [by apply Hin|].
  split.
  { rewrite Hact. apply list_elem_of_filter. split; [|done].
    unfold dies. by rewrite Hd. }
  split; [by apply advanced_life_survives|].
  split; [apply advanced_maxLife|]. split; [apply advanced_maxScale|].
  destruct (written_in_tick (deltaTime_of w ts) (params w) (dipoles wS)
              (matrixOffsetRed w) (matrixOffsetBlue w) (buf_id rb) (buf_id bb)
              (activeDipoleIndices wS) i d Hi Hd) as [Hwr Hwb].
  rewrite !lobeMatrix_survives in Hwr, Hwb by done. rewrite <- Hnew in Hwr, Hwb.
  split; apply elem_of_app; right; apply elem_of_app; by left.
Qed.

Lemma started_worker_aging : aging_inv started_worker.
Proof. intros i d Hi. by apply elem_of_nil in Hi. Qed.

Lemma C7_scale_envelope_witness :
  let N := 2%nat in
  let ts := 1016 in
  let r := draws_all 0 in
  let w := started_worker in
  ∃ wS w' rb bb new,
    let dt := deltaTime_of w ts in
    let p := params w in
    spawn r dt (clocked ts w) = Ok tt wS ∧
    updateSimulation ts r w = Ok tt w' ∧
    redMatricesBuffer w = Some rb ∧ blueMatricesBuffer w = Some bb ∧
    effects w' = new ++ effects w ∧
    aging_inv w' ∧
    (∀ i d, i ∈ activeDipoleIndices wS → dipoles wS !! i = Some d →
       0 < life d - dt * speed p →
       let d1 := aged dt p d in
       let progress := (maxLife d1 - life d1) / maxLife d1 in
       let scale := sin (progress * PI) * maxScale d1 in
       0 <= progress < 1 ∧
       ∃ d', dipoles w' !! i = Some d' ∧ i ∈ activeDipoleIndices w' ∧
             life d' = life d1 ∧ maxLife d' = maxLife d ∧ maxScale d' = maxScale d ∧
             Wrote (buf_id rb) (i * 16) (lobeMatrix d' scale (matrixOffsetRed w)) ∈ new ∧
             Wrote (buf_id bb) (i * 16) (lobeMatrix d' scale (matrixOffsetBlue w)) ∈ new) ∧
    (∀ peak, sin (1/2 * PI) * peak = peak ∧ sin (0 * PI) * peak = 0 ∧
             ∀ q, 0 <= q <= 1 → Rabs (sin (q * PI) * peak) <= PI * (1 - q) * Rabs peak).
Proof.
  intros N ts r w.
  apply (C7_scale_envelope 2 1016 (draws_all 0) started_worker).
  - apply started_worker_inv.
  - reflexivity.
  - apply started_worker_aging.
  - rewrite started_worker_dt. simpl. lra.
Defined.

(** ** Ticks without a spawn *)

Lemma tick_no_spawn N ts r w :
  sim_inv N w → simulationRunning w = true →
  ¬ rSpawn r < creationProbability (params w) * deltaTime_of w ts →
  ∃ w',
    let dt := deltaTime_of w ts in
    let p := params w in
    spawn r dt (clocked ts w) = Ok tt (clocked ts w) ∧
    updateSimulation ts r w = Ok tt w' ∧ sim_inv N w' ∧
    (∀ i d, i ∈ activeDipoleIndices w → dipoles w !! i = Some d →
       dipoles w' !! i = Some (advanced dt p d)) ∧
    (∀ i, i ∉ activeDipoleIndices w → dipoles w' !! i = dipoles w !! i) ∧
    activeDipoleIndices w'
    = filter (λ k, ¬ dies dt p (dipoles w) k) (activeDipoleIndices w) ∧
    instanceIndices w'
    = instanceIndices w ++ reverse (filter (dies dt p (dipoles w)) (activeDipoleIndices w)).
Proof.
  intros Hinv Hrun Hno.
  destruct (si_fits _ _ Hinv) as (rb & bb & Hfit).
  destruct (tick_spec N ts r w rb bb Hinv Hrun Hfit) as (wS & w' & Hpost & Hinv').
  destruct Hpost as [Hspawn Heq _ _ _ _ Hin Hout Hact Hfree _].
  assert (spawn r (deltaTime_of w ts) (clocked ts w) = Ok tt (clocked ts w)) as Hskip.
  { apply spawn_skip. by left. }
  rewrite Hskip in Hspawn. injection Hspawn as <-.
  exists w'. simpl. by repeat (split; [done|]).
Qed.

Lemma filter_all {A} (P : A → Prop) `{∀ x, Decision (P x)} (l : list A) :
  (∀ x, x ∈ l → P x) → filter P l = l.
Proof.
  induction l as [|a l IH]; intros Hall; [done|].
  rewrite filter_cons_True by (apply Hall; left). f_equal. apply IH.
  intros x Hx. apply Hall. by right.
Qed.

Lemma filter_none {A} (P : A → Prop) `{∀ x, Decision (P x)} (l : list A) :
  (∀ x, x ∈ l → ¬ P x) → filter P l = [].
Proof.
  induction l as [|a l IH]; intros Hall; [done|].
  rewrite filter_cons_False by (apply Hall; left). apply IH.
  intros x Hx. apply Hall. by right.
Qed.

Lemma multiply_identity_rotation a q :
  Quat.multiply (Quat.setFromAxisAngle a 0) q = q.
Proof.
  unfold Quat.multiply, Quat.setFromAxisAngle. destruct q as [x y z t]. simpl.
  replace (0 / 2) with 0 by field. rewrite sin_0, cos_0. f_equal; ring.
Qed.

Lemma advanced_zero p d : 0 < life d → advanced 0 p d = d.
Proof.
  intros Hpos. unfold advanced. simpl.
  destruct (Rle_dec (life d - 0 * speed p) 0) as [Hle|_]; [lra|].
  destruct d as [l m s a i pos q]. unfold with_quaternion, aged, with_life. simpl.
  rewrite !Rmult_0_l, multiply_identity_rotation. f_equal. ring.
Qed.

(** A tick with zero elapsed time leaves the pool as it is. *)
Lemma tick_zero N ts r w :
  sim_inv N w → simulationRunning w = true →
  deltaTime_of w ts = 0 → 0 <= rSpawn r →
  ∃ w', spawn r 0 (clocked ts w) = Ok tt (clocked ts w) ∧
        updateSimulation ts r w = Ok tt w' ∧ sim_inv N w' ∧
        dipoles w' = dipoles w ∧
        activeDipoleIndices w' = activeDipoleIndices w ∧
        instanceIndices w' = instanceIndices w.
Proof.
  intros Hinv Hrun Hdt Hr.
  destruct (tick_no_spawn N ts r w Hinv Hrun)
    as (w' & Hskip & Heq & Hinv' & Hin & Hout & Hact & Hfree).
  { rewrite Hdt. lra. }
  rewrite Hdt in *. simpl in *.
  assert (∀ k, k ∈ activeDipoleIndices w → ¬ dies 0 (params w) (dipoles w) k) as Hsurv.
  { intros k Hk. unfold dies. destruct (dipoles w !! k) as [d|] eqn:Hd; [|tauto].
    pose proof (si_alive _ _ Hinv k d Hk Hd). simpl. lra. }
  exists w'. split; [done|]. split; [done|]. split; [done|].
  split; [|split].
  - apply list_eq. intros k.
    destruct (decide (k ∈ activeDipoleIndices w)) as [Hk|Hk]; [|by apply Hout].
    destruct (dipoles w !! k) as [d|] eqn:Hd.
    + rewrite (Hin k d Hk Hd), advanced_zero; [done|]. by apply (si_alive _ _ Hinv k d).
    + exfalso. apply lookup_ge_None in Hd.
      pose proof (pool_inv_bound w k (si_pool _ _ Hinv)) as Hb.
      rewrite (pi_len _ (si_pool _ _ Hinv)) in Hd.
      assert (k < maxDipoles w)%nat by (apply Hb, elem_of_app; by right). lia.
  - rewrite Hact. by apply filter_all.
  - rewrite Hfree, filter_none; [by rewrite app_nil_r|]. done.
Qed.

Lemma deltaTime_same w : 0 < lastTimestamp w → deltaTime_of w (lastTimestamp w) = 0.
Proof.
  intros H. unfold deltaTime_of. destruct (Rlt_dec 0 (lastTimestamp w)); [|done].
  unfold Rdiv. by rewrite Rminus_diag, Rmult_0_l.
Qed.

(** Any number of ticks with zero elapsed time leave the pool as it is. *)
Lemma zero_ticks N rs : ∀ w,
  sim_inv N w → simulationRunning w = true →
  (0 < pendingFrames w)%nat → 0 < lastTimestamp w →
  Forall (λ r, 0 <= rSpawn r) rs →
  let w' := run (Frame (lastTimestamp w) <$> rs) w in
  sim_inv N w' ∧ dipoles w' = dipoles w ∧
  activeDipoleIndices w' = activeDipoleIndices w ∧
  instanceIndices w' = instanceIndices w.
Proof.
  induction rs as [|r rs IH]; intros w Hinv Hrun Hpf Hts Hrs; [done|].
  apply Forall_cons in Hrs as [Hr Hrs]. rewrite fmap_cons.
  change (run (Frame (lastTimestamp w) r :: (Frame (lastTimestamp w) <$> rs)) w)
    with (run (Frame (lastTimestamp w) <$> rs) (step (Frame (lastTimestamp w) r) w)).
  destruct (tick_zero N (lastTimestamp w) r (dequeued w))
    as (w1 & _ & Heq & Hinv1 & Hd1 & Ha1 & Hf1); try done.
  { by apply dequeued_inv. }
  { by apply (deltaTime_same (dequeued w)). }
  destruct (tick_config N (lastTimestamp w) r (dequeued w) w1)
    as (Hts1 & Hrun1 & _ & _ & Hpf1 & _); try done.
  { by apply dequeued_inv. }
  rewrite (step_frame _ _ w w1 Hpf Heq).
  specialize (IH w1 Hinv1 Hrun1). rewrite Hts1 in IH.
  destruct IH as (Hinv' & Hd' & Ha' & Hf'); try done.
  { rewrite Hpf1. lia. }
  split; [done|]. split; [by rewrite Hd'|]. split; [by rewrite Ha'|by rewrite Hf'].
Qed.

(** C8, as stated, fails for a negative elapsed time: aging is not a no-op.
    After the first tick of the started worker (at 1016 ms), a callback
    with the earlier timestamp 900 ms has [deltaTime = -0.116], and the
    [life] of the active particle in slot 1 changes, from 3.184 s to
    3.3 s. *)
Lemma C8_zero_or_negative_dt_counterexample :
  let w1 := dequeued (step (Frame 1016 (draws_all 0)) started_worker) in
  ∃ w' d d',
    deltaTime_of w1 900 < 0 ∧
    updateSimulation 900 (draws_all 0) w1 = Ok tt w' ∧
    1%nat ∈ activeDipoleIndices w1 ∧
    dipoles w1 !! 1%nat = Some d ∧ dipoles w' !! 1%nat = Some d' ∧
    life d = 3184/1000 ∧ life d' = 33/10 ∧ life d' ≠ life d.
Proof.
  destruct first_tick as (Hinv & Hrun & Hts & Hpar & _ & Hact & _ & d & Hd & Hl & Hm).
  destruct (late_callback 2 _ d Hinv Hrun Hts Hpar Hact Hd Hl Hm)
    as (Hdt & wS & w' & rb & new & _ & Heq & _ & _ & _ & _ & Hlife & Hd' & _).
  intros w1. unfold w1.
  eexists w', d, _.
  split; [rewrite Hdt; lra|]. split; [exact Heq|].
  split; [rewrite dequeued_active, Hact; by apply list_elem_of_singleton|].
  split; [rewrite dequeued_dipoles; exact Hd|].
  split; [exact Hd'|]. split; [exact Hl|].
  rewrite advanced_life_survives by (rewrite Hlife; lra).
  change (life d - ?dt * speed ?p) with (life (aged dt p d)).
  rewrite Hlife, Hl. split; [done|lra].
Qed.

(** C8, amended — Zero or negative elapsed time.  In a tick of a running
    simulation the spawn decision is always evaluated.  With [deltaTime = 0]
    and a draw that is not negative it spawns nothing, no particle dies and
    the records of all particles are unchanged: aging is a no-op; and this
    stays so for any number of such ticks.  With [deltaTime < 0], a
    nonnegative creation rate and a draw that is not negative it spawns
    nothing either, but aging is not a no-op: with a nonnegative speed
    every active particle stays active and its [life] becomes
    [life - deltaTime * speed], which is more than before when the speed is
    positive. *)
Theorem C8_zero_or_negative_dt (N : nat) (w : Worker) :
  sim_inv N w → simulationRunning w = true →
  (∀ ts r, deltaTime_of w ts = 0 → 0 <= rSpawn r →
     ∃ w', spawn r 0 (clocked ts w) = Ok tt (clocked ts w) ∧
           updateSimulation ts r w = Ok tt w' ∧
           dipoles w' = dipoles w ∧
           activeDipoleIndices w' = activeDipoleIndices w ∧
           instanceIndices w' = instanceIndices w) ∧
  ((0 < pendingFrames w)%nat → 0 < lastTimestamp w →
   ∀ rs, Forall (λ r, 0 <= rSpawn r) rs →
     let w' := run (Frame (lastTimestamp w) <$> rs) w in
     dipoles w' = dipoles w ∧
     activeDipoleIndices w' = activeDipoleIndices w ∧
     instanceIndices w' = instanceIndices w) ∧
  (∀ ts r, deltaTime_of w ts < 0 → 0 <= creationProbability (params w) →
     0 <= speed (params w) → 0 <= rSpawn r →
     ∃ w', spawn r (deltaTime_of w ts) (clocked ts w) = Ok tt (clocked ts w) ∧
           updateSimulation ts r w = Ok tt w' ∧
           activeDipoleIndices w' = activeDipoleIndices w ∧
           instanceIndices w' = instanceIndices w ∧
           ∀ i d, i ∈ activeDipoleIndices w → dipoles w !! i = Some d →
             ∃ d', dipoles w' !! i = Some d' ∧
                   life d' = life d - deltaTime_of w ts * speed (params w) ∧
                   life d <= life d' ∧
                   (0 < speed (params w) → life d < life d')).
Proof.
  intros Hinv Hrun. split; [|split].
  - intros ts r Hdt Hr.
    destruct (tick_zero N ts r w Hinv Hrun Hdt Hr) as (w' & ? & ? & _ & ? & ? & ?).
    by exists w'.
  - intros Hpf Hts rs Hrs.
    destruct (zero_ticks N rs w Hinv Hrun Hpf Hts Hrs) as (_ & ? & ? & ?). done.
  - intros ts r Hdt Hcp Hsp Hr.
    destruct (tick_no_spawn N ts r w Hinv Hrun)
      as (w' & Hskip & Heq & Hinv' & Hin & Hout & Hact & Hfree).
    { assert (creationProbability (params w) * deltaTime_of w ts <= 0) by nra. lra. }
    simpl in *.
    assert (∀ k, k ∈ activeDipoleIndices w →
              ¬ dies (deltaTime_of w ts) (params w) (dipoles w) k) as Hsurv.
    { intros k Hk. unfold dies. destruct (dipoles w !! k) as [d|] eqn:Hd; [|tauto].
      pose proof (si_alive _ _ Hinv k d Hk Hd). simpl.
      assert (deltaTime_of w ts * speed (params w) <= 0) by nra. lra. }
    exists w'. split; [done|]. split; [done|].
    split; [rewrite Hact; by apply filter_all|].
    split; [rewrite Hfree, filter_none; [by rewrite app_nil_r|done]|].
    intros i d Hi Hd. exists (advanced (deltaTime_of w ts) (params w) d).
    split; [by apply Hin|].
    specialize (Hsurv i Hi). unfold dies in Hsurv. rewrite Hd in Hsurv.
    rewrite advanced_life_survives by done.
    split; [done|]. split; [|intros Hpos]; nra.
Qed.

Lemma C8_zero_or_negative_dt_witness :
  let w := started_worker in
  (∃ w', spawn (draws_all 0) 0 (clocked 1000 w) = Ok tt (clocked 1000 w) ∧
         updateSimulation 1000 (draws_all 0) w = Ok tt w' ∧
         dipoles w' = dipoles w ∧
         activeDipoleIndices w' = activeDipoleIndices w ∧
         instanceIndices w' = instanceIndices w) ∧
  (let w' := run (Frame (lastTimestamp w) <$> [draws_all 0; draws_all (1/2)]) w in
   dipoles w' = dipoles w ∧
   activeDipoleIndices w' = activeDipoleIndices w ∧
   instanceIndices w' = instanceIndices w) ∧
  (∃ w', spawn (draws_all 0) (deltaTime_of w 900) (clocked 900 w)
         = Ok tt (clocked 900 w) ∧
         updateSimulation 900 (draws_all 0) w = Ok tt w' ∧
         activeDipoleIndices w' = activeDipoleIndices w ∧
         instanceIndices w' = instanceIndices w ∧
         ∀ i d, i ∈ activeDipoleIndices w → dipoles w !! i = Some d →
           ∃ d', dipoles w' !! i = Some d' ∧
                 life d' = life d - deltaTime_of w 900 * speed (params w) ∧
                 life d <= life d' ∧
                 (0 < speed (params w) → life d < life d')).
Proof.
  intros w.
  destruct (C8_zero_or_negative_dt 2 started_worker started_worker_inv eq_refl)
    as (Hzero & Hmany & Hneg).
  split; [|split].
  - apply Hzero; [|simpl; lra].
    rewrite started_worker_dt. unfold Rdiv. by rewrite Rminus_diag, Rmult_0_l.
  - apply Hmany; [simpl; lia|simpl; lra|].
    repeat constructor; simpl; lra.
  - apply Hneg; [|simpl; lra..].
    rewrite started_worker_dt. lra.
Defined.

(** C9, as stated, fails: [init] does not stop the simulation.  An [init]
    sent to the started worker leaves [simulationRunning] true and the
    requested animation frame pending, so the next callback runs a tick. *)
Lemma C9_init_effect_counterexample :
  let w := step (Message_ (Init 3 page_params page_lobeOffset)) started_worker in
  simulationRunning started_worker = true ∧
  simulationRunning w = true ∧ pendingFrames w = 1%nat ∧
  step (Frame 1016 (draws_all 1)) w ≠ w.
Proof.
  intros w. split; [done|]. split; [done|]. split; [done|].
  intros Heq. apply (f_equal lastTimestamp) in Heq.
  assert (sim_inv 3 (dequeued w)) as Hinv.
  { apply dequeued_inv. unfold w, step, handle. rewrite init_eq. apply initialised_inv. }
  destruct (tick_inv 3 1016 (draws_all 1) (dequeued w) eq_refl Hinv) as (w' & Hgo & _).
  destruct (tick_config 3 1016 (draws_all 1) (dequeued w) w' Hinv eq_refl Hgo)
    as (Hts & _).
  rewrite (step_frame 1016 (draws_all 1) w w') in Heq; [|simpl; lia|done].
  rewrite Hts in Heq. simpl in Heq. lra.
Qed.

(** C9, amended — Init effect.  Processing an [init] message with a
    capacity, a configuration and a lobe offset never fails and
    reallocates the pool: the free list holds the slots [0..capacity-1],
    the active list is empty, and there is one record per slot, with
    [life] 0.  It allocates a pair of zero-filled transform buffers of
    [capacity * 16 * 4] bytes each, posts it, and allocates a second such
    pair, which becomes the write buffers.  It stores the capacity, the
    configuration and the offset, and sets the per-lobe offset matrices to
    the translations by [+offset] (red) and [-offset] (blue) along y.  The
    simulation is empty afterwards; the running flag, the clock and the
    requested animation frames are left as they were, so the simulation is
    stopped after an [init] only if it was stopped before (as it is when
    the script has just been loaded). *)
Theorem C9_init_effect (n : nat) (p : Params) (off : R) (w : Worker) :
  ∃ w' r b r0 b0,
    onmessage (Init n p off) w = Ok tt w' ∧
    instanceIndices w' = seq 0 n ∧
    activeDipoleIndices w' = [] ∧
    length (dipoles w') = n ∧
    (∀ i, (i < n)%nat → ∃ d, dipoles w' !! i = Some d ∧ life d = 0 ∧ instanceIndex d = i) ∧
    maxDipoles w' = n ∧ params w' = p ∧ lobeOffset w' = off ∧
    redMatricesBuffer w' = Some r ∧ blueMatricesBuffer w' = Some b ∧
    byteLength r = (n * 16 * 4)%nat ∧ byteLength b = (n * 16 * 4)%nat ∧
    buf_data r = zeros n ∧ buf_data b = zeros n ∧
    effects w' = Allocated (buf_id b) (n * 16) :: Allocated (buf_id r) (n * 16)
                 :: Posted r0 b0
                 :: Allocated (buf_id b0) (n * 16) :: Allocated (buf_id r0) (n * 16)
                 :: effects w ∧
    byteLength r0 = (n * 16 * 4)%nat ∧ byteLength b0 = (n * 16 * 4)%nat ∧
    matrixOffsetRed w' = Mat4.makeTranslation 0 off 0 ∧
    matrixOffsetBlue w' = Mat4.makeTranslation 0 (- off) 0 ∧
    simulationRunning w' = simulationRunning w ∧
    lastTimestamp w' = lastTimestamp w ∧
    pendingFrames w' = pendingFrames w ∧
    simulationRunning (state_of (onmessage (Init n p off) loaded)) = false.
Proof.
  exists (initialised n p off w).
  exists (mkBuffer (S (S (nextBufferId w))) (zeros n)),
         (mkBuffer (S (S (S (nextBufferId w)))) (zeros n)),
         (mkBuffer (nextBufferId w) (zeros n)),
         (mkBuffer (S (nextBufferId w)) (zeros n)).
  split; [apply init_eq|].
  pose proof (initialised_inv n p off w) as [_ Hp _ _].
  unfold byteLength. simpl. rewrite !zeros_length.
  repeat (split; [try done; try lia|]).
  - by rewrite length_fmap, length_seq.
  - intros i Hi. exists (fresh_dipole i). split; [|done].
    rewrite list_lookup_fmap, lookup_seq_lt by done. done.
  - reflexivity.
Qed.

(** ** What a tick leaves of the contents of the write buffers *)


(** The write buffers after the spawn decision differ from those before it
    only in the slot of a spawned particle. *)
Lemma spawn_data r dt w wS rb bb rbS bbS j :
  pool_inv w → bufs_fit w rb bb → spawn r dt w = Ok tt wS → bufs_fit wS rbS bbS →
  (∀ k, k ∈ activeDipoleIndices wS → ¬ (k * 16 ≤ j < k * 16 + 16)%nat) →
  buf_data rbS !! j = buf_data rb !! j ∧ buf_data bbS !! j = buf_data bb !! j.
Proof.
  intros Hinv Hfit Hspawn HfitS Hout.
  destruct (spawn_cases r dt w rb bb Hinv Hfit)
    as [[Heq _]|(i & rest & d0 & _ & _ & _ & _ & Hi & Heq)];
    rewrite Heq in Hspawn; injection Hspawn as <-.
  - destruct Hfit as [Hr Hb _ _ _], HfitS as [Hr' Hb' _ _ _]. by simplify_eq.
  - destruct Hfit as [Hr Hb Hl1 Hl2 _], HfitS as [Hr' Hb' _ _ _]. simpl in Hr', Hb'.
    injection Hr' as <-. injection Hb' as <-. simpl.
    assert (¬ (i * 16 ≤ j < i * 16 + 16)%nat) as Hj.
    { apply Hout. simpl. apply elem_of_app. right. by apply list_elem_of_singleton. }
    split; apply put_lookup_outside; rewrite lobeMatrix_length; (done || lia).
Qed.

(** C10 — Returned buffers.  Processing [returnBuffers] never fails and
    makes the returned pair the write buffers, whatever the write buffers
    were and held before: the outcome is the same from any globals that
    differ only in the write buffers, so data written into them is
    discarded.  Nothing else changes.  The next tick that publishes (its
    active list is not empty after the spawn decision) posts this very
    pair, with the returned contents carried over unchanged at every
    position outside the slots of the active particles. *)
Theorem C10_return_buffers (N : nat) (w : Worker) (r b : Buffer) (ts : R) (rnd : Draws) :
  sim_inv N w → simulationRunning w = true →
  admissible N (Message_ (ReturnBuffers r b)) →
  ∃ w1,
    onmessage (ReturnBuffers r b) w = Ok tt w1 ∧
    redMatricesBuffer w1 = Some r ∧ blueMatricesBuffer w1 = Some b ∧
    effects w1 = Returned r b :: effects w ∧
    dipoles w1 = dipoles w ∧ instanceIndices w1 = instanceIndices w ∧
    activeDipoleIndices w1 = activeDipoleIndices w ∧
    params w1 = params w ∧ maxDipoles w1 = maxDipoles w ∧
    lastTimestamp w1 = lastTimestamp w ∧ simulationRunning w1 = simulationRunning w ∧
    nextBufferId w1 = nextBufferId w ∧
    (∀ x y, onmessage (ReturnBuffers r b)
              (set_buffers x y (nextBufferId w) (effects w) w) = Ok tt w1) ∧
    ∃ wS w',
      spawn rnd (deltaTime_of w1 ts) (clocked ts w1) = Ok tt wS ∧
      updateSimulation ts rnd w1 = Ok tt w' ∧
      (activeDipoleIndices wS ≠ [] →
         ∃ rL bL rest,
           effects w' = Allocated (S (nextBufferId w)) (maxDipoles w * 16)
                        :: Allocated (nextBufferId w) (maxDipoles w * 16)
                        :: Posted rL bL :: rest ∧
           buf_id rL = buf_id r ∧ buf_id bL = buf_id b ∧
           length (buf_data rL) = length (buf_data r) ∧
           length (buf_data bL) = length (buf_data b) ∧
           ∀ j, (∀ k, k ∈ activeDipoleIndices wS → ¬ (k * 16 ≤ j < k * 16 + 16)%nat) →
                buf_data rL !! j = buf_data r !! j ∧
                buf_data bL !! j = buf_data b !! j).
Proof.
  intros Hinv Hrun Hadm.
  set (w1 := set_buffers (Some r) (Some b) (nextBufferId w)
               (Returned r b :: effects w) w).
  exists w1. do 12 (split; [done|]). split; [done|].
  assert (sim_inv N w1) as Hinv1 by (by apply (step_inv N (Message_ (ReturnBuffers r b)) w)).
  destruct Hadm as (Hl1 & Hl2 & Hne).
  assert (bufs_fit w1 r b) as Hfit.
  { split; simpl; rewrite ?(si_cap _ _ Hinv); done. }
  destruct (updateSimulation_spec ts rnd w1 r b Hrun (si_pool _ _ Hinv1) Hfit)
    as (wS & wL & rbS & bbS & rL & bL & Hspawn & HinvS & HfitS & Hidr & Hidb
        & Hpost & HrL & HbL & HidrL & HidbL & Heq).
  exists wS. eexists. split; [done|]. split; [exact Heq|].
  intros Hact. rewrite decide_False by done.
  destruct Hpost.
  assert (maxDipoles wS = maxDipoles w ∧ nextBufferId wS = nextBufferId w) as [HmS HnS].
  { destruct (spawn_cases rnd (deltaTime_of w1 ts) (clocked ts w1) r b
                (clocked_pool_inv ts w1 (si_pool _ _ Hinv1)) (clocked_fit ts w1 r b Hfit))
      as [[HeqS _]|(i & rest & d0 & _ & _ & _ & _ & _ & HeqS)];
      rewrite HeqS in Hspawn; injection Hspawn as <-; done. }
  exists rL, bL, (effects wL). simpl.
  split; [by rewrite lp_next0, lp_max0, HmS, HnS|].
  split; [done|]. split; [done|].
  rewrite HrL in lp_red0. rewrite HbL in lp_blue0.
  injection lp_red0 as ->. injection lp_blue0 as ->. simpl.
  assert (∀ k, k ∈ activeDipoleIndices wS →
            (k * 16 + 16 ≤ length (buf_data rbS))%nat ∧
            (k * 16 + 16 ≤ length (buf_data bbS))%nat) as Hroom.
  { intros k Hk.
    assert (k < maxDipoles wS)%nat
      by (apply (pool_inv_bound wS k HinvS), elem_of_app; by right).
    destruct HfitS as [_ _ H1 H2 _]. lia. }
  assert (length (buf_data rbS) = length (buf_data r) ∧
          length (buf_data bbS) = length (buf_data b)) as [HlenR HlenB].
  { destruct (spawn_cases rnd (deltaTime_of w1 ts) (clocked ts w1) r b
                (clocked_pool_inv ts w1 (si_pool _ _ Hinv1)) (clocked_fit ts w1 r b Hfit))
      as [[HeqS _]|(i & rest & d0 & _ & _ & _ & _ & Hi & HeqS)];
      rewrite HeqS in Hspawn; injection Hspawn as <-.
    - destruct HfitS as [Hr' Hb' _ _ _]. simpl in Hr', Hb'. by simplify_eq.
    - destruct HfitS as [Hr' Hb' _ _ _]. simpl in Hr', Hb'.
      injection Hr' as <-. injection Hb' as <-.
      pose proof (fit_red_len _ _ _ Hfit) as Hfl1.
      pose proof (fit_blue_len _ _ _ Hfit) as Hfl2.
      simpl in *.
      split; apply put_length; rewrite lobeMatrix_length; lia. }
  split.
  { rewrite foldr_paint_length; [done|]. intros k Hk. by apply Hroom. }
  split.
  { rewrite foldr_paint_length; [done|]. intros k Hk. by apply Hroom. }
  intros j Hout.
  destruct (spawn_data rnd (deltaTime_of w1 ts) (clocked ts w1) wS r b rbS bbS j)
    as [Hsr Hsb]; try done.
  { apply clocked_pool_inv, Hinv1. }
  { by apply clocked_fit. }
  destruct (foldr_paint_outside (deltaTime_of w1 ts) (params wS) (dipoles wS)
              (matrixOffsetRed wS) (activeDipoleIndices wS) (buf_data rbS) j)
    as [Hjr _].
  { intros k Hk. split; [by apply Hout|by apply Hroom]. }
  destruct (foldr_paint_outside (deltaTime_of w1 ts) (params wS) (dipoles wS)
              (matrixOffsetBlue wS) (activeDipoleIndices wS) (buf_data bbS) j)
    as [Hjb _].
  { intros k Hk. split; [by apply Hout|by apply Hroom]. }
  split; congruence.
Qed.

Lemma C10_return_buffers_witness :
  let N := 2%nat in
  let w := started_worker in
  let r := mkBuffer 0 (zeros 2) in
  let b := mkBuffer 1 (zeros 2) in
  let ts := 1016 in
  let rnd := draws_all 0 in
  ∃ w1,
    onmessage (ReturnBuffers r b) w = Ok tt w1 ∧
    redMatricesBuffer w1 = Some r ∧ blueMatricesBuffer w1 = Some b ∧
    effects w1 = Returned r b :: effects w ∧
    dipoles w1 = dipoles w ∧ instanceIndices w1 = instanceIndices w ∧
    activeDipoleIndices w1 = activeDipoleIndices w ∧
    params w1 = params w ∧ maxDipoles w1 = maxDipoles w ∧
    lastTimestamp w1 = lastTimestamp w ∧ simulationRunning w1 = simulationRunning w ∧
    nextBufferId w1 = nextBufferId w ∧
    (∀ x y, onmessage (ReturnBuffers r b)
              (set_buffers x y (nextBufferId w) (effects w) w) = Ok tt w1) ∧
    ∃ wS w',
      spawn rnd (deltaTime_of w1 ts) (clocked ts w1) = Ok tt wS ∧
      updateSimulation ts rnd w1 = Ok tt w' ∧
      (activeDipoleIndices wS ≠ [] →
         ∃ rL bL rest,
           effects w' = Allocated (S (nextBufferId w)) (maxDipoles w * 16)
                        :: Allocated (nextBufferId w) (maxDipoles w * 16)
                        :: Posted rL bL :: rest ∧
           buf_id rL = buf_id r ∧ buf_id bL = buf_id b ∧
           length (buf_data rL) = length (buf_data r) ∧
           length (buf_data bL) = length (buf_data b) ∧
           ∀ j, (∀ k, k ∈ activeDipoleIndices wS → ¬ (k * 16 ≤ j < k * 16 + 16)%nat) →
                buf_data rL !! j = buf_data r !! j ∧
                buf_data bL !! j = buf_data b !! j).
Proof.
  intros N w r b ts rnd.
  apply (C10_return_buffers 2 started_worker (mkBuffer 0 (zeros 2)) (mkBuffer 1 (zeros 2))
           1016 (draws_all 0)).
  - apply started_worker_inv.
  - reflexivity.
  - simpl. lia.
Defined.

(** * Further properties of the code *)

(** ** Math kernel *)

Lemma min_normal_pos : 0 < min_normal.
Proof. unfold min_normal. apply Rinv_0_lt_compat, pow_lt. lra. Qed.

Lemma min_normal_le_1 : min_normal <= 1.
Proof.
  unfold min_normal. apply Rle_trans with (/ 1); [|rewrite Rinv_1; lra].
  apply Rinv_le_contravar; [lra|]. apply pow_R1_Rle. lra.
Qed.

Lemma max_square_ge_32 : 32 <= max_square.
Proof.
  unfold max_square. replace 32 with (2 ^ 5) by ring.
  apply Rle_pow; [lra|lia].
Qed.

Lemma in_double_range_pos a : in_double_range a → 0 < Vec3.norm2 a.
Proof. intros [H _]. pose proof min_normal_pos. lra. Qed.

(** X1 — [Vec3.normalize].  For a vector whose squared length is in the
    range of the normal doubles (neither underflowed nor overflowed) the
    result has length 1 and points the same way (scaled back by the
    length of the input it gives the input); for the zero vector the
    output argument is left as it was.  Outside that range the squared
    length that the code computes is 0, subnormal or infinite, and
    nothing is stated. *)
Theorem X1_normalize_length (out a : Vec3) :
  in_double_range a →
  Vec3.norm2 (Vec3.normalize out a) = 1 ∧
  vx (Vec3.normalize out a) * sqrt (Vec3.norm2 a) = vx a ∧
  vy (Vec3.normalize out a) * sqrt (Vec3.norm2 a) = vy a ∧
  vz (Vec3.normalize out a) * sqrt (Vec3.norm2 a) = vz a ∧
  Vec3.normalize out Vec3.create = out.
Proof.
  intros Hr. pose proof (in_double_range_pos a Hr) as Hpos.
  split; [by apply normalize_unit|].
  assert (0 < sqrt (Vec3.norm2 a)) as Hs by (by apply sqrt_lt_R0).
  assert (Vec3.normalize out Vec3.create = out) as Hz.
  { apply normalize_zero. unfold Vec3.norm2, Vec3.create. simpl. ring. }
  unfold Vec3.normalize at 1 2 3. fold (Vec3.norm2 a).
  destruct (Rlt_dec 0 (Vec3.norm2 a)) as [_|Hn]; [|done]. simpl.
  split; [field; lra|]. split; [field; lra|]. split; [field; lra|]. exact Hz.
Qed.

Lemma X1_normalize_length_witness :
  let out := mkVec3 7 8 9 in
  let a := mkVec3 3 4 0 in
  Vec3.norm2 (Vec3.normalize out a) = 1 ∧
  vx (Vec3.normalize out a) * sqrt (Vec3.norm2 a) = vx a ∧
  vy (Vec3.normalize out a) * sqrt (Vec3.norm2 a) = vy a ∧
  vz (Vec3.normalize out a) * sqrt (Vec3.norm2 a) = vz a ∧
  Vec3.normalize out Vec3.create = out.
Proof.
  intros out a. apply (X1_normalize_length (mkVec3 7 8 9) (mkVec3 3 4 0)).
  pose proof min_normal_le_1. pose proof max_square_ge_32.
  unfold in_double_range, Vec3.norm2. simpl. lra.
Defined.

(** X2 — [Vec3.normalize] is idempotent on the vectors whose squared
    length is in the range of the normal doubles: normalising the result
    of a normalisation of such a vector gives it back, whatever the output
    arguments held. *)
Theorem X2_normalize_idempotent (out out' a : Vec3) :
  in_double_range a →
  in_double_range (Vec3.normalize out a) ∧
  Vec3.normalize out' (Vec3.normalize out a) = Vec3.normalize out a.
Proof.
  intros Hr. pose proof (in_double_range_pos a Hr) as Hpos.
  assert (Vec3.norm2 (Vec3.normalize out a) = 1) as H1 by (by apply normalize_unit).
  split.
  { unfold in_double_range. rewrite H1.
    pose proof min_normal_le_1. pose proof max_square_ge_32. lra. }
  generalize dependent (Vec3.normalize out a). intros n H1.
  unfold Vec3.normalize. fold (Vec3.norm2 n). rewrite H1.
  destruct (Rlt_dec 0 1) as [_|Hn]; [|exfalso; apply Hn; lra].
  rewrite sqrt_1. destruct n as [x y z]. simpl. f_equal; field.
Qed.

Lemma X2_normalize_idempotent_witness :
  in_double_range (Vec3.normalize Vec3.create (mkVec3 3 4 0)) ∧
  Vec3.normalize Vec3.create (Vec3.normalize Vec3.create (mkVec3 3 4 0))
  = Vec3.normalize Vec3.create (mkVec3 3 4 0).
Proof.
  apply (X2_normalize_idempotent Vec3.create Vec3.create (mkVec3 3 4 0)).
  pose proof min_normal_le_1. pose proof max_square_ge_32.
  unfold in_double_range, Vec3.norm2. simpl. lra.
Defined.

(** X3 — [Quat.multiply] is associative and has [Quat.create] (the
    identity rotation) as neutral element on both sides. *)
Theorem X3_quat_multiply_monoid (a b c : Quat) :
  Quat.multiply (Quat.multiply a b) c = Quat.multiply a (Quat.multiply b c) ∧
  Quat.multiply Quat.create a = a ∧
  Quat.multiply a Quat.create = a.
Proof.
  destruct a as [ax ay az aw], b as [bx by_ bz bw], c as [cx cy cz cw].
  unfold Quat.multiply, Quat.create. simpl.
  repeat split; f_equal; ring.
Qed.

(** X4 — [Quat.multiply] multiplies lengths: the squared length of a
    product is the product of the squared lengths, so a product of unit
    quaternions is a unit quaternion. *)
Theorem X4_quat_multiply_norm (a b : Quat) :
  qnorm2 (Quat.multiply a b) = qnorm2 a * qnorm2 b ∧
  (qnorm2 a = 1 → qnorm2 b = 1 → qnorm2 (Quat.multiply a b) = 1).
Proof.
  assert (qnorm2 (Quat.multiply a b) = qnorm2 a * qnorm2 b) as H.
  { destruct a as [ax ay az aw], b as [bx by_ bz bw].
    unfold qnorm2, Quat.multiply. simpl. ring. }
  split; [exact H|]. intros Ha Hb. rewrite H, Ha, Hb. ring.
Qed.

(** X5 — [Quat.multiply] does not commute: there are unit quaternions
    (the quarter turns about x and about y) whose products in the two
    orders differ, so the order in which the spin is applied matters. *)
Theorem X5_quat_multiply_not_commutative :
  ∃ a b, qnorm2 a = 1 ∧ qnorm2 b = 1 ∧ Quat.multiply a b ≠ Quat.multiply b a.
Proof.
  exists (Quat.setFromAxisAngle (mkVec3 1 0 0) (PI / 2)),
         (Quat.setFromAxisAngle (mkVec3 0 1 0) (PI / 2)).
  pose proof (sin2_cos2 (PI / 2 / 2)) as Hsc. unfold Rsqr in Hsc.
  split; [unfold qnorm2, Quat.setFromAxisAngle; simpl; lra|].
  split; [unfold qnorm2, Quat.setFromAxisAngle; simpl; lra|].
  intros H. apply (f_equal qz) in H. revert H.
  unfold Quat.multiply, Quat.setFromAxisAngle. simpl.
  assert (0 < sin (PI / 2 / 2)) as Hs.
  { apply sin_gt_0; pose proof PI_RGT_0; lra. }
  intros H. nra.
Qed.

(** X6 — [Quat.setFromAxisAngle].  The squared length of the result is
    [|axis|^2 * sin^2(angle/2) + cos^2(angle/2)]: a unit axis gives a unit
    quaternion, and the zero axis gives the quaternion [(0, 0, 0,
    cos(angle/2))], of squared length [cos^2(angle/2)], which is not a
    rotation unless that cosine is 1 or -1. *)
Theorem X6_setFromAxisAngle_norm (axis : Vec3) (angle : R) :
  qnorm2 (Quat.setFromAxisAngle axis angle)
  = Vec3.norm2 axis * (sin (angle / 2) * sin (angle / 2))
    + cos (angle / 2) * cos (angle / 2) ∧
  (Vec3.norm2 axis = 1 → qnorm2 (Quat.setFromAxisAngle axis angle) = 1) ∧
  (Vec3.norm2 axis = 0 →
     qnorm2 (Quat.setFromAxisAngle axis angle) = cos (angle / 2) * cos (angle / 2)).
Proof.
  assert (qnorm2 (Quat.setFromAxisAngle axis angle)
          = Vec3.norm2 axis * (sin (angle / 2) * sin (angle / 2))
            + cos (angle / 2) * cos (angle / 2)) as H.
  { unfold qnorm2, Quat.setFromAxisAngle, Vec3.norm2. simpl. ring. }
  split; [exact H|]. split; intros Ha; rewrite H, Ha.
  - pose proof (sin2_cos2 (angle / 2)) as Hsc. unfold Rsqr in Hsc. lra.
  - ring.
Qed.

(** X7 — [Quat.setFromEuler] gives a unit quaternion for all angles, and
    it is the product of the rotations about x, about y and about z, in
    this order. *)
Theorem X7_setFromEuler (euler : Vec3) :
  qnorm2 (Quat.setFromEuler euler) = 1 ∧
  Quat.setFromEuler euler
  = Quat.multiply
      (Quat.multiply (Quat.setFromAxisAngle (mkVec3 1 0 0) (vx euler))
                     (Quat.setFromAxisAngle (mkVec3 0 1 0) (vy euler)))
      (Quat.setFromAxisAngle (mkVec3 0 0 1) (vz euler)).
Proof.
  assert (Quat.setFromEuler euler
          = Quat.multiply
              (Quat.multiply (Quat.setFromAxisAngle (mkVec3 1 0 0) (vx euler))
                             (Quat.setFromAxisAngle (mkVec3 0 1 0) (vy euler)))
              (Quat.setFromAxisAngle (mkVec3 0 0 1) (vz euler))) as H.
  { unfold Quat.setFromEuler, Quat.multiply, Quat.setFromAxisAngle. simpl.
    f_equal; ring. }
  split; [|exact H]. rewrite H.
  assert (∀ v angle, Vec3.norm2 v = 1 → qnorm2 (Quat.setFromAxisAngle v angle) = 1) as Hu.
  { intros v angle Hv.
    unfold qnorm2, Quat.setFromAxisAngle. simpl. unfold Vec3.norm2 in Hv.
    pose proof (sin2_cos2 (angle / 2)) as Hsc. unfold Rsqr in Hsc.
    replace (vx v * sin (angle / 2) * (vx v * sin (angle / 2)) +
             vy v * sin (angle / 2) * (vy v * sin (angle / 2)) +
             vz v * sin (angle / 2) * (vz v * sin (angle / 2)) +
             cos (angle / 2) * cos (angle / 2))
      with ((vx v * vx v + vy v * vy v + vz v * vz v)
            * (sin (angle / 2) * sin (angle / 2))
            + cos (angle / 2) * cos (angle / 2)) by ring.
    rewrite Hv. lra. }
  assert (∀ a b, qnorm2 (Quat.multiply a b) = qnorm2 a * qnorm2 b) as Hm.
  { intros [ax ay az aw] [bx by_ bz bw]. unfold qnorm2, Quat.multiply. simpl. ring. }
  rewrite !Hm, !Hu; [ring|..]; unfold Vec3.norm2; simpl; ring.
Qed.

(** X8 — [Mat4.compose] with a unit quaternion and a uniform scale [s]:
    the three rotation columns are mutually orthogonal and each has squared
    length [s * s], the last column is the position, and the bottom row is
    [0, 0, 0, 1]. *)
Theorem X8_compose_orthogonal (p : Vec3) (q : Quat) (s : R) :
  qnorm2 q = 1 →
  let m := Mat4.compose p q (Vec3.set s s s) in
  dot3 (column m 0) (column m 0) = s * s ∧
  dot3 (column m 1) (column m 1) = s * s ∧
  dot3 (column m 2) (column m 2) = s * s ∧
  dot3 (column m 0) (column m 1) = 0 ∧
  dot3 (column m 0) (column m 2) = 0 ∧
  dot3 (column m 1) (column m 2) = 0 ∧
  column m 3 = p ∧
  bottom_row m = [0; 0; 0; 1].
Proof.
  destruct q as [x y z w], p as [px py pz]. unfold qnorm2. simpl. intros Hq.
  assert (w * w = 1 - x * x - y * y - z * z) as Hw by lra.
  unfold dot3, column, bottom_row, Mat4.at_, Mat4.compose. simpl.
  repeat split; ring [Hw].
Qed.

Lemma X8_compose_orthogonal_witness :
  let m := Mat4.compose (mkVec3 1 2 3) Quat.create (Vec3.set 2 2 2) in
  dot3 (column m 0) (column m 0) = 2 * 2 ∧
  dot3 (column m 1) (column m 1) = 2 * 2 ∧
  dot3 (column m 2) (column m 2) = 2 * 2 ∧
  dot3 (column m 0) (column m 1) = 0 ∧
  dot3 (column m 0) (column m 2) = 0 ∧
  dot3 (column m 1) (column m 2) = 0 ∧
  column m 3 = mkVec3 1 2 3 ∧
  bottom_row m = [0; 0; 0; 1].
Proof.
  apply (X8_compose_orthogonal (mkVec3 1 2 3) Quat.create 2).
  unfold qnorm2. simpl. lra.
Defined.

Lemma sixteen (a : Mat4) :
  length a = 16%nat →
  a = [ Mat4.at_ a 0; Mat4.at_ a 1; Mat4.at_ a 2; Mat4.at_ a 3;
        Mat4.at_ a 4; Mat4.at_ a 5; Mat4.at_ a 6; Mat4.at_ a 7;
        Mat4.at_ a 8; Mat4.at_ a 9; Mat4.at_ a 10; Mat4.at_ a 11;
        Mat4.at_ a 12; Mat4.at_ a 13; Mat4.at_ a 14; Mat4.at_ a 15 ].
Proof.
  intros H.
  do 16 (destruct a as [|? a]; [discriminate H|]).
  destruct a; [reflexivity|discriminate H].
Qed.

(** X9 — [Mat4.multiply] on 4x4 matrices (arrays of 16 numbers) is
    associative, has the identity matrix [Mat4.create] as neutral element
    on both sides, and always gives an array of 16 numbers. *)
Theorem X9_mat4_multiply_monoid (a b c : Mat4) :
  length a = 16%nat → length b = 16%nat → length c = 16%nat →
  Mat4.multiply (Mat4.multiply a b) c = Mat4.multiply a (Mat4.multiply b c) ∧
  Mat4.multiply a Mat4.create = a ∧
  Mat4.multiply Mat4.create a = a ∧
  length (Mat4.multiply a b) = 16%nat.
Proof.
  intros Ha Hb Hc.
  split; [|split; [|split; [|reflexivity]]].
  - unfold Mat4.multiply. simpl. unfold Mat4.at_. simpl.
    repeat (apply (f_equal2 cons); [ring|]). reflexivity.
  - rewrite (sixteen a Ha) at 2.
    unfold Mat4.multiply, Mat4.create. simpl. unfold Mat4.at_. simpl.
    repeat (apply (f_equal2 cons); [ring|]). reflexivity.
  - rewrite (sixteen a Ha) at 2.
    unfold Mat4.multiply, Mat4.create. simpl. unfold Mat4.at_. simpl.
    repeat (apply (f_equal2 cons); [ring|]). reflexivity.
Qed.

Lemma X9_mat4_multiply_monoid_witness :
  let a := Mat4.makeTranslation 1 2 3 in
  let b := Mat4.makeTranslation 4 5 6 in
  let c := Mat4.create in
  Mat4.multiply (Mat4.multiply a b) c = Mat4.multiply a (Mat4.multiply b c) ∧
  Mat4.multiply a Mat4.create = a ∧
  Mat4.multiply Mat4.create a = a ∧
  length (Mat4.multiply a b) = 16%nat.
Proof.
  apply (X9_mat4_multiply_monoid (Mat4.makeTranslation 1 2 3)
           (Mat4.makeTranslation 4 5 6) Mat4.create); reflexivity.
Defined.

(** X10 — [Mat4.makeTranslation] and [Mat4.multiply]: translations
    compose by adding their offsets, and multiplying a matrix whose bottom
    row is [0, 0, 0, 1] by a translation keeps its first three columns and
    moves its last column by the offsets along those columns. *)
Theorem X10_translation_composition (x y z x' y' z' : R) (a : Mat4) :
  Mat4.multiply (Mat4.makeTranslation x y z) (Mat4.makeTranslation x' y' z')
  = Mat4.makeTranslation (x + x') (y + y') (z + z') ∧
  (bottom_row a = [0; 0; 0; 1] →
   let m := Mat4.multiply a (Mat4.makeTranslation x y z) in
   column m 0 = column a 0 ∧ column m 1 = column a 1 ∧ column m 2 = column a 2 ∧
   vx (column m 3)
   = vx (column a 3) + x * vx (column a 0) + y * vx (column a 1) + z * vx (column a 2) ∧
   vy (column m 3)
   = vy (column a 3) + x * vy (column a 0) + y * vy (column a 1) + z * vy (column a 2) ∧
   vz (column m 3)
   = vz (column a 3) + x * vz (column a 0) + y * vz (column a 1) + z * vz (column a 2) ∧
   bottom_row m = [0; 0; 0; 1]).
Proof.
  split.
  - unfold Mat4.multiply, Mat4.makeTranslation, Mat4.at_. simpl.
    repeat (apply (f_equal2 cons); [ring|]). reflexivity.
  - unfold bottom_row. intros [= H3 H7 H11 H15].
    unfold column, bottom_row, Mat4.multiply, Mat4.makeTranslation. simpl.
    unfold Mat4.at_ in *. simpl. rewrite ?H3, ?H7, ?H11, ?H15.
    repeat split; try (f_equal; ring); try ring.
    repeat (apply (f_equal2 cons); [ring|]). reflexivity.
Qed.

(** X11 — The two lobes.  With the offset matrices that [init] computes
    for a lobe offset [off], the transforms that [updateInstanceMatrix]
    builds for a particle at scale [s] have the rotation columns of the
    base transform, and their translations are the particle's position
    moved by [+off] (red) and [-off] (blue) along the second column of the
    base transform: their midpoint is the particle's position, and for a
    unit quaternion the squared distance between the two lobe centres is
    [(2 * off * s)^2]. *)
Theorem X11_lobes_symmetric (d : Dipole) (s off : R) :
  let base := Mat4.compose (position d) (quaternion d) (Vec3.set s s s) in
  let red := lobeMatrix d s (Mat4.makeTranslation 0 off 0) in
  let blue := lobeMatrix d s (Mat4.makeTranslation 0 (- off) 0) in
  (∀ j, (j < 3)%nat → column red j = column base j ∧ column blue j = column base j) ∧
  bottom_row red = [0; 0; 0; 1] ∧ bottom_row blue = [0; 0; 0; 1] ∧
  vx (column red 3) = vx (position d) + off * vx (column base 1) ∧
  vy (column red 3) = vy (position d) + off * vy (column base 1) ∧
  vz (column red 3) = vz (position d) + off * vz (column base 1) ∧
  vx (column red 3) + vx (column blue 3) = 2 * vx (position d) ∧
  vy (column red 3) + vy (column blue 3) = 2 * vy (position d) ∧
  vz (column red 3) + vz (column blue 3) = 2 * vz (position d) ∧
  (qnorm2 (quaternion d) = 1 →
   (vx (column red 3) - vx (column blue 3)) * (vx (column red 3) - vx (column blue 3)) +
   (vy (column red 3) - vy (column blue 3)) * (vy (column red 3) - vy (column blue 3)) +
   (vz (column red 3) - vz (column blue 3)) * (vz (column red 3) - vz (column blue 3))
   = (2 * off * s) * (2 * off * s)).
Proof.
  intros base red blue.
  destruct d as [l ml ms ax i [px py pz] [x y z w]].
  unfold red, blue, base, lobeMatrix, column, bottom_row, Mat4.multiply,
    Mat4.makeTranslation, Mat4.compose, Mat4.at_, qnorm2. simpl.
  split.
  { intros j Hj. destruct j as [|[|[|j]]]; [..|lia]; simpl; split; f_equal; ring. }
  repeat (split; [try ring; repeat (apply (f_equal2 cons); [ring|]); reflexivity|]).
  intros Hq.
  assert (w * w = 1 - x * x - y * y - z * z) as Hw by lra.
  ring [Hw].
Qed.

(** X12 — Zero scale.  At scale 0 the transform of either lobe, for any
    translation as offset matrix, is fully collapsed: its three rotation
    columns are zero and its last column is the particle's position, so
    both lobes get the same matrix. *)
Theorem X12_zero_scale_collapsed (d : Dipole) (x y z : R) :
  lobeMatrix d 0 (Mat4.makeTranslation x y z)
  = [ 0; 0; 0; 0;  0; 0; 0; 0;  0; 0; 0; 0;
      vx (position d); vy (position d); vz (position d); 1 ].
Proof.
  unfold lobeMatrix, Mat4.multiply, Mat4.makeTranslation, Mat4.compose, Mat4.at_.
  simpl. repeat (apply (f_equal2 cons); [ring|]). reflexivity.
Qed.

(** ** Writing a slot *)


(** X13 — [updateInstanceMatrix] on buffers with room for the slot returns
    normally and overwrites exactly the 16 floats of the particle's slot in
    each buffer, with the red and the blue lobe transform; every other
    float of both buffers, the identity and the length of the buffers, the
    pool and the configuration are unchanged, and nothing is posted. *)
Theorem X13_updateInstanceMatrix_slot (d : Dipole) (scale : R) (w : Worker)
    (rb bb : Buffer) :
  bufs_fit w rb bb → (instanceIndex d < maxDipoles w)%nat →
  ∃ w' rb' bb',
    let off := (instanceIndex d * 16)%nat in
    updateInstanceMatrix d scale w = Ok tt w' ∧
    redMatricesBuffer w' = Some rb' ∧ blueMatricesBuffer w' = Some bb' ∧
    buf_id rb' = buf_id rb ∧ buf_id bb' = buf_id bb ∧
    length (buf_data rb') = length (buf_data rb) ∧
    length (buf_data bb') = length (buf_data bb) ∧
    (∀ k, (k < 16)%nat →
       buf_data rb' !! (off + k)%nat = lobeMatrix d scale (matrixOffsetRed w) !! k ∧
       buf_data bb' !! (off + k)%nat = lobeMatrix d scale (matrixOffsetBlue w) !! k) ∧
    (∀ j, ¬ (off ≤ j < off + 16)%nat →
       buf_data rb' !! j = buf_data rb !! j ∧ buf_data bb' !! j = buf_data bb !! j) ∧
    dipoles w' = dipoles w ∧ instanceIndices w' = instanceIndices w ∧
    activeDipoleIndices w' = activeDipoleIndices w ∧ params w' = params w ∧
    posts_in (effects w') = posts_in (effects w).
Proof.
  intros Hfit Hi. pose proof Hfit as [Hr Hb Hrl Hbl Hne].
  eexists _, _, _. split; [by apply (updateInstanceMatrix_eq d scale w rb bb)|].
  simpl. split; [reflexivity|]. split; [reflexivity|]. simpl.
  split; [done|]. split; [done|].
  split; [apply put_length; rewrite lobeMatrix_length; lia|].
  split; [apply put_length; rewrite lobeMatrix_length; lia|].
  split.
  { intros k Hk. split; apply put_lookup_inside; rewrite lobeMatrix_length; lia. }
  split.
  { intros j Hj. split; apply put_lookup_outside; rewrite lobeMatrix_length; lia. }
  do 4 (split; [done|]).
  by rewrite !posts_in_cons.
Qed.

Lemma X13_updateInstanceMatrix_slot_witness :
  let d := fresh_dipole 1 in
  let scale := 1/2 in
  let w := started_worker in
  let rb := mkBuffer 2 (zeros 2) in
  let bb := mkBuffer 3 (zeros 2) in
  ∃ w' rb' bb',
    let off := (instanceIndex d * 16)%nat in
    updateInstanceMatrix d scale w = Ok tt w' ∧
    redMatricesBuffer w' = Some rb' ∧ blueMatricesBuffer w' = Some bb' ∧
    buf_id rb' = buf_id rb ∧ buf_id bb' = buf_id bb ∧
    length (buf_data rb') = length (buf_data rb) ∧
    length (buf_data bb') = length (buf_data bb) ∧
    (∀ k, (k < 16)%nat →
       buf_data rb' !! (off + k)%nat = lobeMatrix d scale (matrixOffsetRed w) !! k ∧
       buf_data bb' !! (off + k)%nat = lobeMatrix d scale (matrixOffsetBlue w) !! k) ∧
    (∀ j, ¬ (off ≤ j < off + 16)%nat →
       buf_data rb' !! j = buf_data rb !! j ∧ buf_data bb' !! j = buf_data bb !! j) ∧
    dipoles w' = dipoles w ∧ instanceIndices w' = instanceIndices w ∧
    activeDipoleIndices w' = activeDipoleIndices w ∧ params w' = params w ∧
    posts_in (effects w') = posts_in (effects w).
Proof.
  intros d scale w rb bb.
  apply (X13_updateInstanceMatrix_slot (fresh_dipole 1) (1/2) started_worker
           (mkBuffer 2 (zeros 2)) (mkBuffer 3 (zeros 2))).
  - split; simpl; (done || lia).
  - simpl. lia.
Defined.

(** X14 — [updateInstanceMatrix] without room for the slot.  When the red
    buffer is too short for the particle's slot the call throws (the
    [RangeError] of [set]) before anything is written.  When the red buffer
    has room but the blue one has not, it throws after the red lobe has
    been written: the red buffer holds the new transform, the blue buffer
    is untouched. *)
Theorem X14_updateInstanceMatrix_throws (d : Dipole) (scale : R) (w : Worker)
    (rb bb : Buffer) :
  redMatricesBuffer w = Some rb → blueMatricesBuffer w = Some bb →
  let off := (instanceIndex d * 16)%nat in
  ((length (buf_data rb) < off + 16)%nat → updateInstanceMatrix d scale w = Throw w) ∧
  ((off + 16 ≤ length (buf_data rb))%nat → (length (buf_data bb) < off + 16)%nat →
   ∃ w', updateInstanceMatrix d scale w = Throw w' ∧
         redMatricesBuffer w'
         = Some (mkBuffer (buf_id rb)
                   (put (buf_data rb) (lobeMatrix d scale (matrixOffsetRed w)) off)) ∧
         blueMatricesBuffer w' = Some bb ∧
         effects w' = Wrote (buf_id rb) off (lobeMatrix d scale (matrixOffsetRed w))
                      :: effects w).
Proof.
  intros Hr Hb off. split.
  - intros Hshort. unfold updateInstanceMatrix, mbind, M_bind, get, write_red.
    rewrite Hr. unfold typed_set. rewrite lobeMatrix_length.
    rewrite decide_False by (fold off; lia). reflexivity.
  - intros Hroom Hshort. eexists. split.
    + unfold updateInstanceMatrix, mbind, M_bind, get.
      rewrite (write_red_eq _ _ _ rb) by (rewrite ?lobeMatrix_length; (done || (fold off; lia))).
      unfold write_blue. simpl. rewrite Hb. unfold typed_set.
      rewrite lobeMatrix_length. rewrite decide_False by (fold off; lia). reflexivity.
    + simpl. done.
Qed.

Lemma X14_updateInstanceMatrix_throws_witness :
  let d := fresh_dipole 5 in
  let scale := 1 in
  let w := started_worker in
  let rb := mkBuffer 2 (zeros 2) in
  let bb := mkBuffer 3 (zeros 2) in
  let off := (instanceIndex d * 16)%nat in
  ((length (buf_data rb) < off + 16)%nat → updateInstanceMatrix d scale w = Throw w) ∧
  ((off + 16 ≤ length (buf_data rb))%nat → (length (buf_data bb) < off + 16)%nat →
   ∃ w', updateInstanceMatrix d scale w = Throw w' ∧
         redMatricesBuffer w'
         = Some (mkBuffer (buf_id rb)
                   (put (buf_data rb) (lobeMatrix d scale (matrixOffsetRed w)) off)) ∧
         blueMatricesBuffer w' = Some bb ∧
         effects w' = Wrote (buf_id rb) off (lobeMatrix d scale (matrixOffsetRed w))
                      :: effects w).
Proof.
  intros d scale w rb bb.
  apply (X14_updateInstanceMatrix_throws (fresh_dipole 5) 1 started_worker
           (mkBuffer 2 (zeros 2)) (mkBuffer 3 (zeros 2))); reflexivity.
Defined.

(** ** A tick that throws *)

Lemma createDipole_throw r w i rest d0 rb :
  instanceIndices w = rest ++ [i] →
  dipoles w !! i = Some d0 →
  redMatricesBuffer w = Some rb →
  (length (buf_data rb) < i * 16 + 16)%nat →
  createDipole r w
  = Throw (set_pool (<[i:=spawned (params w) r i d0]> (dipoles w)) rest
             (activeDipoleIndices w ++ [i]) w).
Proof.
  intros Hfree Hd Hr Hshort.
  unfold createDipole, mbind, M_bind, get.
  apply pop_Some in Hfree. rewrite Hfree. simpl. rewrite Hd.
  unfold store_dipole, modify. simpl.
  unfold updateInstanceMatrix, mbind, M_bind, get, write_red. simpl.
  rewrite Hr. unfold typed_set. rewrite lobeMatrix_length.
  rewrite decide_False by lia. reflexivity.
Qed.

(** X15 — A spawn into a slot the red buffer has no room for (a pair
    returned by the consumer that is too short, as after an [init] with a
    larger capacity) makes the tick throw: the slot has already been moved
    from the free list to the active list and initialised, nothing is
    written or posted, and no further animation frame is requested while
    [simulationRunning] stays true.  With no other callback pending the
    simulation is stalled: further callbacks do not come, and a [start]
    message changes nothing. *)
Theorem X15_tick_throw_stalls (ts : R) (r : Draws) (w : Worker)
    (rb : Buffer) (i : nat) (rest : list nat) :
  pool_inv w → simulationRunning w = true → pendingFrames w = 1%nat →
  redMatricesBuffer w = Some rb →
  instanceIndices w = rest ++ [i] →
  (length (buf_data rb) < i * 16 + 16)%nat →
  rSpawn r < creationProbability (params w) * deltaTime_of w ts →
  ∃ d0 w',
    dipoles w !! i = Some d0 ∧
    handle (Frame ts r) w = Throw w' ∧
    instanceIndices w' = rest ∧
    activeDipoleIndices w' = activeDipoleIndices w ++ [i] ∧
    dipoles w' = <[i:=spawned (params w) r i d0]> (dipoles w) ∧
    effects w' = effects w ∧
    redMatricesBuffer w' = redMatricesBuffer w ∧
    blueMatricesBuffer w' = blueMatricesBuffer w ∧
    simulationRunning w' = true ∧ pendingFrames w' = 0%nat ∧
    (∀ ts' r', step (Frame ts' r') w' = w') ∧
    (∀ now, step (Message_ (Start now)) w' = w').
Proof.
  intros Hinv Hrun Hpf Hr Hfree Hshort Hlt.
  assert (i < maxDipoles w)%nat as Hi.
  { apply (pool_inv_bound w i Hinv). rewrite Hfree.
    apply elem_of_app. left. apply elem_of_app. right. by apply list_elem_of_singleton. }
  destruct (pool_inv_lookup w i Hinv Hi) as (d0 & Hd0 & _).
  exists d0. eexists. split; [done|]. split.
  { unfold handle. rewrite Hpf.
    unfold updateSimulation, mbind, M_bind, get. simpl. rewrite Hrun. simpl.
    unfold modify, spawn, mbind, M_bind, get. simpl.
    destruct (Rlt_dec (rSpawn r) (creationProbability (params w) * deltaTime_of _ ts))
      as [_|Hn]; [|by destruct Hn].
    rewrite decide_True by (rewrite Hfree, length_app; simpl; lia).
    erewrite createDipole_throw; [reflexivity|exact Hfree|exact Hd0|exact Hr|exact Hshort]. }
  simpl. do 8 (split; [done|]).
  split.
  - intros ts' r'. reflexivity.
  - intros now. reflexivity.
Qed.

(** A worker of capacity 2 to which the consumer has returned a pair with
    room for one matrix only. *)
Lemma short_pair_inv :
  pool_inv (step (Message_ (ReturnBuffers (mkBuffer 0 (zeros 1)) (mkBuffer 1 (zeros 1))))
              started_worker).
Proof. apply (pool_inv_ext started_worker); try done. apply started_worker_inv. Qed.

Lemma X15_tick_throw_stalls_witness :
  let ts := 1016 in
  let r := draws_all 0 in
  let rb := mkBuffer 0 (zeros 1) in
  let w := step (Message_ (ReturnBuffers rb (mkBuffer 1 (zeros 1)))) started_worker in
  let i := 1%nat in
  let rest := [0%nat] in
  ∃ d0 w',
    dipoles w !! i = Some d0 ∧
    handle (Frame ts r) w = Throw w' ∧
    instanceIndices w' = rest ∧
    activeDipoleIndices w' = activeDipoleIndices w ++ [i] ∧
    dipoles w' = <[i:=spawned (params w) r i d0]> (dipoles w) ∧
    effects w' = effects w ∧
    redMatricesBuffer w' = redMatricesBuffer w ∧
    blueMatricesBuffer w' = blueMatricesBuffer w ∧
    simulationRunning w' = true ∧ pendingFrames w' = 0%nat ∧
    (∀ ts' r', step (Frame ts' r') w' = w') ∧
    (∀ now, step (Message_ (Start now)) w' = w').
Proof.
  intros ts r rb w i rest.
  apply (X15_tick_throw_stalls 1016 (draws_all 0) _ (mkBuffer 0 (zeros 1)) 1 [0%nat]).
  - apply short_pair_inv.
  - reflexivity.
  - reflexivity.
  - reflexivity.
  - reflexivity.
  - simpl. lia.
  - change (0 < 400 * deltaTime_of started_worker 1016).
    rewrite started_worker_dt. lra.
Defined.

(** ** Control messages *)

(** X16 — [start] is idempotent: a second [start], whatever time it
    carries, changes nothing, so it neither resets the clock nor requests
    a second animation frame.  A [start] of a stopped worker sets the
    running flag, takes the time as the last timestamp and requests
    exactly one frame. *)
Theorem X16_start_idempotent (now now' : R) (w : Worker) :
  step (Message_ (Start now')) (step (Message_ (Start now)) w)
  = step (Message_ (Start now)) w ∧
  simulationRunning (step (Message_ (Start now)) w) = true ∧
  (simulationRunning w = false →
     lastTimestamp (step (Message_ (Start now)) w) = now ∧
     pendingFrames (step (Message_ (Start now)) w) = S (pendingFrames w)) ∧
  (simulationRunning w = true → step (Message_ (Start now)) w = w).
Proof.
  unfold step, handle, onmessage, mbind, M_bind, get.
  destruct (simulationRunning w) eqn:Hrun; simpl; rewrite ?Hrun; simpl; done.
Qed.

Lemma run_stopped evs : ∀ w,
  Forall is_frame evs → simulationRunning w = false →
  run evs w = set_clock (lastTimestamp w) false (pendingFrames w - length evs) w.
Proof.
  induction evs as [|e evs IH]; intros w Hall Hrun.
  - simpl. rewrite Nat.sub_0_r. destruct w. simpl in *. by subst.
  - apply Forall_cons in Hall as [He Hall]. destruct e as [m|ts r]; [done|].
    change (run (Frame ts r :: evs) w) with (run evs (step (Frame ts r) w)).
    unfold step, handle. destruct (pendingFrames w) as [|k] eqn:Hk.
    + rewrite IH by done. simpl. rewrite Hk. reflexivity.
    + unfold updateSimulation, mbind, M_bind, get. simpl. rewrite Hrun. simpl.
      rewrite IH by done. simpl. reflexivity.
Qed.

(** X17 — [stop] is cooperative.  After a [stop] message the callbacks
    that were still requested run without effect and request no further
    frame: whatever their timestamps and draws, they only use up the
    pending requests, and the pool, the buffers, the clock and the trace
    stay as they were at the [stop]. *)
Theorem X17_stop_drains (w : Worker) (evs : list Event) :
  Forall is_frame evs →
  let w' := run evs (step (Message_ Stop) w) in
  w' = set_clock (lastTimestamp w) false (pendingFrames w - length evs) w ∧
  simulationRunning w' = false ∧
  pendingFrames w' = (pendingFrames w - length evs)%nat ∧
  dipoles w' = dipoles w ∧ instanceIndices w' = instanceIndices w ∧
  activeDipoleIndices w' = activeDipoleIndices w ∧
  redMatricesBuffer w' = redMatricesBuffer w ∧
  blueMatricesBuffer w' = blueMatricesBuffer w ∧
  lastTimestamp w' = lastTimestamp w ∧ effects w' = effects w.
Proof.
  intros Hall w'. unfold w'.
  rewrite run_stopped by done. simpl. done.
Qed.

Lemma X17_stop_drains_witness :
  let w := started_worker in
  let evs := [Frame 1016 (draws_all 0); Frame 1032 (draws_all 0)] in
  let w' := run evs (step (Message_ Stop) w) in
  w' = set_clock (lastTimestamp w) false (pendingFrames w - length evs) w ∧
  simulationRunning w' = false ∧
  pendingFrames w' = (pendingFrames w - length evs)%nat ∧
  dipoles w' = dipoles w ∧ instanceIndices w' = instanceIndices w ∧
  activeDipoleIndices w' = activeDipoleIndices w ∧
  redMatricesBuffer w' = redMatricesBuffer w ∧
  blueMatricesBuffer w' = blueMatricesBuffer w ∧
  lastTimestamp w' = lastTimestamp w ∧ effects w' = effects w.
Proof.
  intros w evs.
  apply (X17_stop_drains started_worker
           [Frame 1016 (draws_all 0); Frame 1032 (draws_all 0)]).
  repeat constructor.
Defined.

Lemma frames_keep_pending N evs : ∀ w,
  sim_inv N w → simulationRunning w = true → (0 < pendingFrames w)%nat →
  Forall is_frame evs →
  sim_inv N (run evs w) ∧ simulationRunning (run evs w) = true ∧
  pendingFrames (run evs w) = pendingFrames w.
Proof.
  induction evs as [|e evs IH]; intros w Hinv Hrun Hpf Hall; [done|].
  apply Forall_cons in Hall as [He Hall]. destruct e as [m|ts r]; [done|].
  change (run (Frame ts r :: evs) w) with (run evs (step (Frame ts r) w)).
  destruct (tick_inv N ts r (dequeued w) Hrun (dequeued_inv N w Hinv))
    as (w1 & Hgo & Hinv1).
  destruct (tick_config N ts r (dequeued w) w1 (dequeued_inv N w Hinv) Hrun Hgo)
    as (_ & Hrun1 & _ & _ & Hpf1 & _).
  rewrite (step_frame ts r w w1 Hpf Hgo).
  assert (pendingFrames w1 = pendingFrames w) as Hsame.
  { rewrite Hpf1. simpl. lia. }
  destruct (IH w1 Hinv1 Hrun1) as (? & ? & Hk); [lia|done|].
  split; [done|]. split; [done|]. by rewrite Hk.
Qed.

(** X18 — Concurrent loops.  Every tick of a running simulation uses up
    one requested animation frame and requests one, so the number of
    pending requests stays the same over any number of callbacks.  A
    [stop] followed by a [start] before the pending callbacks have run
    adds a request: from then on one more callback runs per frame, each
    a full tick, and this number never goes down again while the
    simulation runs. *)
Theorem X18_restart_adds_a_loop (N : nat) (now : R) (w : Worker) (evs : list Event) :
  sim_inv N w → simulationRunning w = true → (0 < pendingFrames w)%nat →
  Forall is_frame evs →
  pendingFrames (run evs w) = pendingFrames w ∧
  simulationRunning (run evs w) = true ∧
  let w1 := step (Message_ (Start now)) (step (Message_ Stop) w) in
  pendingFrames w1 = S (pendingFrames w) ∧
  simulationRunning w1 = true ∧
  pendingFrames (run evs w1) = S (pendingFrames w) ∧
  simulationRunning (run evs w1) = true.
Proof.
  intros Hinv Hrun Hpf Hall.
  destruct (frames_keep_pending N evs w Hinv Hrun Hpf Hall) as (_ & Hr & Hk).
  split; [done|]. split; [done|]. intros w1.
  assert (sim_inv N w1) as Hinv1.
  { unfold w1. apply step_inv; [|done]. by apply step_inv. }
  assert (pendingFrames w1 = S (pendingFrames w)) as Hpf1 by reflexivity.
  assert (simulationRunning w1 = true) as Hrun1 by reflexivity.
  destruct (frames_keep_pending N evs w1 Hinv1 Hrun1) as (_ & Hr' & Hk'); [lia|done|].
  split; [done|]. split; [done|]. split; [|done]. by rewrite Hk'.
Qed.

Lemma X18_restart_adds_a_loop_witness :
  let N := 2%nat in
  let now := 1010 in
  let w := started_worker in
  let evs := [Frame 1016 (draws_all 0); Frame 1016 (draws_all 0)] in
  pendingFrames (run evs w) = pendingFrames w ∧
  simulationRunning (run evs w) = true ∧
  let w1 := step (Message_ (Start now)) (step (Message_ Stop) w) in
  pendingFrames w1 = S (pendingFrames w) ∧
  simulationRunning w1 = true ∧
  pendingFrames (run evs w1) = S (pendingFrames w) ∧
  simulationRunning (run evs w1) = true.
Proof.
  intros N now w evs.
  apply (X18_restart_adds_a_loop 2 1010 started_worker
           [Frame 1016 (draws_all 0); Frame 1016 (draws_all 0)]).
  - apply started_worker_inv.
  - reflexivity.
  - simpl. lia.
  - repeat constructor.
Defined.

(** X19 — [updateParams] merges: the fields present in the message replace
    the worker's, the absent ones keep their values.  An empty update
    changes nothing, an update with every field (what the page sends)
    replaces the configuration, applying an update twice is the same as
    applying it once, and two updates in a row act as one update in which
    the later wins on the fields both carry.  The message touches nothing
    but the configuration. *)
Theorem X19_updateParams_merge (p q : Params) (u v : ParamsUpdate) (w : Worker) :
  merge_params p empty_update = p ∧
  merge_params p (full_update q) = q ∧
  merge_params (merge_params p u) u = merge_params p u ∧
  merge_params (merge_params p u) v = merge_params p (compose_updates u v) ∧
  params (step (Message_ (UpdateParams v)) (step (Message_ (UpdateParams u)) w))
  = merge_params (params w) (compose_updates u v) ∧
  let w' := step (Message_ (UpdateParams u)) w in
  params w' = merge_params (params w) u ∧
  dipoles w' = dipoles w ∧ instanceIndices w' = instanceIndices w ∧
  activeDipoleIndices w' = activeDipoleIndices w ∧
  redMatricesBuffer w' = redMatricesBuffer w ∧
  blueMatricesBuffer w' = blueMatricesBuffer w ∧
  maxDipoles w' = maxDipoles w ∧
  simulationRunning w' = simulationRunning w ∧ lastTimestamp w' = lastTimestamp w ∧
  pendingFrames w' = pendingFrames w ∧ effects w' = effects w.
Proof.
  assert (∀ p, merge_params (merge_params p u) v = merge_params p (compose_updates u v))
    as Hcomp.
  { intros p0. destruct u as [u1 u2 u3 u4 u5 u6], v as [v1 v2 v3 v4 v5 v6].
    unfold merge_params, compose_updates. simpl.
    f_equal; [by destruct v1|by destruct v2|by destruct v3|by destruct v4
             |by destruct v5|by destruct v6]. }
  split; [by destruct p|]. split; [by destruct q|].
  split.
  { destruct u as [[?|] [?|] [?|] [?|] [?|] [?|]]; reflexivity. }
  split; [apply Hcomp|]. split; [apply Hcomp|].
  done.
Qed.
(** * Before [init] *)

Lemma idle_ext w w' :
  dipoles w' = dipoles w → instanceIndices w' = instanceIndices w →
  activeDipoleIndices w' = activeDipoleIndices w → maxDipoles w' = maxDipoles w →
  nextBufferId w' = nextBufferId w →
  redMatricesBuffer w' = redMatricesBuffer w →
  blueMatricesBuffer w' = blueMatricesBuffer w →
  effects w' = effects w →
  idle w → idle w'.
Proof. intros H1 H2 H3 H4 H5 H6 H7 H8 []. split; congruence. Qed.

Lemma idle_tick ts r w :
  idle w → ∃ w', updateSimulation ts r w = Ok tt w' ∧ idle w'.
Proof.
  intros Hidle. unfold updateSimulation, mbind, M_bind, get.
  destruct (simulationRunning w) eqn:Hrun; simpl; [|by exists w].
  unfold modify, spawn, mbind, M_bind, get. simpl.
  rewrite (idle_free _ Hidle). simpl.
  destruct (Rlt_dec _ _); simpl; rewrite (idle_active _ Hidle); simpl.
  - eexists. split; [reflexivity|]. revert Hidle. by apply idle_ext.
  - eexists. split; [reflexivity|]. revert Hidle. by apply idle_ext.
Qed.

Lemma idle_step e w :
  idle w → before_init e → ∃ w', handle e w = Ok tt w' ∧ idle w'.
Proof.
  intros Hidle He. destruct e as [[n p off|now| |u|r b|]|ts r]; simpl in *.
  - done.
  - unfold mbind, M_bind, get. destruct (simulationRunning w); simpl.
    + by exists w.
    + eexists. split; [reflexivity|]. revert Hidle. by apply idle_ext.
  - eexists. split; [reflexivity|]. revert Hidle. by apply idle_ext.
  - eexists. split; [reflexivity|]. revert Hidle. by apply idle_ext.
  - done.
  - by exists w.
  - destruct (pendingFrames w) as [|k]; [by exists w|].
    apply idle_tick. revert Hidle. by apply idle_ext.
Qed.

(** X24 — Before [init].  A worker that has received no [init] (and no
    [returnBuffers]) is inert: whatever [start], [stop], [updateParams]
    and unknown messages arrive and whatever animation-frame callbacks
    run, the pool stays empty, the worker has no buffers, and nothing is
    allocated, written or posted (the trace of effects is empty); the next
    such event is handled without an error and leaves the worker so.  A
    started loop keeps running on the empty pool, one callback per
    frame. *)
Theorem X24_idle_before_init (evs : list Event) :
  Forall before_init evs →
  let w := run evs loaded in
  idle w ∧
  (∀ e, before_init e → threw (handle e w) = false ∧ idle (step e w)) ∧
  (simulationRunning w = true → (0 < pendingFrames w)%nat →
   ∀ ts r, pendingFrames (step (Frame ts r) w) = pendingFrames w ∧
           simulationRunning (step (Frame ts r) w) = true ∧
           lastTimestamp (step (Frame ts r) w) = ts).
Proof.
  intros Hall. cbv zeta.
  assert (idle (run evs loaded)) as Hidle.
  { assert (idle loaded) as H0 by (by split).
    revert H0. generalize loaded. induction Hall as [|e evs He _ IH]; intros w Hw; [done|].
    simpl. apply IH. destruct (idle_step e w Hw He) as (w' & Hh & Hw').
    unfold step. by rewrite Hh. }
  split; [done|].
  split.
  { intros e He. destruct (idle_step e _ Hidle He) as (w' & Hh & Hw').
    unfold step. rewrite Hh. done. }
  intros Hrun Hpend ts r. unfold step, handle.
  destruct (pendingFrames (run evs loaded)) as [|k] eqn:Hk; [lia|].
  unfold updateSimulation, mbind, M_bind, get. simpl. rewrite Hrun. simpl.
  unfold modify, spawn, mbind, M_bind, get. simpl.
  rewrite (idle_free _ Hidle). simpl.
  destruct (Rlt_dec _ _); simpl; rewrite (idle_active _ Hidle); simpl; done.
Qed.

Lemma X24_idle_before_init_witness :
  let evs := [Message_ (Start 1000); Frame 1016 (draws_all 0);
              Message_ (UpdateParams empty_update); Frame 1032 (draws_all 0);
              Message_ Stop; Message_ Unknown; Message_ (Start 2000)] in
  let w := run evs loaded in
  idle w ∧
  (∀ e, before_init e → threw (handle e w) = false ∧ idle (step e w)) ∧
  (simulationRunning w = true → (0 < pendingFrames w)%nat →
   ∀ ts r, pendingFrames (step (Frame ts r) w) = pendingFrames w ∧
           simulationRunning (step (Frame ts r) w) = true ∧
           lastTimestamp (step (Frame ts r) w) = ts).
Proof.
  intros evs. apply (X24_idle_before_init evs).
  repeat (apply Forall_cons_2; [exact I|]). apply Forall_nil_2.
Defined.

(** * Aging follows the clock *)

(** One callback of a running loop, seen from a slot that is active. *)
Lemma survivor_tick N ts r w i d :
  sim_inv N w → simulationRunning w = true → (0 < pendingFrames w)%nat →
  i ∈ activeDipoleIndices w → dipoles w !! i = Some d →
  let w' := step (Frame ts r) w in
  let dt := deltaTime_of w ts in
  sim_inv N w' ∧ simulationRunning w' = true ∧ (0 < pendingFrames w')%nat ∧
  lastTimestamp w' = ts ∧ params w' = params w ∧
  dipoles w' !! i = Some (advanced dt (params w) d) ∧
  (i ∈ activeDipoleIndices w' ↔ ¬ life d - dt * speed (params w) <= 0).
Proof.
  intros Hinv Hrun Hpend Hi Hd.
  destruct (si_fits _ _ Hinv) as (rb & bb & Hfit).
  destruct (tick_spec N ts r (dequeued w) rb bb) as (wS & w' & Hpost & Hinv');
    [by apply dequeued_inv|done|by destruct Hfit|].
  pose proof (tp_run _ _ _ _ _ _ _ Hpost) as Hupd.
  rewrite (step_frame ts r w w' Hpend Hupd). cbv zeta.
  destruct (tick_config N ts r (dequeued w) w') as (Hts & Hrun' & Hp & _ & Hpend' & _);
    [by apply dequeued_inv|done|done|].
  destruct (tp_keep _ _ _ _ _ _ _ Hpost i) as [HiS HdS]; [done|].
  rewrite dequeued_dipoles, Hd in HdS.
  split; [done|]. split; [done|]. split; [rewrite Hpend'; lia|].
  split; [done|]. split; [done|].
  split; [exact (tp_in _ _ _ _ _ _ _ Hpost i d HiS HdS)|].
  rewrite (tp_active _ _ _ _ _ _ _ Hpost), list_elem_of_filter.
  unfold dies. rewrite HdS. simpl. change (params (dequeued w)) with (params w).
  change (deltaTime_of (dequeued w) ts) with (deltaTime_of w ts). tauto.
Qed.

(** X20 — The life of a particle follows the clock, not the frame rate.
    Over any run of animation-frame callbacks of a running loop (positive
    timestamps, in any number and at any spacing, also going backwards), a
    particle that stays active loses [speed] times the time between the
    timestamp the run started from and the timestamp of its last callback,
    in seconds; its initial life, peak scale, axis, slot and position are
    untouched, and the worker's clock is the last timestamp. *)
Theorem X20_aging_follows_the_clock (N : nat) (evs : list Event) (w : Worker)
    (i : nat) (d : Dipole) :
  sim_inv N w → simulationRunning w = true → (0 < pendingFrames w)%nat →
  0 < lastTimestamp w →
  Forall timed_frame evs →
  (∀ k, i ∈ activeDipoleIndices (run (take k evs) w)) →
  dipoles w !! i = Some d →
  let t1 := last_time (lastTimestamp w) evs in
  lastTimestamp (run evs w) = t1 ∧
  ∃ d', dipoles (run evs w) !! i = Some d' ∧
        life d' = life d - speed (params w) * ((t1 - lastTimestamp w) / 1000) ∧
        maxLife d' = maxLife d ∧ maxScale d' = maxScale d ∧ axis d' = axis d ∧
        instanceIndex d' = instanceIndex d ∧ position d' = position d.
Proof.
  revert w d. induction evs as [|e evs IH]; intros w d Hinv Hrun Hpend Ht0 Hev Hact Hd.
  - simpl. split; [done|]. exists d. split; [done|]. split; [lra|done].
  - apply Forall_cons in Hev as [He Hev]. destruct e as [m|ts r]; [done|].
    simpl in He.
    destruct (survivor_tick N ts r w i d Hinv Hrun Hpend (Hact 0%nat) Hd)
      as (Hinv' & Hrun' & Hpend' & Hts & Hp & Hd' & Hsurv).
    pose proof (Hact 1%nat) as H1. simpl in H1. try rewrite take_0 in H1. simpl in H1.
    apply Hsurv in H1.
    destruct (IH (step (Frame ts r) w) (advanced (deltaTime_of w ts) (params w) d))
      as (Hlast & d' & Hd'' & Hlife & Hml & Hms & Hax & Hidx & Hpos); try done.
    { by rewrite Hts. }
    { intros k. apply (Hact (S k)). }
    cbv zeta. simpl. rewrite Hts, Hp in *.
    split; [done|]. exists d'. split; [done|].
    split.
    { rewrite Hlife, advanced_life_survives by done.
      unfold deltaTime_of. destruct (Rlt_dec 0 (lastTimestamp w)); [lra|done]. }
    unfold advanced in *. destruct (Rle_dec _ _); [done|]. simpl in *.
    by rewrite Hml, Hms, Hax, Hidx, Hpos.
Qed.

Lemma X20_aging_follows_the_clock_witness :
  let w := step (Frame 1016 (draws_all 0)) started_worker in
  let evs := [Frame 1032 (draws_all (1/2)); Frame 1040 (draws_all 0)] in
  ∃ d, dipoles w !! 1%nat = Some d ∧
  let t1 := last_time (lastTimestamp w) evs in
  lastTimestamp (run evs w) = t1 ∧
  ∃ d', dipoles (run evs w) !! 1%nat = Some d' ∧
        life d' = life d - speed (params w) * ((t1 - lastTimestamp w) / 1000) ∧
        maxLife d' = maxLife d ∧ maxScale d' = maxScale d ∧ axis d' = axis d ∧
        instanceIndex d' = instanceIndex d ∧ position d' = position d.
Proof.
  destruct first_tick as (Hinv & Hrun & Hts & Hp & Hpend & Hact & _ & d & Hd & Hlife & _).
  revert Hinv Hrun Hts Hp Hpend Hact Hd.
  generalize (step (Frame 1016 (draws_all 0)) started_worker). intros w.
  intros Hinv Hrun Hts Hp Hpend Hact Hd. cbv zeta.
  exists d. split; [exact Hd|].
  apply (X20_aging_follows_the_clock 2 _ w 1 d); try done.
  - rewrite Hpend. lia.
  - rewrite Hts. lra.
  - repeat constructor; simpl; lra.
  - assert (1%nat ∈ activeDipoleIndices w) as H0 by (rewrite Hact; apply list_elem_of_singleton; done).
    destruct (survivor_tick 2 1032 (draws_all (1/2)) w 1 d) as
      (Hinv1 & Hrun1 & Hpend1 & Hts1 & Hp1 & Hd1 & Hs1); try done.
    { rewrite Hpend. lia. }
    assert (deltaTime_of w 1032 = 16/1000) as Hdt.
    { unfold deltaTime_of. rewrite Hts. destruct (Rlt_dec 0 1016); lra. }
    assert (1%nat ∈ activeDipoleIndices (step (Frame 1032 (draws_all (1/2))) w)) as H1.
    { apply Hs1. rewrite Hdt, Hp, Hlife. simpl. lra. }
    assert (life (advanced (deltaTime_of w 1032) (params w) d) = 3168/1000) as Hlife1.
    { rewrite advanced_life_survives;
        [rewrite Hdt, Hp, Hlife; simpl; lra|simpl; rewrite Hdt, Hp, Hlife; simpl; lra]. }
    destruct (survivor_tick 2 1040 (draws_all 0) _ 1 _ Hinv1 Hrun1 Hpend1 H1 Hd1)
      as (_ & _ & _ & _ & _ & _ & Hs2).
    assert (1%nat ∈ activeDipoleIndices
              (step (Frame 1040 (draws_all 0)) (step (Frame 1032 (draws_all (1/2))) w)))
      as H2.
    { apply Hs2. rewrite Hlife1, Hp1, Hp. unfold deltaTime_of. rewrite Hts1.
      destruct (Rlt_dec 0 1032); simpl; lra. }
    intros [|[|[|k]]]; simpl; done.
Defined.

(** * The order of the slots *)

(** X25 — Slots are reused last in, first out, and the active list is
    kept in order of activation.  In a tick of a running simulation a
    spawn takes the last entry of the free list and appends it to the
    active list; the survivors of the loop keep their order in the active
    list; the slots that die are appended to the free list in the order
    the loop meets them, from the back of the active list to the front.
    So the next spawn takes the slot that died frontmost in the active
    list, before any slot that has been free for longer. *)
Theorem X25_slot_order (N : nat) (ts : R) (r : Draws) (w : Worker) :
  sim_inv N w → simulationRunning w = true →
  ∃ wS w',
    let dt := deltaTime_of w ts in
    let dead := filter (dies dt (params w) (dipoles wS)) (activeDipoleIndices wS) in
    spawn r dt (clocked ts w) = Ok tt wS ∧
    updateSimulation ts r w = Ok tt w' ∧
    ((instanceIndices wS = instanceIndices w ∧
      activeDipoleIndices wS = activeDipoleIndices w) ∨
     (∃ i, instanceIndices w = instanceIndices wS ++ [i] ∧
           activeDipoleIndices wS = activeDipoleIndices w ++ [i])) ∧
    activeDipoleIndices w'
    = filter (λ k, ¬ dies dt (params w) (dipoles wS) k) (activeDipoleIndices wS) ∧
    instanceIndices w' = instanceIndices wS ++ reverse dead ∧
    (∀ k rest, dead = k :: rest →
       ∀ ts' r', rSpawn r' < creationProbability (params w') * deltaTime_of w' ts' →
         ∃ wS', spawn r' (deltaTime_of w' ts') (clocked ts' w') = Ok tt wS' ∧
                activeDipoleIndices wS' = activeDipoleIndices w' ++ [k] ∧
                instanceIndices wS' = instanceIndices wS ++ reverse rest).
Proof.
  intros Hinv Hrun.
  destruct (si_fits _ _ Hinv) as (rb & bb & Hfit).
  destruct (tick_spec N ts r w rb bb Hinv Hrun Hfit) as (wS & w' & Hpost & Hinv').
  exists wS, w'. cbv zeta.
  split; [exact (tp_spawn _ _ _ _ _ _ _ Hpost)|].
  split; [exact (tp_run _ _ _ _ _ _ _ Hpost)|].
  split.
  { pose proof (tp_spawn _ _ _ _ _ _ _ Hpost) as Hspawn.
    destruct (spawn_cases r (deltaTime_of w ts) (clocked ts w) rb bb
                (clocked_pool_inv ts w (si_pool _ _ Hinv)) (clocked_fit ts w rb bb Hfit))
      as [[HeqS _]|(i & rest & d0 & _ & Hfree & _ & _ & _ & HeqS)];
      rewrite HeqS in Hspawn; injection Hspawn as <-.
    - by left.
    - right. exists i. simpl in *. done. }
  split; [exact (tp_active _ _ _ _ _ _ _ Hpost)|].
  split; [exact (tp_free _ _ _ _ _ _ _ Hpost)|].
  intros k rest Hdead ts' r' Hdraw.
  pose proof (tp_free _ _ _ _ _ _ _ Hpost) as Hfree'. rewrite Hdead in Hfree'.
  rewrite reverse_cons, app_assoc in Hfree'.
  destruct (si_fits _ _ Hinv') as (rb' & bb' & Hfit').
  destruct (spawn_cases r' (deltaTime_of w' ts') (clocked ts' w') rb' bb'
              (clocked_pool_inv ts' w' (si_pool _ _ Hinv')) (clocked_fit ts' w' rb' bb' Hfit'))
    as [[_ [Hn|Hnil]]|(i & rest' & d0 & _ & Hfree & _ & _ & _ & HeqS)].
  - by destruct Hn.
  - simpl in Hnil. rewrite Hfree' in Hnil. by apply app_eq_nil in Hnil as [_ ?].
  - simpl in Hfree. rewrite Hfree' in Hfree. apply app_inj_tail in Hfree as [<- <-].
    eexists. split; [exact HeqS|]. done.
Qed.

Lemma X25_slot_order_witness :
  let N := 2%nat in
  let ts := 1016 in
  let r := draws_all 0 in
  let w := started_worker in
  ∃ wS w',
    let dt := deltaTime_of w ts in
    let dead := filter (dies dt (params w) (dipoles wS)) (activeDipoleIndices wS) in
    spawn r dt (clocked ts w) = Ok tt wS ∧
    updateSimulation ts r w = Ok tt w' ∧
    ((instanceIndices wS = instanceIndices w ∧
      activeDipoleIndices wS = activeDipoleIndices w) ∨
     (∃ i, instanceIndices w = instanceIndices wS ++ [i] ∧
           activeDipoleIndices wS = activeDipoleIndices w ++ [i])) ∧
    activeDipoleIndices w'
    = filter (λ k, ¬ dies dt (params w) (dipoles wS) k) (activeDipoleIndices wS) ∧
    instanceIndices w' = instanceIndices wS ++ reverse dead ∧
    (∀ k rest, dead = k :: rest →
       ∀ ts' r', rSpawn r' < creationProbability (params w') * deltaTime_of w' ts' →
         ∃ wS', spawn r' (deltaTime_of w' ts') (clocked ts' w') = Ok tt wS' ∧
                activeDipoleIndices wS' = activeDipoleIndices w' ++ [k] ∧
                instanceIndices wS' = instanceIndices wS ++ reverse rest).
Proof.
  intros N ts r w.
  apply (X25_slot_order 2 1016 (draws_all 0) started_worker).
  - apply started_worker_inv.
  - reflexivity.
Defined.

(** * A reused slot starts afresh *)

Lemma normalize_out out out' a :
  0 < Vec3.norm2 a → Vec3.normalize out a = Vec3.normalize out' a.
Proof.
  unfold Vec3.norm2, Vec3.normalize. intros H.
  by destruct (Rlt_dec 0 _).
Qed.

Lemma spawned_forgets p r i d0 d1 :
  axis d1 = axis d0 ∨ ¬ axis_draws_centred r →
  spawned p r i d1 = spawned p r i d0.
Proof.
  intros [H|H]; unfold spawned; [by rewrite H|].
  f_equal. apply normalize_out.
  pose proof (norm2_nonneg (Vec3.set (rAxisX r - 1/2) (rAxisY r - 1/2) (rAxisZ r - 1/2)))
    as Hge.
  destruct Hge as [Hlt|Heq]; [done|].
  exfalso. apply H, centred_norm2. by symmetry.
Qed.

(** X27 — A reused slot starts afresh.  [createDipole] overwrites every
    field of the record of the slot it takes: run on two states that
    differ only in that record, it gives the same result, provided the
    three axis draws are not all one half.  When they are, the one thing
    that is carried over from the previous occupant is its axis; with
    equal axes the results agree again. *)
Theorem X27_spawn_forgets (r : Draws) (w : Worker) (i : nat) (rest : list nat)
    (d0 d1 : Dipole) (rb bb : Buffer) :
  instanceIndices w = rest ++ [i] → dipoles w !! i = Some d0 →
  bufs_fit w rb bb → (i < maxDipoles w)%nat →
  let w1 := set_dipoles (<[i:=d1]> (dipoles w)) w in
  (axis d1 = axis d0 ∨ ¬ axis_draws_centred r → createDipole r w1 = createDipole r w) ∧
  (axis_draws_centred r →
   ∃ w' w1' d d',
     createDipole r w = Ok tt w' ∧ createDipole r w1 = Ok tt w1' ∧
     dipoles w' !! i = Some d ∧ dipoles w1' !! i = Some d' ∧
     axis d = axis d0 ∧ axis d' = axis d1 ∧
     life d' = life d ∧ maxLife d' = maxLife d ∧ maxScale d' = maxScale d ∧
     instanceIndex d' = instanceIndex d ∧ position d' = position d ∧
     quaternion d' = quaternion d).
Proof.
  intros Hfree Hd Hfit Hi w1.
  assert (i < length (dipoles w))%nat as Hlen by (by apply lookup_lt_Some in Hd).
  assert (dipoles w1 !! i = Some d1) as Hd1
    by (simpl; by rewrite list_lookup_insert_eq).
  assert (bufs_fit w1 rb bb) as Hfit1 by (destruct Hfit; by split).
  rewrite (createDipole_eq r w i rest d0 rb bb Hfree Hd Hfit Hi).
  rewrite (createDipole_eq r w1 i rest d1 rb bb Hfree Hd1 Hfit1 Hi).
  split.
  - intros Hax. f_equal. unfold created. simpl.
    rewrite (spawned_forgets _ r i d0 d1 Hax), list_insert_insert_eq. reflexivity.
  - intros Hc. eexists _, _, _, _. split; [reflexivity|]. split; [reflexivity|].
    simpl. rewrite !list_lookup_insert_eq by (by rewrite ?length_insert).
    split; [reflexivity|]. split; [reflexivity|]. simpl.
    apply centred_norm2 in Hc. rewrite !normalize_zero by done. done.
Qed.

Lemma X27_spawn_forgets_witness :
  let r := draws_all 0 in
  let w := started_worker in
  let i := 1%nat in
  let d0 := fresh_dipole 1 in
  let d1 := mkDipole 3 4 5 (mkVec3 0 0 1) 1 (mkVec3 1 2 3) Quat.create in
  let w1 := set_dipoles (<[i:=d1]> (dipoles w)) w in
  (axis d1 = axis d0 ∨ ¬ axis_draws_centred r → createDipole r w1 = createDipole r w) ∧
  (axis_draws_centred r →
   ∃ w' w1' d d',
     createDipole r w = Ok tt w' ∧ createDipole r w1 = Ok tt w1' ∧
     dipoles w' !! i = Some d ∧ dipoles w1' !! i = Some d' ∧
     axis d = axis d0 ∧ axis d' = axis d1 ∧
     life d' = life d ∧ maxLife d' = maxLife d ∧ maxScale d' = maxScale d ∧
     instanceIndex d' = instanceIndex d ∧ position d' = position d ∧
     quaternion d' = quaternion d).
Proof.
  intros r w i d0 d1.
  apply (X27_spawn_forgets (draws_all 0) started_worker 1 [0%nat] (fresh_dipole 1) d1
           (mkBuffer 2 (zeros 2)) (mkBuffer 3 (zeros 2))).
  - reflexivity.
  - reflexivity.
  - split; simpl; (reflexivity || lia).
  - simpl. lia.
Defined.

(** * The length of the quaternions *)




Lemma advanced_axis dt p d : axis (advanced dt p d) = axis d.
Proof. unfold advanced. by destruct (Rle_dec _ _). Qed.







(** * The orientation follows the clock *)

Lemma quat_multiply_assoc a b c :
  Quat.multiply (Quat.multiply a b) c = Quat.multiply a (Quat.multiply b c).
Proof.
  destruct a as [ax ay az aw], b as [bx by_ bz bw], c as [cx cy cz cw].
  unfold Quat.multiply. simpl. f_equal; ring.
Qed.

Lemma axis_angle_zero v : Quat.setFromAxisAngle v 0 = Quat.create.
Proof.
  unfold Quat.setFromAxisAngle, Quat.create. simpl.
  replace (0 / 2) with 0 by lra. rewrite sin_0, cos_0. f_equal; ring.
Qed.

Lemma quat_multiply_create q : Quat.multiply Quat.create q = q.
Proof. destruct q. unfold Quat.multiply, Quat.create. simpl. f_equal; ring. Qed.

(** Two turns about the same axis of length 1 make one turn by the sum of
    the angles. *)
Lemma axis_angle_add v a b :
  Vec3.norm2 v = 1 →
  Quat.multiply (Quat.setFromAxisAngle v a) (Quat.setFromAxisAngle v b)
  = Quat.setFromAxisAngle v (a + b).
Proof.
  intros Hv. unfold Vec3.norm2 in Hv.
  unfold Quat.multiply, Quat.setFromAxisAngle. simpl.
  replace ((a + b) / 2) with (a / 2 + b / 2) by lra.
  rewrite sin_plus, cos_plus.
  set (sa := sin (a / 2)). set (ca := cos (a / 2)).
  set (sb := sin (b / 2)). set (cb := cos (b / 2)).
  f_equal; try ring.
  transitivity (ca * cb - (vx v * vx v + vy v * vy v + vz v * vz v) * (sa * sb)); [ring|].
  rewrite Hv. ring.
Qed.

Lemma advanced_survivor dt p d :
  ¬ life d - dt * speed p <= 0 →
  quaternion (advanced dt p d)
  = Quat.multiply (Quat.setFromAxisAngle (axis d) (dt * spinSpeed p)) (quaternion d).
Proof. intros H. unfold advanced. simpl. by destruct (Rle_dec _ _). Qed.

(** X30 — The orientation of a particle follows the clock, not the frame
    rate.  Over any run of animation-frame callbacks of a running loop
    (positive timestamps, any number, any spacing), a particle with an
    axis of length 1 that stays active is turned about its axis by
    [spinSpeed] times the time between the timestamp the run started from
    and the timestamp of its last callback, in seconds: its quaternion
    is the turn by that one angle times the quaternion it had. *)
Theorem X30_spin_follows_the_clock (N : nat) (evs : list Event) (w : Worker)
    (i : nat) (d : Dipole) :
  sim_inv N w → simulationRunning w = true → (0 < pendingFrames w)%nat →
  0 < lastTimestamp w →
  Forall timed_frame evs →
  (∀ k, i ∈ activeDipoleIndices (run (take k evs) w)) →
  dipoles w !! i = Some d → Vec3.norm2 (axis d) = 1 →
  let t1 := last_time (lastTimestamp w) evs in
  ∃ d', dipoles (run evs w) !! i = Some d' ∧ axis d' = axis d ∧
        quaternion d'
        = Quat.multiply
            (Quat.setFromAxisAngle (axis d)
               (spinSpeed (params w) * ((t1 - lastTimestamp w) / 1000)))
            (quaternion d).
Proof.
  revert w d. induction evs as [|e evs IH]; intros w d Hinv Hrun Hpend Ht0 Hev Hact Hd Hax.
  - simpl. exists d. split; [done|]. split; [done|].
    replace (spinSpeed (params w) * ((lastTimestamp w - lastTimestamp w) / 1000))
      with 0 by lra.
    by rewrite axis_angle_zero, quat_multiply_create.
  - apply Forall_cons in Hev as [He Hev]. destruct e as [m|ts r]; [done|].
    simpl in He.
    destruct (survivor_tick N ts r w i d Hinv Hrun Hpend (Hact 0%nat) Hd)
      as (Hinv' & Hrun' & Hpend' & Hts & Hp & Hd' & Hsurv).
    pose proof (Hact 1%nat) as H1. simpl in H1. try rewrite take_0 in H1. simpl in H1.
    apply Hsurv in H1.
    destruct (IH (step (Frame ts r) w) (advanced (deltaTime_of w ts) (params w) d))
      as (d' & Hd'' & Hax' & Hq); try done.
    { by rewrite Hts. }
    { intros k. apply (Hact (S k)). }
    { by rewrite advanced_axis. }
    cbv zeta. simpl. rewrite Hts, Hp in *. rewrite advanced_axis in Hax', Hq.
    exists d'. split; [done|]. split; [done|].
    rewrite Hq, advanced_survivor, <- quat_multiply_assoc, axis_angle_add by done.
    f_equal. f_equal.
    unfold deltaTime_of. destruct (Rlt_dec 0 (lastTimestamp w)); [lra|done].
Qed.

Lemma first_tick_axis :
  let w1 := step (Frame 1016 (draws_all 0)) started_worker in
  ∃ d, dipoles w1 !! 1%nat = Some d ∧ life d = 3184/1000 ∧ Vec3.norm2 (axis d) = 1.
Proof.
  intros w1.
  pose proof (dequeued_inv 2 _ started_worker_inv) as Hinv.
  destruct (si_fits _ _ Hinv) as (rb & bb & Hfit).
  destruct (tick_spec 2 1016 (draws_all 0) _ rb bb Hinv eq_refl Hfit)
    as (wS & w' & Hpost & Hinv').
  destruct Hpost as [Hspawn Heq _ _ _ _ Hin _ Hact Hfree _].
  assert (w1 = w') as -> by (by apply step_frame; [simpl; lia|]).
  assert (deltaTime_of (dequeued started_worker) 1016 = 16/1000) as Hdt.
  { change (deltaTime_of started_worker 1016 = 16/1000).
    rewrite started_worker_dt. lra. }
  rewrite Hdt in *.
  rewrite (spawn_create (draws_all 0) (16/1000) _ 1 [0%nat] (fresh_dipole 1) rb bb)
    in Hspawn; [|simpl; lra|done|done|by apply clocked_fit|simpl; lia].
  injection Hspawn as <-.
  set (d1 := spawned page_params (draws_all 0) 1 (fresh_dipole 1)).
  exists (advanced (16/1000) page_params d1).
  split. { apply Hin; [simpl; by apply list_elem_of_singleton|done]. }
  split.
  - rewrite advanced_life_survives by (simpl; lra). simpl. lra.
  - rewrite advanced_axis. simpl. apply normalize_unit.
    unfold Vec3.norm2, Vec3.set. simpl. lra.
Qed.

Lemma X30_spin_follows_the_clock_witness :
  let w := step (Frame 1016 (draws_all 0)) started_worker in
  let evs := [Frame 1032 (draws_all (1/2))] in
  ∃ d, dipoles w !! 1%nat = Some d ∧
  let t1 := last_time (lastTimestamp w) evs in
  ∃ d', dipoles (run evs w) !! 1%nat = Some d' ∧ axis d' = axis d ∧
        quaternion d'
        = Quat.multiply
            (Quat.setFromAxisAngle (axis d)
               (spinSpeed (params w) * ((t1 - lastTimestamp w) / 1000)))
            (quaternion d).
Proof.
  destruct first_tick as (Hinv & Hrun & Hts & Hp & Hpend & Hact & _ & _).
  destruct first_tick_axis as (d & Hd & Hlife & Hax).
  revert Hinv Hrun Hts Hp Hpend Hact Hd.
  generalize (step (Frame 1016 (draws_all 0)) started_worker). intros w.
  intros Hinv Hrun Hts Hp Hpend Hact Hd. cbv zeta.
  exists d. split; [exact Hd|].
  apply (X30_spin_follows_the_clock 2 _ w 1 d); try done.
  - rewrite Hpend. lia.
  - rewrite Hts. lra.
  - repeat constructor; simpl; lra.
  - assert (1%nat ∈ activeDipoleIndices w) as H0
      by (rewrite Hact; apply list_elem_of_singleton; done).
    destruct (survivor_tick 2 1032 (draws_all (1/2)) w 1 d) as
      (_ & _ & _ & _ & _ & _ & Hs1); try done.
    { rewrite Hpend. lia. }
    assert (deltaTime_of w 1032 = 16/1000) as Hdt.
    { unfold deltaTime_of. rewrite Hts. destruct (Rlt_dec 0 1016); lra. }
    assert (1%nat ∈ activeDipoleIndices (step (Frame 1032 (draws_all (1/2))) w)) as H1.
    { apply Hs1. rewrite Hdt, Hp, Hlife. simpl. lra. }
    intros [|[|k]]; simpl; done.
Defined.
(** * The spin is not renormalised *)



(** * The page's handler *)

Lemma typed_set_prefix target source :
  (length source ≤ length target)%nat →
  typed_set target source 0 = Some (source ++ drop (length source) target).
Proof. intros H. unfold typed_set. by rewrite decide_True by (simpl; lia). Qed.

Lemma typed_set_full target source :
  length source = length target → typed_set target source 0 = Some source.
Proof.
  intros H. rewrite typed_set_prefix by lia.
  by rewrite H, drop_all, app_nil_r.
Qed.

Lemma typed_set_overflow target source :
  (length target < length source)%nat → typed_set target source 0 = None.
Proof. intros H. unfold typed_set. by rewrite decide_False by (simpl; lia). Qed.

(** X21 — The page's handler for [matricesUpdate].  When both arrays fit
    the meshes, the handler overwrites the front of each mesh array with
    the array received (all of it when the lengths agree, leaving the
    back of the mesh array as it was when the array is shorter), marks
    both meshes and returns to the worker the very two buffers it
    received; the [params] object and the lengths of the mesh arrays are
    unchanged.  When the red array is longer than the red mesh array the
    handler throws with nothing changed; when only the blue one is too
    long it throws after the red mesh array has been overwritten, without
    marking a mesh.  Either way nothing is returned to the worker. *)
Theorem X21_page_copies_and_returns (red blue : Buffer) (pg : Page) :
  ((length (buf_data red) ≤ length (redMesh pg))%nat →
   (length (buf_data blue) ≤ length (blueMesh pg))%nat →
   ∃ pg', page_onmessage red blue pg = PageOk pg' (ReqReturnBuffers red blue) ∧
          redMesh pg' = buf_data red ++ drop (length (buf_data red)) (redMesh pg) ∧
          blueMesh pg' = buf_data blue ++ drop (length (buf_data blue)) (blueMesh pg) ∧
          (length (buf_data red) = length (redMesh pg) → redMesh pg' = buf_data red) ∧
          (length (buf_data blue) = length (blueMesh pg) → blueMesh pg' = buf_data blue) ∧
          length (redMesh pg') = length (redMesh pg) ∧
          length (blueMesh pg') = length (blueMesh pg) ∧
          redNeedsUpdate pg' = true ∧ blueNeedsUpdate pg' = true ∧
          gui_params pg' = gui_params pg) ∧
  ((length (redMesh pg) < length (buf_data red))%nat →
   page_onmessage red blue pg = PageThrow pg) ∧
  ((length (buf_data red) ≤ length (redMesh pg))%nat →
   (length (blueMesh pg) < length (buf_data blue))%nat →
   ∃ pg', page_onmessage red blue pg = PageThrow pg' ∧
          redMesh pg' = buf_data red ++ drop (length (buf_data red)) (redMesh pg) ∧
          blueMesh pg' = blueMesh pg ∧
          redNeedsUpdate pg' = redNeedsUpdate pg ∧
          blueNeedsUpdate pg' = blueNeedsUpdate pg ∧
          gui_params pg' = gui_params pg).
Proof.
  split; [|split].
  - intros Hr Hb. unfold page_onmessage.
    rewrite (typed_set_prefix _ _ Hr), (typed_set_prefix _ _ Hb).
    eexists. split; [reflexivity|]. simpl.
    split; [done|]. split; [done|].
    split; [intros ->; by rewrite drop_all, app_nil_r|].
    split; [intros ->; by rewrite drop_all, app_nil_r|].
    rewrite !length_app, !length_drop. repeat split; lia.
  - intros Hr. unfold page_onmessage. by rewrite (typed_set_overflow _ _ Hr).
  - intros Hr Hb. unfold page_onmessage.
    rewrite (typed_set_prefix _ _ Hr), (typed_set_overflow _ _ Hb).
    eexists. split; [reflexivity|]. done.
Qed.

(** * The page and the worker together *)

(** ** What a handler of the worker posts *)

Lemma posted_since_app new log :
  posted_since (length log) (new ++ log) = omap posted_pair (reverse new).
Proof.
  unfold posted_since. rewrite length_app.
  replace (length new + length log - length log)%nat with (length new) by lia.
  by rewrite take_app_length.
Qed.

Lemma posted_since_same log : posted_since (length log) log = [].
Proof. apply (posted_since_app [] log). Qed.

Lemma writes_not_posted ids ws : writes_to ids ws → omap posted_pair (reverse ws) = [].
Proof.
  intros H. apply Forall_reverse in H. induction H as [|e l He _ IH]; [done|].
  destruct He as (id & off & m & -> & _). simpl. exact IH.
Qed.

Lemma spawn_lengths r dt w wS rb bb rbS bbS :
  pool_inv w → bufs_fit w rb bb → spawn r dt w = Ok tt wS → bufs_fit wS rbS bbS →
  length (buf_data rbS) = length (buf_data rb) ∧
  length (buf_data bbS) = length (buf_data bb).
Proof.
  intros Hinv Hfit Hspawn HfitS.
  destruct (spawn_cases r dt w rb bb Hinv Hfit)
    as [[Heq _]|(i & rest & d0 & _ & _ & _ & _ & Hi & Heq)];
    rewrite Heq in Hspawn; injection Hspawn as <-.
  - destruct Hfit as [Hr Hb _ _ _], HfitS as [Hr' Hb' _ _ _]. by simplify_eq.
  - destruct HfitS as [Hr' Hb' _ _ _]. simpl in Hr', Hb'.
    injection Hr' as <-. injection Hb' as <-.
    pose proof (fit_red_len _ _ _ Hfit) as Hfl1.
    pose proof (fit_blue_len _ _ _ Hfit) as Hfl2.
    simpl in *.
    split; apply put_length; rewrite lobeMatrix_length; lia.
Qed.

(** A tick of a running simulation: it posts nothing and keeps its pair,
    or posts one pair, of the identities and lengths of the pair it had,
    and goes on with a fresh pair. *)
Lemma tick_out N ts r w rb bb :
  sim_inv N w → simulationRunning w = true → bufs_fit w rb bb →
  ∃ w', updateSimulation ts r w = Ok tt w' ∧ sim_inv N w' ∧
    ((effects w' = effects w ∧
      redMatricesBuffer w' = Some rb ∧ blueMatricesBuffer w' = Some bb) ∨
     (∃ rL bL ws,
        effects w' = Allocated (S (nextBufferId w)) (N * 16)
                     :: Allocated (nextBufferId w) (N * 16)
                     :: Posted rL bL :: ws ++ effects w ∧
        writes_to [buf_id rb; buf_id bb] ws ∧
        buf_id rL = buf_id rb ∧ buf_id bL = buf_id bb ∧
        length (buf_data rL) = length (buf_data rb) ∧
        length (buf_data bL) = length (buf_data bb) ∧
        redMatricesBuffer w' = Some (mkBuffer (nextBufferId w) (zeros N)) ∧
        blueMatricesBuffer w' = Some (mkBuffer (S (nextBufferId w)) (zeros N)))).
Proof.
  intros Hinv Hrun Hfit.
  destruct (tick_log N ts r w rb bb Hinv Hrun Hfit)
    as (w' & ws & Hupd & Hws & Hcases).
  destruct (tick_inv N ts r w Hrun Hinv) as (w'' & Hupd' & Hinv').
  rewrite Hupd in Hupd'. injection Hupd' as <-.
  exists w'. split; [done|]. split; [done|].
  destruct Hcases as [(_ & He & Hr & Hb & _)|(rL & bL & He & Hidr & Hidb & Hr & Hb & _)].
  { left. rewrite Hr, Hb. split; [done|]. by destruct Hfit. }
  right. exists rL, bL, ws. do 4 (split; [done|]).
  cut (length (buf_data rL) = length (buf_data rb) ∧
       length (buf_data bL) = length (buf_data bb)); [intros [? ?]; done|].
  destruct (updateSimulation_spec ts r w rb bb Hrun (si_pool _ _ Hinv) Hfit)
    as (wS & wL & rbS & bbS & rL' & bL' & Hspawn & HinvS & HfitS & _ & _
        & Hpost & HrL & HbL & _ & _ & Heq).
  rewrite Hupd in Heq. injection Heq as Heq.
  destruct (spawn_lengths r (deltaTime_of w ts) (clocked ts w) wS rb bb rbS bbS)
    as [HlenR HlenB]; try done.
  { apply clocked_pool_inv, Hinv. }
  { by apply clocked_fit. }
  assert (∀ k, k ∈ activeDipoleIndices wS →
            (k * 16 + 16 ≤ length (buf_data rbS))%nat ∧
            (k * 16 + 16 ≤ length (buf_data bbS))%nat) as Hroom.
  { intros k Hk.
    assert (k < maxDipoles wS)%nat
      by (apply (pool_inv_bound wS k HinvS), elem_of_app; by right).
    destruct HfitS as [_ _ H1 H2 _]. lia. }
  destruct Hpost.
  destruct (decide (activeDipoleIndices wS = [])) as [Hnil|Hne].
  - exfalso. rewrite Hnil in lp_effects0. simpl in lp_effects0.
    assert (effects w' = effects wS) as HeS by (rewrite Heq; simpl; done).
    destruct (spawn_cases r (deltaTime_of w ts) (clocked ts w) rb bb
                (clocked_pool_inv ts w (si_pool _ _ Hinv)) (clocked_fit ts w rb bb Hfit))
      as [[HeqS _]|(i & rest & d0 & _ & _ & _ & _ & _ & HeqS)];
      rewrite HeqS in Hspawn; injection Hspawn as <-.
    + simpl in HeS. rewrite He in HeS. apply (f_equal length) in HeS.
      simpl in HeS. rewrite length_app in HeS. lia.
    + simpl in Hnil. by apply app_eq_nil in Hnil as [_ ?].
  - assert (effects w' = Allocated (S (nextBufferId wL)) (maxDipoles wL * 16)
                         :: Allocated (nextBufferId wL) (maxDipoles wL * 16)
                         :: Posted rL' bL' :: effects wL) as HeL
      by (rewrite Heq; reflexivity).
    rewrite He in HeL.
    assert (Posted rL bL = Posted rL' bL') as HP by congruence.
    injection HP as -> ->.
    rewrite HrL in lp_red0. rewrite HbL in lp_blue0.
    injection lp_red0 as ->. injection lp_blue0 as ->. simpl.
    split.
    + rewrite foldr_paint_length; [done|]. intros k Hk. by apply Hroom.
    + rewrite foldr_paint_length; [done|]. intros k Hk. by apply Hroom.
Qed.

Lemma holds_exact_ext n w w' :
  maxDipoles w' = maxDipoles w →
  redMatricesBuffer w' = redMatricesBuffer w →
  blueMatricesBuffer w' = blueMatricesBuffer w →
  holds_exact n w → holds_exact n w'.
Proof.
  intros Hm Hr Hb (r & b & [H1 H2 H3 H4 H5] & Hex). exists r, b.
  split; [|done]. split; [congruence|congruence|by rewrite Hm|by rewrite Hm|done].
Qed.

Lemma holds_exact_intro n w r b :
  maxDipoles w = n →
  redMatricesBuffer w = Some r → blueMatricesBuffer w = Some b →
  exact_pair n (r, b) → holds_exact n w.
Proof.
  intros Hm Hr Hb Hex. exists r, b. split; [|done].
  destruct Hex as (H1 & H2 & H3). simpl in *.
  split; [done|done|rewrite Hm; lia|rewrite Hm; lia|done].
Qed.

(** An animation-frame callback of an initialised worker. *)
Lemma frame_out n ts r w :
  sim_inv n w → holds_exact n w →
  ∃ w' new,
    handle (Frame ts r) w = Ok tt w' ∧ sim_inv n w' ∧ holds_exact n w' ∧
    effects w' = new ++ effects w ∧
    Forall (exact_pair n) (omap posted_pair (reverse new)) ∧
    params w' = params w.
Proof.
  intros Hinv Hex. unfold handle.
  destruct (pendingFrames w) as [|k] eqn:Hk.
  { exists w, []. do 4 (split; [done|]). split; [by apply Forall_nil|done]. }
  set (w1 := set_clock (lastTimestamp w) (simulationRunning w) k w).
  assert (sim_inv n w1) as Hinv1 by (revert Hinv; by apply sim_inv_ext).
  assert (holds_exact n w1) as Hex1 by (revert Hex; by apply holds_exact_ext).
  destruct (simulationRunning w) eqn:Hrun.
  - destruct Hex1 as (rb & bb & Hfit & Hl1 & Hl2 & Hne). simpl in Hl1, Hl2, Hne.
    assert (simulationRunning w1 = true) as Hrun1 by reflexivity.
    destruct (tick_out n ts r w1 rb bb Hinv1 Hrun1 Hfit) as (w' & Hupd & Hinv' & Hcases).
    destruct (tick_config n ts r w1 w' Hinv1 Hrun1 Hupd) as (_ & _ & Hp & _).
    destruct Hcases as [(He & Hr & Hb)|(rL & bL & ws & He & Hws & Hidr & Hidb & HlR & HlB & Hr & Hb)].
    + exists w', []. split; [done|]. split; [done|].
      split; [by apply (holds_exact_intro n w' rb bb); [apply Hinv'|..]|].
      split; [done|]. split; [by apply Forall_nil|done].
    + exists w'. eexists (_ :: _ :: _ :: ws). split; [done|]. split; [done|].
      split.
      { apply (holds_exact_intro n w' _ _ (si_cap _ _ Hinv') Hr Hb).
        split; [|split]; simpl; rewrite ?zeros_length; (done || lia). }
      split; [exact He|].
      split; [|done].
      rewrite !reverse_cons, <- !app_assoc, omap_app, (writes_not_posted _ _ Hws).
      simpl. apply Forall_cons_2; [|by apply Forall_nil].
      split; [|split]; simpl; congruence.
  - rewrite (updateSimulation_stopped ts r w1) by reflexivity.
    exists w1, []. split; [done|]. split; [done|]. split; [done|].
    split; [done|]. split; [by apply Forall_nil|done].
Qed.

Lemma merge_full p q : merge_params p (full_update q) = q.
Proof. by destruct q. Qed.

(** A message of the page other than [init] at an initialised worker. *)
Lemma request_out n q now w :
  sim_inv n w → holds_exact n w → exact_request n q →
  ∃ w',
    handle (Message_ (deliver q now)) w = Ok tt w' ∧ sim_inv n w' ∧ holds_exact n w' ∧
    posted_since (length (effects w)) (effects w') = [] ∧
    params w' = request_params (params w) q.
Proof.
  intros Hinv Hex Hq.
  assert (admissible n (Message_ (deliver q now))) as Hadm.
  { destruct q as [| | |r b]; simpl in *; try done.
    destruct Hq as (H1 & H2 & H3). simpl in *. split; [lia|]. split; [lia|done]. }
  pose proof (step_inv n _ w Hinv Hadm) as Hinv'. unfold step in Hinv'.
  destruct q as [n' p off| |p|r b]; simpl in *.
  - done.
  - unfold mbind, M_bind, get in *. destruct (simulationRunning w); simpl in *.
    + eexists. split; [reflexivity|]. split; [done|]. split; [done|].
      split; [apply posted_since_same|done].
    + eexists. split; [reflexivity|]. split; [done|].
      split; [revert Hex; by apply holds_exact_ext|].
      split; [apply posted_since_same|done].
  - eexists. split; [reflexivity|]. split; [done|].
    split; [revert Hex; by apply holds_exact_ext|].
    split; [apply posted_since_same|]. simpl. apply merge_full.
  - eexists. split; [reflexivity|]. split; [done|].
    split; [by apply (holds_exact_intro n _ r b); [apply Hinv|..]|].
    split; [|done]. simpl.
    apply (posted_since_app [Returned r b] (effects w)).
Qed.

(** The [init] message. *)
Lemma init_out n p off w :
  ∃ w',
    handle (Message_ (Init n p off)) w = Ok tt w' ∧ sim_inv n w' ∧ holds_exact n w' ∧
    posted_since (length (effects w)) (effects w')
    = [(mkBuffer (nextBufferId w) (zeros n), mkBuffer (S (nextBufferId w)) (zeros n))] ∧
    params w' = p.
Proof.
  exists (initialised n p off w). split; [apply init_eq|].
  split; [apply initialised_inv|].
  split.
  { apply (holds_exact_intro n _ (mkBuffer (S (S (nextBufferId w))) (zeros n))
             (mkBuffer (S (S (S (nextBufferId w)))) (zeros n))); try done.
    split; [|split]; simpl; rewrite ?zeros_length; (done || lia). }
  split; [|done]. simpl.
  etrans; [apply (posted_since_app [_; _; _; _; _] (effects w))|reflexivity].
Qed.

Lemma worker_runs_ok e s w' :
  handle e (sys_worker s) = Ok tt w' →
  worker_runs e s
  = mkSystem w' (sys_page s) (to_worker s)
      (to_page s ++ posted_since (length (effects (sys_worker s))) (effects w'))
      (sys_errors s).
Proof. intros H. unfold worker_runs. by rewrite H. Qed.

(** ** One step of the two threads *)

Lemma exact_zeros n id : exact_pair n (mkBuffer id (zeros n), mkBuffer (S id) (zeros n)).
Proof. split; [|split]; simpl; rewrite ?zeros_length; (done || lia). Qed.

Lemma flow_step n a s :
  flow_inv n s →
  let s' := sys_step a s in
  flow_inv n s' ∧
  settled_params s'
  = match a with
    | GuiChange f x =>
        if notifies f then gui_set f x (gui_params (sys_page s)) else settled_params s
    | _ => settled_params s
    end ∧
  gui_params (sys_page s')
  = match a with
    | GuiChange f x => gui_set f x (gui_params (sys_page s))
    | _ => gui_params (sys_page s)
    end ∧
  (length (redMesh (sys_page s)) = (n * 16)%nat →
   length (blueMesh (sys_page s)) = (n * 16)%nat →
   sys_errors s' = sys_errors s ∧
   length (redMesh (sys_page s')) = (n * 16)%nat ∧
   length (blueMesh (sys_page s')) = (n * 16)%nat).
Proof.
  destruct s as [w pg tw tp er]. intros [Htp Hw]. simpl in Htp, Hw. cbv zeta.
  destruct a as [ts r|now| |f x].
  - (* an animation-frame callback *)
    unfold sys_step.
    destruct Hw as [(-> & -> & p & off & rest & -> & Hrest)|(Hinv & Hex & Hq)].
    + unfold worker_runs. simpl. split; [|done].
      split; [done|]. left. split; [done|]. split; [done|]. by exists p, off, rest.
    + destruct (frame_out n ts r w Hinv Hex) as (w' & new & Hh & Hinv' & Hex' & He & Hnew & Hp).
      erewrite worker_runs_ok by exact Hh. simpl. rewrite He, posted_since_app.
      split.
      { split; simpl; [by apply Forall_app|by right]. }
      split; [unfold settled_params; simpl; by rewrite Hp|]. done.
  - (* the worker takes a message *)
    unfold sys_step. cbn [to_worker to_page sys_page sys_worker sys_errors].
    destruct tw as [|q rest].
    { split; [by split|done]. }
    destruct Hw as [(-> & -> & p & off & rest' & Heq & Hrest)|(Hinv & Hex & Hq)].
    + injection Heq as -> ->.
      destruct (init_out n p off loaded) as (w' & Hh & Hinv' & Hex' & Hposted & Hp).
      erewrite worker_runs_ok by exact Hh. simpl. simpl in Hposted. rewrite Hposted.
      split.
      { split; simpl.
        - apply Forall_cons_2; [apply exact_zeros|by apply Forall_nil].
        - by right. }
      split; [unfold settled_params; simpl; by rewrite Hp|]. done.
    + apply Forall_cons in Hq as [Hq Hrest].
      destruct (request_out n q now w Hinv Hex Hq) as (w' & Hh & Hinv' & Hex' & Hposted & Hp).
      erewrite worker_runs_ok by exact Hh. simpl. rewrite Hposted, app_nil_r.
      split.
      { split; simpl; [done|by right]. }
      split; [unfold settled_params; simpl; by rewrite Hp|]. done.
  - (* the page takes a message *)
    simpl. destruct tp as [|[r b] rest].
    { split; [by split|done]. }
    apply Forall_cons in Htp as [Hrb Hrest].
    assert (flow_inv n (mkSystem w pg (tw ++ [ReqReturnBuffers r b]) rest er)) as Hok.
    { split; simpl; [done|]. right.
      destruct Hw as [(_ & Hnil & _)|(Hinv & Hex & Hq)]; [done|].
      split; [done|]. split; [done|].
      apply Forall_app. split; [done|]. apply Forall_cons_2; [done|by apply Forall_nil]. }
    assert (flow_inv n (mkSystem w pg tw rest er)) as Hthrow.
    { split; simpl; [done|]. right.
      destruct Hw as [(_ & Hnil & _)|(Hinv & Hex & Hq)]; done. }
    destruct Hrb as (Hl1 & Hl2 & Hne). simpl in Hl1, Hl2.
    unfold page_onmessage.
    destruct (typed_set (redMesh pg) (buf_data r) 0) as [ra|] eqn:Hra.
    + destruct (typed_set (blueMesh pg) (buf_data b) 0) as [ba|] eqn:Hba.
      * split.
        { destruct Hok as [H1 H2]. split; simpl in *; done. }
        split.
        { unfold settled_params. simpl. by rewrite foldl_app. }
        split; [done|]. simpl. intros Hmr Hmb.
        rewrite typed_set_full in Hra by congruence.
        rewrite typed_set_full in Hba by congruence.
        injection Hra as <-. injection Hba as <-. done.
      * split.
        { destruct Hthrow as [H1 H2]. split; simpl in *; done. }
        split; [done|]. split; [done|]. simpl. intros Hmr Hmb.
        rewrite typed_set_full in Hba by congruence. done.
    + split.
      { destruct Hthrow as [H1 H2]. split; simpl in *; done. }
      split; [done|]. split; [done|]. simpl. intros Hmr Hmb.
      rewrite typed_set_full in Hra by congruence. done.
  - (* a slider moves *)
    simpl. split.
    { split; simpl; [done|].
      destruct Hw as [(-> & -> & p & off & rest & -> & Hrest)|(Hinv & Hex & Hq)].
      - left. split; [done|]. split; [done|]. eexists p, off, _.
        split; [reflexivity|]. apply Forall_app. split; [done|].
        destruct (notifies f); [apply Forall_cons_2; [done|]|]; by apply Forall_nil.
      - right. split; [done|]. split; [done|]. apply Forall_app. split; [done|].
        destruct (notifies f); [apply Forall_cons_2; [done|]|]; by apply Forall_nil. }
    split.
    { unfold settled_params. simpl. rewrite foldl_app.
      by destruct (notifies f). }
    done.
Qed.

Lemma booted_flow n p off red_array blue_array :
  flow_inv n (booted n p off red_array blue_array).
Proof.
  split; simpl; [by apply Forall_nil|]. left. split; [done|]. split; [done|].
  exists p, off, [ReqStart]. split; [done|].
  apply Forall_cons_2; [done|by apply Forall_nil].
Qed.

Lemma sys_run_snoc acts a s : sys_run (acts ++ [a]) s = sys_step a (sys_run acts s).
Proof. unfold sys_run. by rewrite foldl_app. Qed.

Lemma sys_run_inv n acts s : sys_inv n s → sys_inv n (sys_run acts s).
Proof.
  intros Hinv. induction acts as [|a acts IH] using rev_ind; [done|].
  rewrite sys_run_snoc. destruct IH as [Hflow Herr Hr Hb].
  destruct (flow_step n a _ Hflow) as (Hflow' & _ & _ & Hmesh).
  destruct (Hmesh Hr Hb) as (He & Hr' & Hb').
  split; [done|congruence|done|done].
Qed.

Lemma gui_track_snoc acts a p :
  gui_track (acts ++ [a]) p
  = match a with
    | GuiChange f x =>
        let gui' := gui_set f x (gui_track acts p).1 in
        (gui', if notifies f then gui' else (gui_track acts p).2)
    | _ => gui_track acts p
    end.
Proof.
  unfold gui_track. rewrite foldl_app. simpl.
  destruct (foldl _ _ acts) as [gui sent]. by destruct a.
Qed.

Lemma sys_run_params n acts s :
  flow_inv n s →
  flow_inv n (sys_run acts s) ∧
  gui_params (sys_page (sys_run acts s))
  = (foldl (λ '(gui, sent) a,
             match a with
             | GuiChange f x =>
                 let gui' := gui_set f x gui in (gui', if notifies f then gui' else sent)
             | _ => (gui, sent)
             end) (gui_params (sys_page s), settled_params s) acts).1 ∧
  settled_params (sys_run acts s)
  = (foldl (λ '(gui, sent) a,
             match a with
             | GuiChange f x =>
                 let gui' := gui_set f x gui in (gui', if notifies f then gui' else sent)
             | _ => (gui, sent)
             end) (gui_params (sys_page s), settled_params s) acts).2.
Proof.
  intros Hflow. induction acts as [|a acts IH] using rev_ind; [done|].
  rewrite sys_run_snoc, foldl_app. destruct IH as (Hflow' & Hg & Hs).
  destruct (flow_step n a _ Hflow') as (Hflow'' & Hs' & Hg' & _).
  split; [done|]. rewrite Hg', Hs'. simpl.
  destruct (foldl _ _ acts) as [gui sent]. simpl in *.
  destruct a; simpl; try done. rewrite Hg, Hs. by destruct (notifies f).
Qed.

(** X22 — The page and the worker together never throw.  From the state
    in which the page's [init()] has run, with mesh arrays of [n] matrices
    for an [init] with capacity [n], and whatever the order in which
    animation-frame callbacks run, messages are taken and sliders move: no
    handler of either thread throws; the worker is as loaded or satisfies
    the invariant of the simulation; every pair under way to the page has
    exactly [n] matrices per block; and when the page takes a pair, its
    mesh arrays become exactly the two arrays received, both meshes are
    marked, and that same pair is sent back to the worker. *)
Theorem X22_closed_loop_safe (n : nat) (p : Params) (off : R)
    (red_array blue_array : list R) (acts : list Action) :
  length red_array = (n * 16)%nat → length blue_array = (n * 16)%nat →
  let s := sys_run acts (booted n p off red_array blue_array) in
  sys_errors s = 0%nat ∧
  (sys_worker s = loaded ∨ sim_inv n (sys_worker s)) ∧
  Forall (exact_pair n) (to_page s) ∧
  length (redMesh (sys_page s)) = (n * 16)%nat ∧
  length (blueMesh (sys_page s)) = (n * 16)%nat ∧
  ∀ r b rest, to_page s = (r, b) :: rest →
    let s' := sys_step PageReceives s in
    redMesh (sys_page s') = buf_data r ∧ blueMesh (sys_page s') = buf_data b ∧
    redNeedsUpdate (sys_page s') = true ∧ blueNeedsUpdate (sys_page s') = true ∧
    to_worker s' = to_worker s ++ [ReqReturnBuffers r b] ∧ to_page s' = rest ∧
    sys_worker s' = sys_worker s.
Proof.
  intros Hr Hb s.
  assert (sys_inv n s) as [[Htp Hw] Herr Hmr Hmb].
  { apply sys_run_inv. split; [apply booted_flow|done..]. }
  split; [done|].
  split; [destruct Hw as [(? & _)|(? & _)]; [by left|by right]|].
  do 3 (split; [done|]).
  intros r b rest Hq. rewrite Hq in Htp. apply Forall_cons in Htp as [(Hl1 & Hl2 & _) _].
  simpl in Hl1, Hl2. cbv zeta. unfold sys_step. rewrite Hq. unfold page_onmessage.
  rewrite !typed_set_full by congruence. done.
Qed.

Lemma X22_closed_loop_safe_witness :
  let n := 2%nat in
  let acts := [WorkerReceives 1000; WorkerReceives 1000; PageReceives;
               WorkerFrame 1016 (draws_all 0); WorkerReceives 1020; PageReceives;
               GuiChange SpinSpeed 1; WorkerFrame 1032 (draws_all 0)] in
  let s := sys_run acts (booted n page_params page_lobeOffset (zeros 2) (zeros 2)) in
  sys_errors s = 0%nat ∧
  (sys_worker s = loaded ∨ sim_inv n (sys_worker s)) ∧
  Forall (exact_pair n) (to_page s) ∧
  length (redMesh (sys_page s)) = (n * 16)%nat ∧
  length (blueMesh (sys_page s)) = (n * 16)%nat ∧
  ∀ r b rest, to_page s = (r, b) :: rest →
    let s' := sys_step PageReceives s in
    redMesh (sys_page s') = buf_data r ∧ blueMesh (sys_page s') = buf_data b ∧
    redNeedsUpdate (sys_page s') = true ∧ blueNeedsUpdate (sys_page s') = true ∧
    to_worker s' = to_worker s ++ [ReqReturnBuffers r b] ∧ to_page s' = rest ∧
    sys_worker s' = sys_worker s.
Proof.
  intros n acts.
  apply (X22_closed_loop_safe 2 page_params page_lobeOffset (zeros 2) (zeros 2) acts).
  - reflexivity.
  - reflexivity.
Defined.

Lemma silent_track acts p : Forall silent acts → (gui_track acts p).2 = p.
Proof.
  induction acts as [|a acts IH] using rev_ind; [done|].
  intros H. apply Forall_app in H as [Hacts Ha]. apply Forall_cons in Ha as [Ha _].
  rewrite gui_track_snoc. destruct a as [| | |f x]; simpl; try by apply IH.
  simpl in Ha. rewrite Ha. by apply IH.
Qed.

(** X23 — The worker's configuration lags the GUI.  Whatever happens
    after the page's [init()], the configuration the worker has once it
    has taken every message of its queue is the page's [params] object as
    it was at the last move of a slider that notifies the worker (base max
    size, size variance, spin speed), or as it was at [init] when none of
    them has moved.  A move of the lifetime, speed or creation-rate slider
    changes the page's object and sends nothing, so the worker learns the
    new value only with the next move of a notifying slider, which sends
    the whole object. *)
Theorem X23_worker_params_lag (n : nat) (p : Params) (off : R)
    (red_array blue_array : list R) (acts : list Action) :
  let s := sys_run acts (booted n p off red_array blue_array) in
  gui_params (sys_page s) = (gui_track acts p).1 ∧
  settled_params s = (gui_track acts p).2 ∧
  (to_worker s = [] → params (sys_worker s) = (gui_track acts p).2) ∧
  (Forall silent acts → settled_params s = p) ∧
  (∀ f x, let s' := sys_step (GuiChange f x) s in
          gui_params (sys_page s') = gui_set f x (gui_params (sys_page s)) ∧
          sys_worker s' = sys_worker s ∧
          (notifies f = false →
             to_worker s' = to_worker s ∧ settled_params s' = settled_params s) ∧
          (notifies f = true →
             to_worker s' = to_worker s ++ [ReqUpdateParams (gui_params (sys_page s'))] ∧
             settled_params s' = gui_params (sys_page s'))).
Proof.
  intros s. subst s.
  destruct (sys_run_params n acts (booted n p off red_array blue_array))
    as (Hflow & Hg & Hs); [apply booted_flow|].
  change (gui_params (sys_page (sys_run acts (booted n p off red_array blue_array)))
          = (gui_track acts p).1) in Hg.
  change (settled_params (sys_run acts (booted n p off red_array blue_array))
          = (gui_track acts p).2) in Hs.
  split; [done|]. split; [done|].
  split.
  { intros Hq. rewrite <- Hs. unfold settled_params. by rewrite Hq. }
  split.
  { intros Hsil. rewrite Hs. by apply silent_track. }
  intros f x. cbv zeta. unfold sys_step, gui_change. simpl.
  split; [done|]. split; [done|].
  split.
  - intros ->. rewrite app_nil_r. done.
  - intros ->. split; [done|]. unfold settled_params. simpl. by rewrite foldl_app.
Qed.

(** * Every block is in one place *)

Lemma outstanding_writes ids ws l :
  writes_to ids ws → outstanding (ws ++ l) = outstanding l.
Proof.
  intros H. induction H as [|e ws He _ IH]; [done|].
  destruct He as (id & off & m & -> & _). exact IH.
Qed.

Lemma writes_owned_app ids ws l :
  writes_to ids ws → (∀ id, id ∈ ids → id ∉ outstanding l) →
  writes_owned l → writes_owned (ws ++ l).
Proof.
  intros H Hids Hl. induction H as [|e ws He Hws IH]; [done|].
  destruct He as (id & off & m & -> & Hid). simpl. split; [|exact IH].
  rewrite (outstanding_writes ids ws l Hws). by apply Hids.
Qed.

Lemma posted_since_publish ids ws l a1 n1 a2 n2 r b :
  writes_to ids ws →
  posted_since (length l) (Allocated a1 n1 :: Allocated a2 n2 :: Posted r b :: ws ++ l)
  = [(r, b)].
Proof.
  intros Hws.
  change (Allocated a1 n1 :: Allocated a2 n2 :: Posted r b :: ws ++ l)
    with ((Allocated a1 n1 :: Allocated a2 n2 :: Posted r b :: ws) ++ l).
  rewrite posted_since_app, !reverse_cons, <- !app_assoc, omap_app.
  by rewrite (writes_not_posted _ _ Hws).
Qed.

(** An animation-frame callback of an initialised worker, in full. *)
Lemma frame_cases n ts r w rb bb :
  sim_inv n w → bufs_fit w rb bb →
  ∃ w', handle (Frame ts r) w = Ok tt w' ∧
    ((effects w' = effects w ∧
      redMatricesBuffer w' = Some rb ∧ blueMatricesBuffer w' = Some bb ∧
      nextBufferId w' = nextBufferId w) ∨
     (∃ rL bL ws,
        effects w' = Allocated (S (nextBufferId w)) (n * 16)
                     :: Allocated (nextBufferId w) (n * 16)
                     :: Posted rL bL :: ws ++ effects w ∧
        writes_to [buf_id rb; buf_id bb] ws ∧
        buf_id rL = buf_id rb ∧ buf_id bL = buf_id bb ∧
        redMatricesBuffer w' = Some (mkBuffer (nextBufferId w) (zeros n)) ∧
        blueMatricesBuffer w' = Some (mkBuffer (S (nextBufferId w)) (zeros n)) ∧
        nextBufferId w' = S (S (nextBufferId w)))).
Proof.
  intros Hinv Hfit. unfold handle.
  destruct (pendingFrames w) as [|k] eqn:Hk.
  { exists w. split; [done|]. left. by destruct Hfit. }
  set (w1 := set_clock (lastTimestamp w) (simulationRunning w) k w).
  assert (sim_inv n w1) as Hinv1 by (revert Hinv; by apply sim_inv_ext).
  assert (bufs_fit w1 rb bb) as Hfit1 by (destruct Hfit; by split).
  destruct (simulationRunning w) eqn:Hrun.
  - assert (simulationRunning w1 = true) as Hrun1 by reflexivity.
    destruct (tick_log n ts r w1 rb bb Hinv1 Hrun1 Hfit1)
      as (w' & ws & Hupd & Hws & Hcases).
    exists w'. split; [done|].
    destruct Hcases as [(_ & He & Hr & Hb & Hn)|(rL & bL & He & Hidr & Hidb & Hr & Hb & Hn)].
    + left. rewrite Hr, Hb. destruct Hfit. done.
    + right. exists rL, bL, ws. done.
  - rewrite (updateSimulation_stopped ts r w1) by reflexivity.
    exists w1. split; [done|]. left. by destruct Hfit.
Qed.

(** A message of the page other than [init], in full. *)
Lemma request_cases q now w :
  (∀ n p off, q ≠ ReqInit n p off) →
  ∃ w', handle (Message_ (deliver q now)) w = Ok tt w' ∧
        nextBufferId w' = nextBufferId w ∧
        match q with
        | ReqReturnBuffers r b =>
            effects w' = Returned r b :: effects w ∧
            redMatricesBuffer w' = Some r ∧ blueMatricesBuffer w' = Some b
        | _ =>
            effects w' = effects w ∧
            redMatricesBuffer w' = redMatricesBuffer w ∧
            blueMatricesBuffer w' = blueMatricesBuffer w
        end.
Proof.
  intros Hq. destruct q as [n p off| |p|r b]; simpl.
  - by destruct (Hq n p off).
  - unfold mbind, M_bind, get. destruct (simulationRunning w); simpl;
      eexists; (split; [reflexivity|done]).
  - eexists. split; [reflexivity|done].
  - eexists. split; [reflexivity|done].
Qed.

Lemma perm_move {A} (l1 l3 : list A) x y :
  l1 ++ x :: y :: l3 ≡ₚ x :: y :: l1 ++ l3.
Proof.
  etrans; [symmetry; apply Permutation_middle|]. apply Permutation_skip.
  symmetry. apply Permutation_middle.
Qed.

Lemma worker_ids_fit w rb bb : bufs_fit w rb bb → worker_ids w = [buf_id rb; buf_id bb].
Proof. intros [Hr Hb _ _ _]. unfold worker_ids. by rewrite Hr, Hb. Qed.

Lemma own_step n a s : sys_inv n s → own_sys s → own_sys (sys_step a s).
Proof.
  destruct s as [w pg tw tp er].
  intros [[Htp Hw] Herr Hmr Hmb] [Hnd Hbd Hout Hwr].
  unfold away in *. cbn [sys_worker sys_page to_worker to_page sys_errors] in *.
  destruct a as [ts r|now| |f x].
  - (* an animation-frame callback *)
    unfold sys_step.
    destruct Hw as [(-> & -> & p & off & rest & -> & Hrest)|(Hinv & Hex & Hq)].
    { unfold worker_runs. simpl. by split. }
    destruct Hex as (rb & bb & Hfit & _).
    pose proof (worker_ids_fit w rb bb Hfit) as Hids. rewrite Hids in Hnd, Hbd.
    destruct (frame_cases n ts r w rb bb Hinv Hfit) as (w' & Hh & Hcases).
    erewrite worker_runs_ok by exact Hh. simpl.
    destruct Hcases as [(He & Hr & Hb & Hn)
                       |(rL & bL & ws & He & Hws & Hidr & Hidb & Hr & Hb & Hn)].
    + rewrite He, posted_since_same, app_nil_r.
      split; unfold away, worker_ids; simpl; rewrite ?Hr, ?Hb, ?Hn, ?He; done.
    + rewrite He, (posted_since_publish _ _ _ _ _ _ _ _ _ Hws).
      assert (((tp ++ [(rL, bL)]) ≫= pair_ids) ++ (tw ≫= request_ids)
              ≡ₚ [buf_id rb; buf_id bb] ++ (tp ≫= pair_ids) ++ (tw ≫= request_ids))
        as Hperm.
      { rewrite bind_app. simpl. rewrite Hidr, Hidb, <- app_assoc. simpl.
        apply perm_move. }
      split; unfold away, worker_ids; simpl; rewrite ?Hr, ?Hb, ?Hn, ?He; simpl.
      * rewrite Hperm.
        apply NoDup_cons. split.
        { intros Hin. apply elem_of_cons in Hin as [Hin|Hin]; [lia|].
          apply Hbd in Hin. lia. }
        apply NoDup_cons. split; [|done].
        intros Hin. apply Hbd in Hin. lia.
      * intros id Hin. rewrite Hperm in Hin.
        apply elem_of_cons in Hin as [->|Hin]; [lia|].
        apply elem_of_cons in Hin as [->|Hin]; [lia|].
        apply Hbd in Hin. lia.
      * rewrite Hperm, Hidr, Hidb, (outstanding_writes _ _ _ Hws), Hout. done.
      * apply (writes_owned_app [buf_id rb; buf_id bb]); [done| |done].
        intros id Hid. rewrite Hout. apply NoDup_app in Hnd as (_ & Hdis & _).
        by apply Hdis.
  - (* the worker takes a message *)
    unfold sys_step. cbn [to_worker to_page sys_page sys_worker sys_errors].
    destruct tw as [|q rest]; [by split|].
    destruct Hw as [(-> & -> & p & off & rest' & Heq & Hrest)|(Hinv & Hex & Hq)].
    + injection Heq as -> ->. simpl in Hout.
      apply Permutation_nil_l in Hout.
      assert (rest' ≫= request_ids = []) as Hnil by (symmetry; exact Hout).
      erewrite worker_runs_ok by apply init_eq. simpl.
      split; unfold away, worker_ids; simpl; rewrite ?Hnil; simpl.
      * repeat (apply NoDup_cons; split;
                [intros Hin; repeat (apply elem_of_cons in Hin as [Hin|Hin]; [lia|]);
                 by apply elem_of_nil in Hin|]).
        apply NoDup_nil_2.
      * intros id Hin.
        repeat (apply elem_of_cons in Hin as [->|Hin]; [lia|]).
        by apply elem_of_nil in Hin.
      * done.
      * done.
    + apply Forall_cons in Hq as [Hq Hrest].
      destruct (request_cases q now w) as (w' & Hh & Hn & Hcase).
      { intros n' p off ->. done. }
      erewrite worker_runs_ok by exact Hh. simpl.
      destruct q as [n' p off| |p|r b]; simpl in *.
      * done.
      * destruct Hcase as (He & Hr & Hb).
        rewrite He, posted_since_same, app_nil_r.
        split; unfold away, worker_ids in *; simpl; rewrite ?Hr, ?Hb, ?Hn, ?He; done.
      * destruct Hcase as (He & Hr & Hb).
        rewrite He, posted_since_same, app_nil_r.
        split; unfold away, worker_ids in *; simpl; rewrite ?Hr, ?Hb, ?Hn, ?He; done.
      * destruct Hcase as (He & Hr & Hb).
        rewrite He.
        change (Returned r b :: effects w) with ([Returned r b] ++ effects w).
        rewrite posted_since_app. simpl. rewrite app_nil_r.
        assert ((tp ≫= pair_ids) ++ buf_id r :: buf_id b :: (rest ≫= request_ids)
                ≡ₚ buf_id r :: buf_id b :: (tp ≫= pair_ids) ++ (rest ≫= request_ids))
          as Hperm.
        { apply perm_move. }
        apply NoDup_app in Hnd as (_ & _ & Hnd).
        assert (NoDup (buf_id r :: buf_id b :: (tp ≫= pair_ids) ++ (rest ≫= request_ids)))
          as Hnd' by (by rewrite <- Hperm).
        split; unfold away, worker_ids; simpl; rewrite ?Hr, ?Hb, ?Hn, ?He; simpl.
        -- exact Hnd'.
        -- intros id Hin. apply Hbd. apply elem_of_app. right. rewrite Hperm. exact Hin.
        -- rewrite Hout, Hperm. simpl.
           rewrite filter_cons_False by (simpl; tauto).
           rewrite filter_cons_False by (simpl; tauto).
           rewrite filter_all; [done|].
           intros id Hin. simpl.
           apply NoDup_cons in Hnd' as [Hr1 Hnd'].
           apply NoDup_cons in Hnd' as [Hb1 _].
           split; intros ->; [apply Hr1; by right|by apply Hb1].
        -- done.
  - (* the page takes a message *)
    unfold sys_step. cbn [to_worker to_page sys_page sys_worker sys_errors].
    destruct tp as [|[r b] rest]; [by split|].
    apply Forall_cons in Htp as [(Hl1 & Hl2 & _) _]. simpl in Hl1, Hl2.
    unfold page_onmessage. rewrite !typed_set_full by congruence.
    assert ((rest ≫= pair_ids) ++ ((tw ++ [ReqReturnBuffers r b]) ≫= request_ids)
            ≡ₚ (((r, b) :: rest) ≫= pair_ids) ++ (tw ≫= request_ids)) as Hperm.
    { rewrite bind_app, bind_cons. simpl. rewrite app_assoc.
      apply (Permutation_app_comm ((rest ≫= pair_ids) ++ (tw ≫= request_ids))
               [buf_id r; buf_id b]). }
    split; unfold away; simpl.
    + by rewrite Hperm.
    + intros id Hin. apply Hbd. by rewrite <- Hperm.
    + by rewrite Hperm.
    + done.
  - (* a slider moves *)
    unfold sys_step, gui_change. simpl.
    assert ((tw ++ (if notifies f then [ReqUpdateParams (gui_set f x (gui_params pg))]
                    else [])) ≫= request_ids
            = tw ≫= request_ids) as Heq.
    { rewrite bind_app. destruct (notifies f); simpl; by rewrite app_nil_r. }
    split; unfold away; cbn [sys_worker sys_page to_worker to_page sys_errors];
      rewrite ?Heq; done.
Qed.

Lemma booted_own n p off red_array blue_array :
  own_sys (booted n p off red_array blue_array).
Proof.
  split; unfold away, worker_ids; simpl; [apply NoDup_nil_2| |done|done].
  intros id Hin. by apply elem_of_nil in Hin.
Qed.

Lemma sys_run_own n acts s : sys_inv n s → own_sys s → own_sys (sys_run acts s).
Proof.
  intros Hinv Hown. induction acts as [|a acts IH] using rev_ind; [done|].
  rewrite sys_run_snoc. apply (own_step n); [by apply sys_run_inv|done].
Qed.

(** X28 — Every block is in one place.  In the page and the worker
    together, from the state in which the page's [init()] has run with
    mesh arrays of [n] matrices, and whatever the order of callbacks,
    message deliveries and slider moves: the two blocks the worker writes
    into and the blocks of the pairs under way in either direction all
    have different identities, each handed out by the worker's allocator;
    the blocks that the worker's trace shows as posted and not returned
    are exactly the blocks under way; and none of the worker's writes went
    to a block that was posted and not returned at that time, so the
    worker never writes into a pair the page has yet to read. *)
Theorem X28_one_owner (n : nat) (p : Params) (off : R)
    (red_array blue_array : list R) (acts : list Action) :
  length red_array = (n * 16)%nat → length blue_array = (n * 16)%nat →
  let s := sys_run acts (booted n p off red_array blue_array) in
  let w := sys_worker s in
  NoDup (worker_ids w ++ away s) ∧
  (∀ id, id ∈ worker_ids w ++ away s → (id < nextBufferId w)%nat) ∧
  outstanding (effects w) ≡ₚ away s ∧
  writes_owned (effects w) ∧
  (∀ id, id ∈ worker_ids w → id ∉ outstanding (effects w)).
Proof.
  intros Hr Hb s w.
  assert (own_sys s) as [Hnd Hbd Hout Hwr].
  { apply (sys_run_own n); [|apply booted_own].
    split; [apply booted_flow|done..]. }
  fold w in Hnd, Hbd, Hout, Hwr.
  do 4 (split; [done|]).
  intros id Hid. rewrite Hout. apply NoDup_app in Hnd as (_ & Hdis & _). by apply Hdis.
Qed.

Lemma X28_one_owner_witness :
  let n := 2%nat in
  let acts := [WorkerReceives 1000; WorkerReceives 1000; PageReceives;
               WorkerFrame 1016 (draws_all 0); WorkerReceives 1020;
               WorkerFrame 1032 (draws_all 0); PageReceives; PageReceives] in
  let s := sys_run acts (booted n page_params page_lobeOffset (zeros 2) (zeros 2)) in
  let w := sys_worker s in
  NoDup (worker_ids w ++ away s) ∧
  (∀ id, id ∈ worker_ids w ++ away s → (id < nextBufferId w)%nat) ∧
  outstanding (effects w) ≡ₚ away s ∧
  writes_owned (effects w) ∧
  (∀ id, id ∈ worker_ids w → id ∉ outstanding (effects w)).
Proof.
  intros n acts.
  apply (X28_one_owner 2 page_params page_lobeOffset (zeros 2) (zeros 2) acts).
  - reflexivity.
  - reflexivity.
Defined.

(** * What a post carries *)


(** X29 — What a post carries.  When a tick of a running simulation
    posts, the two arrays it posts hold, for every particle that was
    active in the tick (the one spawned in it included), in the 16 floats
    of its slot, the red and the blue lobe transform of the particle's
    record as the tick leaves it: at the envelope's scale when it
    survives, at scale 0 when it died in the tick.  The near-zero
    transform that a spawn writes is overwritten in the same tick. *)
Theorem X29_post_carries_transforms (N : nat) (ts : R) (r : Draws) (w : Worker) :
  sim_inv N w → simulationRunning w = true →
  ∃ wS w',
    let dt := deltaTime_of w ts in
    let p := params w in
    spawn r dt (clocked ts w) = Ok tt wS ∧
    updateSimulation ts r w = Ok tt w' ∧
    (activeDipoleIndices wS ≠ [] →
     ∃ rL bL rest,
       effects w' = Allocated (S (nextBufferId w)) (N * 16)
                    :: Allocated (nextBufferId w) (N * 16)
                    :: Posted rL bL :: rest ∧
       ∀ k d, k ∈ activeDipoleIndices wS → dipoles wS !! k = Some d →
         dipoles w' !! k = Some (advanced dt p d) ∧
         ∀ j, (j < 16)%nat →
           buf_data rL !! (k * 16 + j)%nat
           = lobeMatrix (advanced dt p d) (tick_scale dt p d) (matrixOffsetRed w) !! j ∧
           buf_data bL !! (k * 16 + j)%nat
           = lobeMatrix (advanced dt p d) (tick_scale dt p d) (matrixOffsetBlue w) !! j).
Proof.
  intros Hinv Hrun.
  destruct (si_fits _ _ Hinv) as (rb & bb & Hfit).
  destruct (updateSimulation_spec ts r w rb bb Hrun (si_pool _ _ Hinv) Hfit)
    as (wS & wL & rbS & bbS & rL & bL & Hspawn & HinvS & HfitS & _ & _
        & Hpost & HrL & HbL & _ & _ & Heq).
  destruct (spawn_frame r _ _ wS rb bb (clocked_pool_inv ts w (si_pool _ _ Hinv))
              (clocked_fit ts w rb bb Hfit) Hspawn)
    as (HpS & HmS & HorS & HobS & _ & _).
  simpl in HpS, HmS, HorS, HobS.
  assert (nextBufferId wS = nextBufferId w) as HnS.
  { destruct (spawn_cases r (deltaTime_of w ts) (clocked ts w) rb bb
                (clocked_pool_inv ts w (si_pool _ _ Hinv)) (clocked_fit ts w rb bb Hfit))
      as [[HeqS _]|(i & rest & d0 & _ & _ & _ & _ & _ & HeqS)];
      rewrite HeqS in Hspawn; injection Hspawn as <-; done. }
  exists wS. eexists. cbv zeta. split; [done|]. split; [exact Heq|].
  intros Hact. rewrite decide_False by done.
  destruct Hpost.
  exists rL, bL, (effects wL). simpl.
  split; [by rewrite lp_next0, lp_max0, HmS, HnS, (si_cap _ _ Hinv)|].
  intros k d Hk Hd.
  split; [rewrite <- HpS; by apply lp_in0|].
  rewrite HrL in lp_red0. rewrite HbL in lp_blue0.
  injection lp_red0 as ->. injection lp_blue0 as ->. simpl.
  pose proof (pool_inv_NoDup _ HinvS) as Hnd.
  apply NoDup_app in Hnd as (_ & _ & Hnd).
  assert (∀ k', k' ∈ activeDipoleIndices wS →
            (k' * 16 + 16 ≤ length (buf_data rbS))%nat ∧
            (k' * 16 + 16 ≤ length (buf_data bbS))%nat) as Hroom.
  { intros k' Hk'.
    assert (k' < maxDipoles wS)%nat
      by (apply (pool_inv_bound wS k' HinvS), elem_of_app; by right).
    destruct HfitS as [_ _ H1 H2 _]. lia. }
  intros j Hj. rewrite <- HpS, <- HorS, <- HobS.
  split; apply foldr_paint_inside; try done; intros k' Hk'; by apply Hroom.
Qed.

Lemma X29_post_carries_transforms_witness :
  let N := 2%nat in
  let ts := 1016 in
  let r := draws_all 0 in
  let w := started_worker in
  ∃ wS w',
    let dt := deltaTime_of w ts in
    let p := params w in
    spawn r dt (clocked ts w) = Ok tt wS ∧
    updateSimulation ts r w = Ok tt w' ∧
    (activeDipoleIndices wS ≠ [] →
     ∃ rL bL rest,
       effects w' = Allocated (S (nextBufferId w)) (N * 16)
                    :: Allocated (nextBufferId w) (N * 16)
                    :: Posted rL bL :: rest ∧
       ∀ k d, k ∈ activeDipoleIndices wS → dipoles wS !! k = Some d →
         dipoles w' !! k = Some (advanced dt p d) ∧
         ∀ j, (j < 16)%nat →
           buf_data rL !! (k * 16 + j)%nat
           = lobeMatrix (advanced dt p d) (tick_scale dt p d) (matrixOffsetRed w) !! j ∧
           buf_data bL !! (k * 16 + j)%nat
           = lobeMatrix (advanced dt p d) (tick_scale dt p d) (matrixOffsetBlue w) !! j).
Proof.
  intros N ts r w.
  apply (X29_post_carries_transforms 2 1016 (draws_all 0) started_worker).
  - apply started_worker_inv.
  - reflexivity.
Defined.
